(** * Shallow embedding of the MPSC sequencer and the multiplexing socket scheduler

    Two components of the repository are modelled here:

    - [Sequencer]: [macoro/sequence_mpsc.h], the multi-producer
      single-consumer sequencer over a power-of-two ring buffer;
    - [Scheduler]: [coproto/Socket/SocketScheduler.h], the scheduler that
      multiplexes forks over one byte stream.

    Sequence numbers are [std::size_t] values, modelled as [Z] with the
    64-bit wrap-around written out.  Atomics are modelled by their value,
    and a member function is one sequential execution over an explicit
    state; where two threads race on an atomic, their statements are
    interleaved.  The two coroutines of the scheduler are modelled by the
    state they keep across suspension points and a function that runs
    them from one suspension point to the next.

    The definitions come first, the properties after them. *)

From Stdlib Require Import ZArith Lia Bool List Znumtheory String.
From stdpp Require Import base option list.

Local Open Scope Z_scope.

(** ** Machine integers *)

Module Word.

(** [std::size_t] and the default [SEQUENCE] are 64 bits wide. *)
Definition modulus : Z := 2 ^ 64.

(** The largest value of the signed [difference_type]. *)
Definition max_diff : Z := 2 ^ 63 - 1.

Definition wrap (z : Z) : Z := z mod modulus.

(** Reinterpretation of an unsigned value as the signed type of the same
    width, as [static_cast<difference_type>] does. *)
Definition to_signed (z : Z) : Z :=
  if wrap z <=? max_diff then wrap z else wrap z - modulus.

Definition in_range (z : Z) : Prop := 0 <= z < modulus.

(** The source's assertion on the buffer size:
    [bufferSize > 0 && (bufferSize & (bufferSize - 1)) == 0]. *)
Definition is_pow2 (n : Z) : bool :=
  (0 <? n) && (Z.land n (n - 1) =? 0).

End Word.

(** ** [macoro/sequence_mpsc.h] *)

Module Sequencer.
Import Word.

(** Modelled from the spec: [macoro/sequence_traits.h] is not among the
    sources.  The spec describes a sequence as an unsigned integer for
    which wrapping is permitted "per a trait that defines [precedes] and
    [difference]": the difference is the wrapped subtraction read as a
    signed number, and [a] precedes [b] when that difference is negative. *)
Definition difference (a b : Z) : Z := to_signed (a - b).

Definition precedes (a b : Z) : bool := difference a b <? 0.

(** Modelled from the spec: [macoro/sequence_range.h] is not among the
    sources.  A range is the half-open interval [[range_begin, range_end)]
    of sequence numbers, "a contiguous [first, first+count) range". *)
Record sequence_range : Type := {
  range_begin : Z;
  range_end : Z
}.

Definition range_back (r : sequence_range) : Z := wrap (range_end r - 1).

Definition range_size (r : sequence_range) : Z :=
  wrap (range_end r - range_begin r).

(** The sequence numbers of a range, in order. *)
Definition range_elements (r : sequence_range) : list Z :=
  List.map (fun i : nat => wrap (range_begin r + Z.of_nat i))
           (List.seq 0 (Z.to_nat (range_size r))).

(** [sequence_mpsc_wait_operation_base]: the fields of an awaiter.  The
    intrusive [m_next] pointer is the list structure of [m_awaiters]. *)
Record wait_operation : Type := {
  m_targetSequence : Z;
  m_lastKnownPublished : Z;
  m_awaitingCoroutine : option nat;
  m_readyToResume : bool
}.

(** The state of a [sequence_mpsc].  [m_consumerBarrier] is a reference to
    an object owned elsewhere and is not part of the sequencer's state. *)
Record sequence_mpsc : Type := {
  m_sequenceMask : Z;
  m_published : list Z;
  m_nextToClaim : Z;
  m_awaiters : list wait_operation
}.

Definition buffer_size (s : sequence_mpsc) : Z := wrap (m_sequenceMask s + 1).

(** [m_published[i].load()] *)
Definition load (published : list Z) (i : Z) : Z :=
  default 0 (published !! Z.to_nat i).

(** [m_published[i].store(v)] *)
Definition store (published : list Z) (i v : Z) : list Z :=
  <[Z.to_nat i := v]> published.

(** The [do { ... } while (seq++ != initialSequence)] loop of the
    constructor.  [None] when [fuel] iterations did not reach the exit. *)
Fixpoint init_loop (fuel : nat) (mask initialSequence seq : Z)
    (published : list Z) : option (list Z) :=
  match fuel with
  | O => None
  | S fuel' =>
      let published' := store published (Z.land seq mask) seq in
      if seq =? initialSequence then Some published'
      else init_loop fuel' mask initialSequence (wrap (seq + 1)) published'
  end.

(** The number of iterations the constructor's loop performs when started
    at [seq]: one more than the wrapped distance up to [initialSequence]. *)
Definition init_iterations (initialSequence seq : Z) : nat :=
  S (Z.to_nat (wrap (initialSequence - seq))).

(** [sequence_mpsc::sequence_mpsc(consumerBarrier, bufferSize, initialSequence)] *)
Definition sequence_mpsc_ctor (bufferSize initialSequence : Z)
    : option sequence_mpsc :=
  let mask := wrap (bufferSize - 1) in
  let seq := wrap (initialSequence - (bufferSize - 1)) in
  match init_loop (init_iterations initialSequence seq) mask initialSequence seq
          (replicate (Z.to_nat bufferSize) 0) with
  | Some published =>
      Some {| m_sequenceMask := mask;
              m_published := published;
              m_nextToClaim := wrap (initialSequence + 1);
              m_awaiters := [] |}
  | None => None
  end.

(** The [while] loop of [last_published_after]. *)
Fixpoint scan_published (fuel : nat) (mask : Z) (published : list Z)
    (seq lastKnownPublished : Z) : option Z :=
  match fuel with
  | O => None
  | S fuel' =>
      if load published (Z.land seq mask) =? seq
      then scan_published fuel' mask published (wrap (seq + 1)) seq
      else Some lastKnownPublished
  end.

(** [sequence_mpsc::last_published_after(lastKnownPublished)].  The loop
    is given one iteration per ring slot plus the one that leaves it. *)
Definition last_published_after (s : sequence_mpsc) (lastKnownPublished : Z)
    : option Z :=
  scan_published (S (length (m_published s))) (m_sequenceMask s)
    (m_published s) (wrap (lastKnownPublished + 1)) lastKnownPublished.

(** The store of [publish(sequence)]; waking the awaiters is not modelled. *)
Definition publish_store (sequence : Z) (s : sequence_mpsc) : sequence_mpsc :=
  {| m_sequenceMask := m_sequenceMask s;
     m_published := store (m_published s)
                      (Z.land sequence (m_sequenceMask s)) sequence;
     m_nextToClaim := m_nextToClaim s;
     m_awaiters := m_awaiters s |}.

(** *** Claiming

    Member functions of the sequencer are state transformers. *)
Definition M (A : Type) : Type := sequence_mpsc -> A * sequence_mpsc.

Definition ret {A : Type} (a : A) : M A := fun s => (a, s).

Definition bind {A B : Type} (m : M A) (k : A -> M B) : M B :=
  fun s => let (a, s') := m s in k a s'.

(** [m_nextToClaim.fetch_add(n)]: returns the previous value. *)
Definition fetch_add_nextToClaim (n : Z) : M Z :=
  fun s =>
    (m_nextToClaim s,
     {| m_sequenceMask := m_sequenceMask s;
        m_published := m_published s;
        m_nextToClaim := wrap (m_nextToClaim s + n);
        m_awaiters := m_awaiters s |}).

Definition get_buffer_size : M Z := fun s => (buffer_size s, s).

(** [sequence_mpsc_claim_operation]; the reference [m_sequencer] is the
    state the operations below run in. *)
Record claim_operation : Type := { m_count : Z }.

(** [sequence_mpsc_claim_one_operation] has no field but the reference. *)
Record claim_one_operation : Type := { }.

(** [sequence_mpsc_claim_awaiter]: [m_barrierWait] is represented by the
    sequence number it waits for on the consumer barrier. *)
Record claim_awaiter : Type := {
  m_barrierWait : Z;
  m_claimedRange : sequence_range
}.

(** [sequence_mpsc_claim_one_awaiter] *)
Record claim_one_awaiter : Type := {
  m_waitOp : Z;
  m_claimedSequence : Z
}.

(** [sequence_mpsc::claim_up_to(count)] with the constructor of
    [sequence_mpsc_claim_operation]. *)
Definition claim_up_to (count : Z) : M claim_operation :=
  bind get_buffer_size (fun n =>
  ret {| m_count := if count <? n then count else n |}).

(** [sequence_mpsc::claim_one()] *)
Definition claim_one : M claim_one_operation :=
  ret Build_claim_one_operation.

(** [sequence_mpsc_claim_operation::operator co_await()] *)
Definition claim_co_await (op : claim_operation) : M claim_awaiter :=
  bind (fetch_add_nextToClaim (m_count op)) (fun first =>
  bind get_buffer_size (fun n =>
  let claimedRange :=
    {| range_begin := first; range_end := wrap (first + m_count op) |} in
  ret {| m_barrierWait := wrap (range_back claimedRange - n);
         m_claimedRange := claimedRange |})).

(** [sequence_mpsc_claim_one_operation::operator co_await()] *)
Definition claim_one_co_await (op : claim_one_operation) : M claim_one_awaiter :=
  bind (fetch_add_nextToClaim 1) (fun claimedSequence =>
  bind get_buffer_size (fun n =>
  ret {| m_waitOp := wrap (claimedSequence - n);
         m_claimedSequence := claimedSequence |})).

(** A producer that calls [claim_up_to] with each of [counts], and
    [claim_one] after each, and never awaits any of the awaitables. *)
Fixpoint abandoned_claims (counts : list Z) : M unit :=
  match counts with
  | [] => ret tt
  | count :: counts' =>
      bind (claim_up_to count) (fun _ =>
      bind claim_one (fun _ =>
      abandoned_claims counts'))
  end.

(** [sequence_mpsc_claim_awaiter::await_resume()] *)
Definition claim_await_resume (a : claim_awaiter) : sequence_range :=
  m_claimedRange a.

(** [sequence_mpsc_claim_one_awaiter::await_resume()] *)
Definition claim_one_await_resume (a : claim_one_awaiter) : Z :=
  m_claimedSequence a.

(** The state a well-constructed sequencer is in: the mask is the buffer
    size minus one, the size is a power of two within the difference type,
    and the array has one entry per slot. *)
Definition well_formed (s : sequence_mpsc) : Prop :=
  is_pow2 (buffer_size s) = true /\
  buffer_size s <= max_diff /\
  m_sequenceMask s = buffer_size s - 1 /\
  Z.of_nat (length (m_published s)) = buffer_size s.

(** [published[seq & mask] == seq]: the test by which the sequencer takes
    [seq] to be published. *)
Definition published_matches (s : sequence_mpsc) (seq : Z) : Prop :=
  load (m_published s) (Z.land seq (m_sequenceMask s)) = seq.

(** [r] ends the longest run of published sequence numbers that begins
    right after [lkp]: it lies [k] positions after [lkp], the [k] sequence
    numbers in between are all published, the next one is not, and no
    longer run of published numbers starts after [lkp]. *)
Definition greatest_published_prefix (s : sequence_mpsc) (lkp r : Z) : Prop :=
  exists k : Z,
    0 <= k <= buffer_size s /\
    r = wrap (lkp + k) /\
    (forall j, 0 < j <= k -> published_matches s (wrap (lkp + j))) /\
    ~ published_matches s (wrap (lkp + k + 1)) /\
    (forall k2, 0 <= k2 ->
       (forall j, 0 < j <= k2 -> published_matches s (wrap (lkp + j))) ->
       k2 <= k).

(** What the constructor leaves in slot [i] of [published]: the one
    sequence number among the [n] numbers ending at [initialSequence]
    that is congruent to [i] modulo [n]; it precedes [initialSequence + 1]. *)
Definition initial_slot_value (n initialSequence i v : Z) : Prop :=
  exists j : Z,
    0 <= j < n /\
    v = wrap (initialSequence - j) /\
    v mod n = i /\
    precedes v (wrap (initialSequence + 1)) = true /\
    (forall j', 0 <= j' < n -> wrap (initialSequence - j') mod n = i -> j' = j).

(** *** Waiting

    [sequence_mpsc::wait_until_published] with the constructor of
    [sequence_mpsc_wait_operation_base]. *)
Definition wait_until_published (targetSequence lastKnownPublished : Z)
    : wait_operation :=
  {| m_targetSequence := targetSequence;
     m_lastKnownPublished := lastKnownPublished;
     m_awaitingCoroutine := None;
     m_readyToResume := false |}.

(** [sequence_mpsc_wait_operation_base::await_ready()] *)
Definition await_ready (a : wait_operation) : bool :=
  negb (precedes (m_lastKnownPublished a) (m_targetSequence a)).

(** [m_readyToResume.exchange(true)]: one indivisible read-modify-write
    that returns the previous value. *)
Definition exchange_readyToResume (a : wait_operation)
    : bool * wait_operation :=
  (m_readyToResume a,
   {| m_targetSequence := m_targetSequence a;
      m_lastKnownPublished := m_lastKnownPublished a;
      m_awaitingCoroutine := m_awaitingCoroutine a;
      m_readyToResume := true |}).

(** The race between a thread in [await_suspend] and a thread in
    [resume] on the same awaiter is modelled by interleaving their
    steps.  A step is a statement of the source; the accesses to
    [m_readyToResume] are the atomic exchanges. *)

(** Where the thread running [await_suspend(awaitingCoroutine)] stands:
    before [m_awaitingCoroutine = awaitingCoroutine]; before the awaiter
    is pushed on [m_awaiters] by [add_awaiter]; before the exchange; or
    returned, with the value returned ([false]: the awaiting coroutine is
    resumed at once, it does not suspend). *)
Inductive suspend_pc : Type :=
| SuspendStoreHandle
| SuspendEnqueue
| SuspendExchange
| SuspendReturned (suspended : bool).

(** Where the thread running [resume(lastKnownPublished)] stands: before
    the store to [m_lastKnownPublished]; before the exchange; before
    [resume_impl()], reached when the exchange returned [true]; done. *)
Inductive resume_pc : Type :=
| ResumeStore
| ResumeExchange
| ResumeImpl
| ResumeDone.

Inductive thread : Type := Suspender | Resumer.

Record race : Type := {
  race_awaiter : wait_operation;
  suspend_at : suspend_pc;
  resume_at : resume_pc;
  (** calls of [m_awaitingCoroutine.resume()] made by [resume_impl] *)
  resume_impl_calls : nat
}.

Definition race_init (targetSequence lastKnownPublished : Z) : race :=
  {| race_awaiter := wait_until_published targetSequence lastKnownPublished;
     suspend_at := SuspendStoreHandle;
     resume_at := ResumeStore;
     resume_impl_calls := 0 |}.

(** The awaiter can be reached by another thread once it is on the list. *)
Definition enqueued (c : race) : bool :=
  match suspend_at c with
  | SuspendStoreHandle | SuspendEnqueue => false
  | SuspendExchange | SuspendReturned _ => true
  end.

(** One step of thread [t]; [None] when [t] cannot move. *)
Definition race_step (handle : nat) (published : Z) (t : thread) (c : race)
    : option race :=
  let a := race_awaiter c in
  match t with
  | Suspender =>
      match suspend_at c with
      | SuspendStoreHandle =>
          Some {| race_awaiter :=
                    {| m_targetSequence := m_targetSequence a;
                       m_lastKnownPublished := m_lastKnownPublished a;
                       m_awaitingCoroutine := Some handle;
                       m_readyToResume := m_readyToResume a |};
                  suspend_at := SuspendEnqueue;
                  resume_at := resume_at c;
                  resume_impl_calls := resume_impl_calls c |}
      | SuspendEnqueue =>
          Some {| race_awaiter := a;
                  suspend_at := SuspendExchange;
                  resume_at := resume_at c;
                  resume_impl_calls := resume_impl_calls c |}
      | SuspendExchange =>
          let (old, a') := exchange_readyToResume a in
          Some {| race_awaiter := a';
                  suspend_at := SuspendReturned (negb old);
                  resume_at := resume_at c;
                  resume_impl_calls := resume_impl_calls c |}
      | SuspendReturned _ => None
      end
  | Resumer =>
      if enqueued c then
        match resume_at c with
        | ResumeStore =>
            Some {| race_awaiter :=
                      {| m_targetSequence := m_targetSequence a;
                         m_lastKnownPublished := published;
                         m_awaitingCoroutine := m_awaitingCoroutine a;
                         m_readyToResume := m_readyToResume a |};
                    suspend_at := suspend_at c;
                    resume_at := ResumeExchange;
                    resume_impl_calls := resume_impl_calls c |}
        | ResumeExchange =>
            let (old, a') := exchange_readyToResume a in
            Some {| race_awaiter := a';
                    suspend_at := suspend_at c;
                    resume_at := if old then ResumeImpl else ResumeDone;
                    resume_impl_calls := resume_impl_calls c |}
        | ResumeImpl =>
            Some {| race_awaiter := a;
                    suspend_at := suspend_at c;
                    resume_at := ResumeDone;
                    resume_impl_calls := S (resume_impl_calls c) |}
        | ResumeDone => None
        end
      else None
  end.

(** An interleaving is the list of the threads that move, in order. *)
Fixpoint race_run (handle : nat) (published : Z) (schedule : list thread)
    (c : race) : option race :=
  match schedule with
  | [] => Some c
  | t :: schedule' =>
      match race_step handle published t c with
      | Some c' => race_run handle published schedule' c'
      | None => None
      end
  end.

(** Both calls have returned. *)
Definition race_finished (c : race) : bool :=
  match suspend_at c, resume_at c with
  | SuspendReturned _, ResumeDone => true
  | _, _ => false
  end.

(** Who resumed the awaiting coroutine: [await_suspend], by returning
    [false], and [resume], by calling [resume_impl]. *)
Definition resumed_by_await_suspend (c : race) : nat :=
  match suspend_at c with
  | SuspendReturned false => 1%nat
  | _ => 0%nat
  end.

Definition resumptions (c : race) : nat :=
  (resumed_by_await_suspend c + resume_impl_calls c)%nat.

(** What holds of the flag and of the count of resumptions at each pair
    of program points. *)
Definition race_invariant (c : race) : bool :=
  let flag := m_readyToResume (race_awaiter c) in
  let calls := resume_impl_calls c in
  match suspend_at c, resume_at c with
  | SuspendReturned r, ResumeDone =>
      flag && (if r then Nat.eqb calls 1 else Nat.eqb calls 0)
  | SuspendReturned r, ResumeImpl => flag && r && Nat.eqb calls 0
  | SuspendReturned r, _ => flag && r && Nat.eqb calls 0
  | _, ResumeDone => flag && Nat.eqb calls 0
  | _, ResumeImpl => false
  | _, _ => negb flag && Nat.eqb calls 0
  end.

(** A ring of four slots constructed with initial sequence 0. *)
Definition ring4 : sequence_mpsc :=
  {| m_sequenceMask := 3;
     m_published := [0; 18446744073709551613; 18446744073709551614;
                     18446744073709551615];
     m_nextToClaim := 1;
     m_awaiters := [] |}.

(** [ring4] after [publish(1)] and [publish(2)]. *)
Definition ring4_published : sequence_mpsc :=
  publish_store 2 (publish_store 1 ring4).

(** *** Claiming in sequence *)

(** A producer that awaits [claim_up_to(count)] for each of [counts] in
    turn; the ranges it is handed, in order. *)
Fixpoint awaited_claims (counts : list Z) : M (list sequence_range) :=
  match counts with
  | [] => ret []
  | count :: counts' =>
      bind (claim_up_to count) (fun op =>
      bind (claim_co_await op) (fun awaiter =>
      bind (awaited_claims counts') (fun ranges =>
      ret (claim_await_resume awaiter :: ranges))))
  end.

(** The ranges follow one another without gap or overlap: the first
    begins at [first], each begins where the one before ends, and the
    last ends at [final]. *)
Fixpoint chained (first : Z) (ranges : list sequence_range) (final : Z)
    : Prop :=
  match ranges with
  | [] => first = final
  | r :: ranges' => range_begin r = first /\ chained (range_end r) ranges' final
  end.

(** [sequence_mpsc::any_available()].  The consumer barrier is an object
    of [macoro/sequence_barrier.h], which is not among the sources; the
    value of [m_consumerBarrier.last_published()] is a parameter. *)
Definition any_available (barrier_last_published : Z) (s : sequence_mpsc)
    : bool :=
  precedes (m_nextToClaim s) (wrap (barrier_last_published + buffer_size s)).

(** *** Publishing a range *)

(** Modelled from the spec: [empty()], [front()] and [skip(n)] belong to
    [macoro/sequence_range.h], as the range itself. *)
Definition range_empty (r : sequence_range) : bool :=
  range_begin r =? range_end r.

Definition range_front (r : sequence_range) : Z := range_begin r.

Definition range_skip (n : Z) (r : sequence_range) : sequence_range :=
  {| range_begin :=
       if n <? range_size r then wrap (range_begin r + n) else range_end r;
     range_end := range_end r |}.

(** The stores of a [for (SEQUENCE seq : ...)] loop over sequence numbers. *)
Fixpoint store_each (mask : Z) (seqs : list Z) (published : list Z) : list Z :=
  match seqs with
  | [] => published
  | seq :: seqs' =>
      store_each mask seqs' (store published (Z.land seq mask) seq)
  end.

(** The stores of [publish(range)]: all but the first sequence number,
    then the first. *)
Definition publish_range_store (r : sequence_range) (s : sequence_mpsc)
    : sequence_mpsc :=
  if range_empty r then s
  else
    let published :=
      store_each (m_sequenceMask s) (range_elements (range_skip 1 r))
        (m_published s) in
    {| m_sequenceMask := m_sequenceMask s;
       m_published :=
         store published (Z.land (range_front r) (m_sequenceMask s))
           (range_front r);
       m_nextToClaim := m_nextToClaim s;
       m_awaiters := m_awaiters s |}.

(** *** Waking awaiters

    [resume_ready_awaiters] and [add_awaiter] are modelled as they run
    when no other thread touches the sequencer meanwhile: an exchange
    returns what the last store left, and a compare-exchange succeeds at
    its first attempt.  The intrusive lists are lists; appending at a
    tail pointer is appending. *)

Definition set_m_awaiters (awaiters : list wait_operation)
    (s : sequence_mpsc) : sequence_mpsc :=
  {| m_sequenceMask := m_sequenceMask s;
     m_published := m_published s;
     m_nextToClaim := m_nextToClaim s;
     m_awaiters := awaiters |}.

Definition set_m_lastKnownPublished (lastKnownPublished : Z)
    (a : wait_operation) : wait_operation :=
  {| m_targetSequence := m_targetSequence a;
     m_lastKnownPublished := lastKnownPublished;
     m_awaitingCoroutine := m_awaitingCoroutine a;
     m_readyToResume := m_readyToResume a |}.

(** [sequence_mpsc_wait_operation_base::resume(lastKnownPublished)]: the
    awaiter after the call, and whether [resume_impl()] was called. *)
Definition resume (lastKnownPublished : Z) (a : wait_operation)
    : wait_operation * bool :=
  let (old, a') :=
    exchange_readyToResume (set_m_lastKnownPublished lastKnownPublished a) in
  (a', old).

(** The inner [do ... while (awaiters != nullptr)] loop of
    [resume_ready_awaiters]: the requeue list, the part added to the
    resume list, and [minDiff]. *)
Fixpoint split_awaiters (lastKnownPublished : Z)
    (awaiters : list wait_operation) (minDiff : Z)
    : list wait_operation * list wait_operation * Z :=
  match awaiters with
  | [] => ([], [], minDiff)
  | a :: awaiters' =>
      let diff := difference (m_targetSequence a) lastKnownPublished in
      let a' := set_m_lastKnownPublished lastKnownPublished a in
      if 0 <? diff then
        let '(requeue, to_resume, m) :=
          split_awaiters lastKnownPublished awaiters'
            (if diff <? minDiff then diff else minDiff) in
        (a' :: requeue, to_resume, m)
      else
        let '(requeue, to_resume, m) :=
          split_awaiters lastKnownPublished awaiters' minDiff in
        (requeue, a' :: to_resume, m)
  end.

(** The second scan of [resume_ready_awaiters], after the requeue: the
    last known published sequence number it ends with, and whether it
    reached [earliestTargetSequence] and took the list again. *)
Fixpoint rescan_published (fuel : nat) (mask : Z) (published : list Z)
    (seq lastKnownPublished earliestTargetSequence : Z) : option (Z * bool) :=
  match fuel with
  | O => None
  | S fuel' =>
      if load published (Z.land seq mask) =? seq then
        if seq =? earliestTargetSequence then Some (seq, true)
        else rescan_published fuel' mask published (wrap (seq + 1)) seq
               earliestTargetSequence
      else Some (lastKnownPublished, false)
  end.

(** The outer [do ... while (awaiters != nullptr)] loop of
    [resume_ready_awaiters]: the sequencer, the resume list and the last
    known published sequence number it ends with. *)
Fixpoint resume_ready_loop (fuel : nat) (s : sequence_mpsc)
    (awaiters to_resume : list wait_operation)
    : option (sequence_mpsc * list wait_operation * Z) :=
  match fuel with
  | O => None
  | S fuel' =>
      match awaiters with
      | [] => None
      | head :: _ =>
          match last_published_after s (m_lastKnownPublished head) with
          | None => None
          | Some lastKnownPublished =>
              let '(requeue, ready, minDiff) :=
                split_awaiters lastKnownPublished awaiters max_diff in
              let to_resume' := to_resume ++ ready in
              match requeue with
              | [] => Some (s, to_resume', lastKnownPublished)
              | _ :: _ =>
                  let s1 := set_m_awaiters (requeue ++ m_awaiters s) s in
                  match rescan_published (S (length (m_published s1)))
                          (m_sequenceMask s1) (m_published s1)
                          (wrap (lastKnownPublished + 1)) lastKnownPublished
                          (wrap (lastKnownPublished + minDiff)) with
                  | None => None
                  | Some (lastKnownPublished', false) =>
                      Some (s1, to_resume', lastKnownPublished')
                  | Some (lastKnownPublished', true) =>
                      match m_awaiters s1 with
                      | [] => Some (s1, to_resume', lastKnownPublished')
                      | again =>
                          resume_ready_loop fuel' (set_m_awaiters [] s1) again
                            to_resume'
                      end
                  end
              end
          end
      end
  end.

(** [sequence_mpsc::resume_ready_awaiters()]: the sequencer afterwards
    and, in order, the awaiters on which [resume] was called, each with
    whether that call ran [resume_impl()]. *)
Definition resume_ready_awaiters (fuel : nat) (s : sequence_mpsc)
    : option (sequence_mpsc * list (wait_operation * bool)) :=
  match m_awaiters s with
  | [] => Some (s, [])
  | awaiters =>
      match resume_ready_loop fuel (set_m_awaiters [] s) awaiters [] with
      | None => None
      | Some (s', to_resume, lastKnownPublished) =>
          Some (s', List.map (resume lastKnownPublished) to_resume)
      end
  end.

(** [sequence_mpsc::publish(sequence)] *)
Definition publish (fuel : nat) (sequence : Z) (s : sequence_mpsc)
    : option (sequence_mpsc * list (wait_operation * bool)) :=
  resume_ready_awaiters fuel (publish_store sequence s).

(** [sequence_mpsc::publish(range)] *)
Definition publish_range (fuel : nat) (r : sequence_range) (s : sequence_mpsc)
    : option (sequence_mpsc * list (wait_operation * bool)) :=
  if range_empty r then Some (s, [])
  else resume_ready_awaiters fuel (publish_range_store r s).

(** The loop over the reacquired list in [add_awaiter].  The difference
    is taken from [targetSequence], the local of [add_awaiter], for every
    awaiter of the list; [m_lastKnownPublished] is written in the
    not-yet-ready branch only. *)
Fixpoint split_added (targetSequence lastKnownPublished : Z)
    (awaiters : list wait_operation) (minDiff : Z)
    : list wait_operation * list wait_operation * Z :=
  match awaiters with
  | [] => ([], [], minDiff)
  | a :: awaiters' =>
      let diff := difference targetSequence lastKnownPublished in
      if 0 <? diff then
        let '(enqueue, to_resume, m) :=
          split_added targetSequence lastKnownPublished awaiters'
            (if diff <? minDiff then diff else minDiff) in
        (set_m_lastKnownPublished lastKnownPublished a :: enqueue,
         to_resume, m)
      else
        let '(enqueue, to_resume, m) :=
          split_added targetSequence lastKnownPublished awaiters' minDiff in
        (enqueue, a :: to_resume, m)
  end.

(** The [do ... while (awaitersToEnqueue != nullptr)] loop of
    [add_awaiter].  Its scan of [m_published] from
    [lastKnownPublished + 1] is the loop of [last_published_after]. *)
Fixpoint add_awaiter_loop (fuel : nat) (s : sequence_mpsc)
    (to_enqueue : list wait_operation) (targetSequence lastKnownPublished : Z)
    (to_resume : list wait_operation)
    : option (sequence_mpsc * list wait_operation * Z) :=
  match fuel with
  | O => None
  | S fuel' =>
      let s1 := set_m_awaiters (to_enqueue ++ m_awaiters s) s in
      match last_published_after s1 lastKnownPublished with
      | None => None
      | Some lastKnownPublished' =>
          if negb (precedes lastKnownPublished' targetSequence) then
            let '(enqueue, ready, minDiff) :=
              split_added targetSequence lastKnownPublished'
                (m_awaiters s1) max_diff in
            let s2 := set_m_awaiters [] s1 in
            match enqueue with
            | [] => Some (s2, to_resume ++ ready, lastKnownPublished')
            | _ :: _ =>
                add_awaiter_loop fuel' s2 enqueue
                  (wrap (lastKnownPublished' + minDiff)) lastKnownPublished'
                  (to_resume ++ ready)
            end
          else Some (s1, to_resume, lastKnownPublished')
      end
  end.

(** [sequence_mpsc::add_awaiter(awaiter)] *)
Definition add_awaiter (fuel : nat) (awaiter : wait_operation)
    (s : sequence_mpsc)
    : option (sequence_mpsc * list (wait_operation * bool)) :=
  match add_awaiter_loop fuel s [awaiter] (m_targetSequence awaiter)
          (m_lastKnownPublished awaiter) [] with
  | None => None
  | Some (s', to_resume, lastKnownPublished) =>
      Some (s', List.map (resume lastKnownPublished) to_resume)
  end.

(** The awaiters of a list that a publish up to [lastKnownPublished]
    leaves waiting, and those it wakes: the ones whose target follows
    [lastKnownPublished], and the others. *)
Definition still_waiting (lastKnownPublished : Z) (a : wait_operation) : bool :=
  0 <? difference (m_targetSequence a) lastKnownPublished.

(** A consumer waiting for sequence number 3 on [ring4], suspended. *)
Definition waiter_for_3 : wait_operation :=
  {| m_targetSequence := 3; m_lastKnownPublished := 0;
     m_awaitingCoroutine := Some 9%nat; m_readyToResume := true |}.

(** A second awaiter, waiting for sequence number 1. *)
Definition waiter_for_1 : wait_operation :=
  {| m_targetSequence := 1; m_lastKnownPublished := 0;
     m_awaitingCoroutine := Some 8%nat; m_readyToResume := true |}.

(** [ring4_published] with the two consumers on the list. *)
Definition ring4_waiting : sequence_mpsc :=
  set_m_awaiters [waiter_for_3; waiter_for_1] ring4_published.

(** [ring4] with one consumer on the list, waiting for sequence number 1. *)
Definition ring4_one_waiting : sequence_mpsc :=
  set_m_awaiters [waiter_for_1] ring4.

End Sequencer.

(** ** [coproto/Socket/SocketScheduler.h] *)

Module Scheduler.
Import Word.

(** Bytes are numbers below 256. *)
Definition bytes : Type := list Z.

(** Modelled from the spec: [coproto/Common/error_code.h] is not among the
    sources.  [success] is the default-constructed [error_code]; the four
    codes are those the spec lists for the wire-facing path; [io_error]
    stands for any other error the underlying stream reports. *)
Inductive error_code : Type :=
| success
| operation_aborted
| closed
| cancel
| badCoprotoMessageHeader
| io_error (n : nat).

(** [static_cast<bool>(ec)] *)
Definition is_error (ec : error_code) : bool :=
  match ec with success => false | _ => true end.

(** [ec == code::operation_aborted] *)
Definition is_aborted (ec : error_code) : bool :=
  match ec with operation_aborted => true | _ => false end.

(** A [coroutine_handle<>]: null, the no-op coroutine, or a coroutine. *)
Inductive coroutine_handle : Type :=
| null_handle
| noop_coroutine
| coroutine (id : nat).

(** [operator bool] of a handle. *)
Definition handle_set (h : coroutine_handle) : bool :=
  match h with null_handle => false | _ => true end.

(** What the scheduler does to the world outside its own state. *)
Inductive effect : Type :=
| Resume (h : coroutine_handle)
    (** [h.resume()] *)
| SetError (sending : bool) (slot op : nat) (ec : error_code)
    (** [setError] on the buffer of operation [op] of slot [slot] *)
| RequestStop (sending : bool).
    (** [request_stop()] on the send-side or recv-side stop source *)

(** *** [CBList] *)

Module CBList.

Record t : Type := {
  mSize : Z;
  mArray : list coroutine_handle;
  mVec : list coroutine_handle
}.

(** The size of [SmallBuffer]. *)
Definition small : Z := 8.

(** [CBList() = default] *)
Definition empty : t :=
  {| mSize := 0; mArray := replicate (Z.to_nat small) null_handle; mVec := [] |}.

(** [push_back(h)] *)
Definition push_back (h : coroutine_handle) (cb : t) : t :=
  if small <=? mSize cb
  then {| mSize := mSize cb; mArray := mArray cb; mVec := mVec cb ++ [h] |}
  else {| mSize := wrap (mSize cb + 1);
          mArray := <[Z.to_nat (mSize cb) := h]> (mArray cb);
          mVec := mVec cb |}.

(** [operator bool] *)
Definition nonempty (cb : t) : bool := negb (mSize cb =? 0).

(** [get()]: the handles resumed by the call, in order, and the handle
    returned. *)
Definition get (cb : t) : list coroutine_handle * coroutine_handle :=
  if mSize cb =? 0 then ([], noop_coroutine)
  else
    let last := mSize cb - 1 in
    let resumed := take (Z.to_nat (Z.min last small)) (mArray cb) in
    if mSize cb <=? small
    then (resumed, default null_handle (mArray cb !! Z.to_nat last))
    else (resumed ++ take (length (mVec cb) - 1) (mVec cb),
          List.last (mVec cb) null_handle).

(** [cb.get().resume()] *)
Definition resume_all (cb : t) : list effect :=
  let (resumed, returned) := get cb in
  (Resume <$> resumed) ++ [Resume returned].

(** The list is not empty, has not outgrown its small buffer, and its
    first entry is [h]. *)
Definition holds_first (h : coroutine_handle) (cb : t) : Prop :=
  1 <= mSize cb <= small /\
  length (mArray cb) = Z.to_nat small /\
  mArray cb !! 0%nat = Some h.

End CBList.

(** *** Operations and slots *)

(** [FlushToken], held through [std::shared_ptr]: the object and its
    [use_count()]. *)
Record FlushToken : Type := {
  mHandle : coroutine_handle;
  use_count : nat
}.

(** Modelled from the spec: the buffer classes of [coproto/Proto] are not
    among the sources.  A [SendBuffer] owns the outbound bytes; a
    [RecvBuffer] is the caller's destination, whose length is the declared
    buffer size; both record the error an operation is failed with. *)
Record SendBuffer : Type := {
  sb_data : bytes;
  sb_error : option error_code
}.

Record RecvBuffer : Type := {
  rb_data : bytes;
  rb_error : option error_code
}.

Definition SendBuffer_setError (ec : error_code) (b : SendBuffer) : SendBuffer :=
  {| sb_data := sb_data b; sb_error := Some ec |}.

Definition RecvBuffer_setError (ec : error_code) (b : RecvBuffer) : RecvBuffer :=
  {| rb_data := rb_data b; rb_error := Some ec |}.

(** A [SlotIter] is the position of the slot in [mSlots_], from which
    slots are never erased.  An iterator into an operation list is the
    identity of the list node, kept in the operation as [mSelfIter]. *)
Abbreviation SlotIter := nat (only parsing).

Module SendOperation2.

Record t : Type := {
  mCH2 : coroutine_handle;
  mSendBuff : SendBuffer;
  mInProgress : bool;
  mSlot : SlotIter;
  mSelfIter : nat;
  (** [mToken.stop_possible()] *)
  mToken : bool;
  (** the [FlushToken]s shared with this operation *)
  mFlushes : list nat
}.

End SendOperation2.

Module RecvOperation2.

Record t : Type := {
  mSlot : SlotIter;
  mCH2 : coroutine_handle;
  mRecvBuffer : RecvBuffer;
  mInProgress : bool;
  mSelfIter : nat;
  mToken : bool;
  mFlushes : list nat
}.

End RecvOperation2.

(** Modelled from the spec: [coproto/Proto/SessionID.h] is not among the
    sources.  A [SessionID] is "a 128-bit opaque identifier"; [mVal] is its
    16 bytes. *)
Record SessionID : Type := { mVal : bytes }.

(** A default-constructed [SessionID]. *)
Definition SessionID_default : SessionID := {| mVal := replicate 16 0 |}.

Definition well_formed_SessionID (id : SessionID) : Prop :=
  length (mVal id) = 16%nat.

Record Slot : Type := {
  mSessionID : SessionID;
  mLocalId : Z;
  mRemoteId : Z;
  mInitiated : bool;
  slot_mClosed : bool;
  mRecvOps2_ : list RecvOperation2.t;
  mSendOps2_ : list SendOperation2.t
}.

Definition set_mInitiated (v : bool) (sl : Slot) : Slot :=
  {| mSessionID := mSessionID sl; mLocalId := mLocalId sl;
     mRemoteId := mRemoteId sl; mInitiated := v;
     slot_mClosed := slot_mClosed sl; mRecvOps2_ := mRecvOps2_ sl;
     mSendOps2_ := mSendOps2_ sl |}.

Definition set_mRecvOps2_ (v : list RecvOperation2.t) (sl : Slot) : Slot :=
  {| mSessionID := mSessionID sl; mLocalId := mLocalId sl;
     mRemoteId := mRemoteId sl; mInitiated := mInitiated sl;
     slot_mClosed := slot_mClosed sl; mRecvOps2_ := v;
     mSendOps2_ := mSendOps2_ sl |}.

Definition set_mSendOps2_ (v : list SendOperation2.t) (sl : Slot) : Slot :=
  {| mSessionID := mSessionID sl; mLocalId := mLocalId sl;
     mRemoteId := mRemoteId sl; mInitiated := mInitiated sl;
     slot_mClosed := slot_mClosed sl; mRecvOps2_ := mRecvOps2_ sl;
     mSendOps2_ := v |}.

Inductive Status : Type := Idle | InUse | RequestedRecvOp | Closed.

Definition Status_eqb (a b : Status) : bool :=
  match a, b with
  | Idle, Idle | InUse, InUse | RequestedRecvOp, RequestedRecvOp
  | Closed, Closed => true
  | _, _ => false
  end.

(** *** [Header] and [ControlBlock] *)

(** [Header = std::array<u32, 2>]: the words [size] and [slot-id]. *)
Definition Header : Type := (Z * Z)%type.

Module ControlBlock.

Record t : Type := { data : bytes }.

Inductive Type_ : Type := NewSlot.

(** [memcpy(dst, src, n)] on byte sequences. *)
Definition memcpy (dst src : bytes) (n : nat) : bytes :=
  take n src ++ drop n dst.

(** [Type getType() { return Type::NewSlot; }] *)
Definition getType (cb : t) : Type_ := NewSlot.

(** [SessionID getSessionID()] *)
Definition getSessionID (cb : t) : SessionID :=
  {| mVal := memcpy (mVal SessionID_default) (data cb) 16 |}.

(** [void setType(Type t) {}] *)
Definition setType (ty : Type_) (cb : t) : t := cb.

(** [void setSessionID(const SessionID& id)] *)
Definition setSessionID (id : SessionID) (cb : t) : t :=
  {| data := memcpy (data cb) (mVal id) 16 |}.

End ControlBlock.

Record SendControlBlock : Type := {
  scb_mHeader : Header;
  scb_mCtrlBlk : ControlBlock.t
}.

(** *** The scheduler *)

(** The fields of [SockScheduler] read or written by the code modelled
    below, and the [FlushToken] objects its operations share.  The maps
    from session and remote ids to slots, the socket storage and the task
    handles are used only by code that is outside the header. *)
Record SockScheduler : Type := {
  mSlots_ : list Slot;
  mSendBuffers_ : list SlotIter;
  mNumRecvs : Z;
  mClosed : bool;
  mRecvStatus : Status;
  mSendStatus : Status;
  mSendHeader : Header;
  mRecvHeader : Header;
  mRecvControlBlock : ControlBlock.t;
  mSendControlBlock2 : SendControlBlock;
  mHaveRecvHeader : bool;
  mBytesSent : Z;
  mBytesReceived : Z;
  (** [mRecvCancelSrc.stop_possible()], [mSendCancelSrc.stop_possible()] *)
  mRecvCancelSrc : bool;
  mSendCancelSrc : bool;
  flushTokens : list FlushToken
}.

Definition set_mSlots_ (v : list Slot) (s : SockScheduler) : SockScheduler :=
  {| mSlots_ := v; mSendBuffers_ := mSendBuffers_ s; mNumRecvs := mNumRecvs s;
     mClosed := mClosed s; mRecvStatus := mRecvStatus s;
     mSendStatus := mSendStatus s; mSendHeader := mSendHeader s;
     mRecvHeader := mRecvHeader s; mRecvControlBlock := mRecvControlBlock s;
     mSendControlBlock2 := mSendControlBlock2 s;
     mHaveRecvHeader := mHaveRecvHeader s; mBytesSent := mBytesSent s;
     mBytesReceived := mBytesReceived s; mRecvCancelSrc := mRecvCancelSrc s;
     mSendCancelSrc := mSendCancelSrc s; flushTokens := flushTokens s |}.

Definition set_mSendBuffers_ (v : list SlotIter) (s : SockScheduler)
    : SockScheduler :=
  {| mSlots_ := mSlots_ s; mSendBuffers_ := v; mNumRecvs := mNumRecvs s;
     mClosed := mClosed s; mRecvStatus := mRecvStatus s;
     mSendStatus := mSendStatus s; mSendHeader := mSendHeader s;
     mRecvHeader := mRecvHeader s; mRecvControlBlock := mRecvControlBlock s;
     mSendControlBlock2 := mSendControlBlock2 s;
     mHaveRecvHeader := mHaveRecvHeader s; mBytesSent := mBytesSent s;
     mBytesReceived := mBytesReceived s; mRecvCancelSrc := mRecvCancelSrc s;
     mSendCancelSrc := mSendCancelSrc s; flushTokens := flushTokens s |}.

Definition set_mNumRecvs (v : Z) (s : SockScheduler) : SockScheduler :=
  {| mSlots_ := mSlots_ s; mSendBuffers_ := mSendBuffers_ s; mNumRecvs := v;
     mClosed := mClosed s; mRecvStatus := mRecvStatus s;
     mSendStatus := mSendStatus s; mSendHeader := mSendHeader s;
     mRecvHeader := mRecvHeader s; mRecvControlBlock := mRecvControlBlock s;
     mSendControlBlock2 := mSendControlBlock2 s;
     mHaveRecvHeader := mHaveRecvHeader s; mBytesSent := mBytesSent s;
     mBytesReceived := mBytesReceived s; mRecvCancelSrc := mRecvCancelSrc s;
     mSendCancelSrc := mSendCancelSrc s; flushTokens := flushTokens s |}.

Definition set_mRecvStatus (v : Status) (s : SockScheduler) : SockScheduler :=
  {| mSlots_ := mSlots_ s; mSendBuffers_ := mSendBuffers_ s;
     mNumRecvs := mNumRecvs s; mClosed := mClosed s; mRecvStatus := v;
     mSendStatus := mSendStatus s; mSendHeader := mSendHeader s;
     mRecvHeader := mRecvHeader s; mRecvControlBlock := mRecvControlBlock s;
     mSendControlBlock2 := mSendControlBlock2 s;
     mHaveRecvHeader := mHaveRecvHeader s; mBytesSent := mBytesSent s;
     mBytesReceived := mBytesReceived s; mRecvCancelSrc := mRecvCancelSrc s;
     mSendCancelSrc := mSendCancelSrc s; flushTokens := flushTokens s |}.

Definition set_mSendStatus (v : Status) (s : SockScheduler) : SockScheduler :=
  {| mSlots_ := mSlots_ s; mSendBuffers_ := mSendBuffers_ s;
     mNumRecvs := mNumRecvs s; mClosed := mClosed s;
     mRecvStatus := mRecvStatus s; mSendStatus := v;
     mSendHeader := mSendHeader s; mRecvHeader := mRecvHeader s;
     mRecvControlBlock := mRecvControlBlock s;
     mSendControlBlock2 := mSendControlBlock2 s;
     mHaveRecvHeader := mHaveRecvHeader s; mBytesSent := mBytesSent s;
     mBytesReceived := mBytesReceived s; mRecvCancelSrc := mRecvCancelSrc s;
     mSendCancelSrc := mSendCancelSrc s; flushTokens := flushTokens s |}.

Definition set_mSendHeader (v : Header) (s : SockScheduler) : SockScheduler :=
  {| mSlots_ := mSlots_ s; mSendBuffers_ := mSendBuffers_ s;
     mNumRecvs := mNumRecvs s; mClosed := mClosed s;
     mRecvStatus := mRecvStatus s; mSendStatus := mSendStatus s;
     mSendHeader := v; mRecvHeader := mRecvHeader s;
     mRecvControlBlock := mRecvControlBlock s;
     mSendControlBlock2 := mSendControlBlock2 s;
     mHaveRecvHeader := mHaveRecvHeader s; mBytesSent := mBytesSent s;
     mBytesReceived := mBytesReceived s; mRecvCancelSrc := mRecvCancelSrc s;
     mSendCancelSrc := mSendCancelSrc s; flushTokens := flushTokens s |}.

Definition set_mRecvHeader (v : Header) (s : SockScheduler) : SockScheduler :=
  {| mSlots_ := mSlots_ s; mSendBuffers_ := mSendBuffers_ s;
     mNumRecvs := mNumRecvs s; mClosed := mClosed s;
     mRecvStatus := mRecvStatus s; mSendStatus := mSendStatus s;
     mSendHeader := mSendHeader s; mRecvHeader := v;
     mRecvControlBlock := mRecvControlBlock s;
     mSendControlBlock2 := mSendControlBlock2 s;
     mHaveRecvHeader := mHaveRecvHeader s; mBytesSent := mBytesSent s;
     mBytesReceived := mBytesReceived s; mRecvCancelSrc := mRecvCancelSrc s;
     mSendCancelSrc := mSendCancelSrc s; flushTokens := flushTokens s |}.

Definition set_mRecvControlBlock (v : ControlBlock.t) (s : SockScheduler)
    : SockScheduler :=
  {| mSlots_ := mSlots_ s; mSendBuffers_ := mSendBuffers_ s;
     mNumRecvs := mNumRecvs s; mClosed := mClosed s;
     mRecvStatus := mRecvStatus s; mSendStatus := mSendStatus s;
     mSendHeader := mSendHeader s; mRecvHeader := mRecvHeader s;
     mRecvControlBlock := v;
     mSendControlBlock2 := mSendControlBlock2 s;
     mHaveRecvHeader := mHaveRecvHeader s; mBytesSent := mBytesSent s;
     mBytesReceived := mBytesReceived s; mRecvCancelSrc := mRecvCancelSrc s;
     mSendCancelSrc := mSendCancelSrc s; flushTokens := flushTokens s |}.

Definition set_mSendControlBlock2 (v : SendControlBlock) (s : SockScheduler)
    : SockScheduler :=
  {| mSlots_ := mSlots_ s; mSendBuffers_ := mSendBuffers_ s;
     mNumRecvs := mNumRecvs s; mClosed := mClosed s;
     mRecvStatus := mRecvStatus s; mSendStatus := mSendStatus s;
     mSendHeader := mSendHeader s; mRecvHeader := mRecvHeader s;
     mRecvControlBlock := mRecvControlBlock s;
     mSendControlBlock2 := v;
     mHaveRecvHeader := mHaveRecvHeader s; mBytesSent := mBytesSent s;
     mBytesReceived := mBytesReceived s; mRecvCancelSrc := mRecvCancelSrc s;
     mSendCancelSrc := mSendCancelSrc s; flushTokens := flushTokens s |}.

Definition set_mHaveRecvHeader (v : bool) (s : SockScheduler) : SockScheduler :=
  {| mSlots_ := mSlots_ s; mSendBuffers_ := mSendBuffers_ s;
     mNumRecvs := mNumRecvs s; mClosed := mClosed s;
     mRecvStatus := mRecvStatus s; mSendStatus := mSendStatus s;
     mSendHeader := mSendHeader s; mRecvHeader := mRecvHeader s;
     mRecvControlBlock := mRecvControlBlock s;
     mSendControlBlock2 := mSendControlBlock2 s;
     mHaveRecvHeader := v; mBytesSent := mBytesSent s;
     mBytesReceived := mBytesReceived s; mRecvCancelSrc := mRecvCancelSrc s;
     mSendCancelSrc := mSendCancelSrc s; flushTokens := flushTokens s |}.

Definition set_mBytesSent (v : Z) (s : SockScheduler) : SockScheduler :=
  {| mSlots_ := mSlots_ s; mSendBuffers_ := mSendBuffers_ s;
     mNumRecvs := mNumRecvs s; mClosed := mClosed s;
     mRecvStatus := mRecvStatus s; mSendStatus := mSendStatus s;
     mSendHeader := mSendHeader s; mRecvHeader := mRecvHeader s;
     mRecvControlBlock := mRecvControlBlock s;
     mSendControlBlock2 := mSendControlBlock2 s;
     mHaveRecvHeader := mHaveRecvHeader s; mBytesSent := v;
     mBytesReceived := mBytesReceived s; mRecvCancelSrc := mRecvCancelSrc s;
     mSendCancelSrc := mSendCancelSrc s; flushTokens := flushTokens s |}.

Definition set_mBytesReceived (v : Z) (s : SockScheduler) : SockScheduler :=
  {| mSlots_ := mSlots_ s; mSendBuffers_ := mSendBuffers_ s;
     mNumRecvs := mNumRecvs s; mClosed := mClosed s;
     mRecvStatus := mRecvStatus s; mSendStatus := mSendStatus s;
     mSendHeader := mSendHeader s; mRecvHeader := mRecvHeader s;
     mRecvControlBlock := mRecvControlBlock s;
     mSendControlBlock2 := mSendControlBlock2 s;
     mHaveRecvHeader := mHaveRecvHeader s; mBytesSent := mBytesSent s;
     mBytesReceived := v; mRecvCancelSrc := mRecvCancelSrc s;
     mSendCancelSrc := mSendCancelSrc s; flushTokens := flushTokens s |}.

Definition set_mRecvCancelSrc (v : bool) (s : SockScheduler) : SockScheduler :=
  {| mSlots_ := mSlots_ s; mSendBuffers_ := mSendBuffers_ s;
     mNumRecvs := mNumRecvs s; mClosed := mClosed s;
     mRecvStatus := mRecvStatus s; mSendStatus := mSendStatus s;
     mSendHeader := mSendHeader s; mRecvHeader := mRecvHeader s;
     mRecvControlBlock := mRecvControlBlock s;
     mSendControlBlock2 := mSendControlBlock2 s;
     mHaveRecvHeader := mHaveRecvHeader s; mBytesSent := mBytesSent s;
     mBytesReceived := mBytesReceived s; mRecvCancelSrc := v;
     mSendCancelSrc := mSendCancelSrc s; flushTokens := flushTokens s |}.

Definition set_mSendCancelSrc (v : bool) (s : SockScheduler) : SockScheduler :=
  {| mSlots_ := mSlots_ s; mSendBuffers_ := mSendBuffers_ s;
     mNumRecvs := mNumRecvs s; mClosed := mClosed s;
     mRecvStatus := mRecvStatus s; mSendStatus := mSendStatus s;
     mSendHeader := mSendHeader s; mRecvHeader := mRecvHeader s;
     mRecvControlBlock := mRecvControlBlock s;
     mSendControlBlock2 := mSendControlBlock2 s;
     mHaveRecvHeader := mHaveRecvHeader s; mBytesSent := mBytesSent s;
     mBytesReceived := mBytesReceived s; mRecvCancelSrc := mRecvCancelSrc s;
     mSendCancelSrc := v; flushTokens := flushTokens s |}.

Definition set_flushTokens (v : list FlushToken) (s : SockScheduler)
    : SockScheduler :=
  {| mSlots_ := mSlots_ s; mSendBuffers_ := mSendBuffers_ s;
     mNumRecvs := mNumRecvs s; mClosed := mClosed s;
     mRecvStatus := mRecvStatus s; mSendStatus := mSendStatus s;
     mSendHeader := mSendHeader s; mRecvHeader := mRecvHeader s;
     mRecvControlBlock := mRecvControlBlock s;
     mSendControlBlock2 := mSendControlBlock2 s;
     mHaveRecvHeader := mHaveRecvHeader s; mBytesSent := mBytesSent s;
     mBytesReceived := mBytesReceived s; mRecvCancelSrc := mRecvCancelSrc s;
     mSendCancelSrc := mSendCancelSrc s; flushTokens := v |}.

(** Applies [f] to the slot an iterator points to. *)
Definition update_slot (i : SlotIter) (f : Slot -> Slot) (s : SockScheduler)
    : SockScheduler :=
  set_mSlots_ (alter f i (mSlots_ s)) s.

(** *** The destructor *)

(** The outcome of destroying a scheduler: the object is gone, or
    [std::terminate()] was called after [output] was written to
    [std::cout]. *)
Inductive dtor_result : Type :=
| Destroyed
| Terminated (output : string).

Definition endl : string := String (Ascii.ascii_of_nat 10) EmptyString.

(** The text written by the destructor.  [MACORO_LOCATION] is a macro of
    [macoro/config.h], which is not among the sources; it is a parameter. *)
Definition dtor_output (MACORO_LOCATION : string) : string :=
  ("Socket was destroyed with pending operations. "
   ++ "terminate() is being called. Await Socket::flush() "
   ++ "before the destructor is called. This will ensure that"
   ++ "all pending operations complete. " ++ MACORO_LOCATION ++ endl)%string.

(** [SockScheduler::~SockScheduler()] *)
Definition dtor (MACORO_LOCATION : string) (s : SockScheduler) : dtor_result :=
  if Status_eqb (mRecvStatus s) InUse || Status_eqb (mSendStatus s) InUse
  then Terminated (dtor_output MACORO_LOCATION)
  else Destroyed.

(** [needle] occurs in [hay]. *)
Fixpoint contains (needle hay : string) : bool :=
  if String.prefix needle hay then true
  else match hay with
       | EmptyString => false
       | String _ hay' => contains needle hay'
       end.

(** *** Cancellation of a queued operation *)

(** The loop of [getCB] over [mFlushes]: a token held by this operation
    alone gives up its handle to the callback list. *)
Fixpoint getCB_flushes (fs : list nat) (cbs : CBList.t)
    (tokens : list FlushToken) : CBList.t * list FlushToken :=
  match fs with
  | [] => (cbs, tokens)
  | f :: fs' =>
      match tokens !! f with
      | Some tok =>
          if Nat.eqb (use_count tok) 1
          then getCB_flushes fs'
                 (CBList.push_back (mHandle tok) cbs)
                 (<[f := {| mHandle := null_handle;
                            use_count := use_count tok |}]> tokens)
          else getCB_flushes fs' cbs tokens
      | None => getCB_flushes fs' cbs tokens
      end
  end.

(** [getCB(cbs, lock)]: the operation's own handle first, then the
    handles of the flush tokens. *)
Definition getCB (mCH2 : coroutine_handle) (fs : list nat) (cbs : CBList.t)
    (tokens : list FlushToken) : CBList.t * list FlushToken :=
  getCB_flushes fs (CBList.push_back mCH2 cbs) tokens.

(** Destroying an operation drops its references to the flush tokens. *)
Fixpoint release_flushes (fs : list nat) (tokens : list FlushToken)
    : list FlushToken :=
  match fs with
  | [] => tokens
  | f :: fs' =>
      release_flushes fs'
        (alter (fun tok => {| mHandle := mHandle tok;
                              use_count := Nat.pred (use_count tok) |})
               f tokens)
  end.

(** The node of an operation list an iterator points to, and the list
    after [erase] of that node. *)
Fixpoint find_iter {A : Type} (self_of : A -> nat) (self : nat) (l : list A)
    : option A :=
  match l with
  | [] => None
  | op :: l' =>
      if Nat.eqb (self_of op) self then Some op
      else find_iter self_of self l'
  end.

Fixpoint erase_iter {A : Type} (self_of : A -> nat) (self : nat) (l : list A)
    : list A :=
  match l with
  | [] => []
  | op :: l' =>
      if Nat.eqb (self_of op) self then l'
      else op :: erase_iter self_of self l'
  end.

(** [iter = std::find(queue.begin(), queue.end(), mSlot); queue.erase(iter)];
    [None] when the slot is not in the queue. *)
Fixpoint erase_first (slot : SlotIter) (queue : list SlotIter)
    : option (list SlotIter) :=
  match queue with
  | [] => None
  | i :: queue' =>
      if Nat.eqb i slot then Some queue'
      else match erase_first slot queue' with
           | Some q => Some (i :: q)
           | None => None
           end
  end.

(** The end of both stop callbacks, after the lock is released:
    [if (cb) cb.get().resume(); else if (cancelSrc.stop_possible())
    cancelSrc.request_stop();] *)
Definition after_unlock (sending : bool) (cb : CBList.t) (cancelSrc : bool)
    : list effect :=
  if CBList.nonempty cb then CBList.resume_all cb
  else if cancelSrc then [RequestStop sending]
  else [].

(** The stop callback registered by the constructor of [SendOperation2],
    run for the operation at node [self] of the send queue of [slot].
    [None] stands for a failed [COPROTO_ASSERT], and for a callback that
    does not exist: the operation is not there, or its token cannot
    be stopped and no callback was registered. *)
Definition SendOperation2_on_stop (slot : SlotIter) (self : nat)
    (s : SockScheduler) : option (SockScheduler * list effect) :=
  sl ← mSlots_ s !! slot;
  op ← find_iter SendOperation2.mSelfIter self (mSendOps2_ sl);
  if negb (SendOperation2.mToken op) then None
  else if negb (SendOperation2.mInProgress op) then
    if negb (handle_set (SendOperation2.mCH2 op)) then None
    else
      let '(cb, tokens) :=
        getCB (SendOperation2.mCH2 op) (SendOperation2.mFlushes op)
              CBList.empty (flushTokens s) in
      queue ← erase_first slot (mSendBuffers_ s);
      let s1 := set_mSendBuffers_ queue s in
      let s2 :=
        update_slot slot
          (fun sl => set_mSendOps2_
                       (erase_iter SendOperation2.mSelfIter self
                                   (mSendOps2_ sl)) sl) s1 in
      let s3 :=
        set_flushTokens
          (release_flushes (SendOperation2.mFlushes op) tokens) s2 in
      let s4 :=
        if (length queue =? 0)%nat then set_mSendStatus Idle s3 else s3 in
      Some (s4, SetError true slot self operation_aborted
                :: after_unlock true cb false)
  else if mSendCancelSrc s then
    Some (set_mSendCancelSrc false s, after_unlock true CBList.empty true)
  else Some (s, after_unlock true CBList.empty false).

(** The stop callback registered by the constructor of [RecvOperation2]. *)
Definition RecvOperation2_on_stop (slot : SlotIter) (self : nat)
    (s : SockScheduler) : option (SockScheduler * list effect) :=
  sl ← mSlots_ s !! slot;
  op ← find_iter RecvOperation2.mSelfIter self (mRecvOps2_ sl);
  if negb (RecvOperation2.mInProgress op) then
    if negb (handle_set (RecvOperation2.mCH2 op)) then None
    else
      let '(cb, tokens) :=
        getCB (RecvOperation2.mCH2 op) (RecvOperation2.mFlushes op)
              CBList.empty (flushTokens s) in
      let s1 :=
        update_slot slot
          (fun sl => set_mRecvOps2_
                       (erase_iter RecvOperation2.mSelfIter self
                                   (mRecvOps2_ sl)) sl) s in
      let s2 :=
        set_flushTokens
          (release_flushes (RecvOperation2.mFlushes op) tokens) s1 in
      if mNumRecvs s =? 0 then None
      else
        let s3 := set_mNumRecvs (wrap (mNumRecvs s - 1)) s2 in
        let s4 :=
          if mNumRecvs s3 =? 0 then set_mRecvStatus Idle s3 else s3 in
        Some (s4, SetError false slot self operation_aborted
                  :: after_unlock false cb false)
  else if mRecvCancelSrc s then
    Some (set_mRecvCancelSrc false s, after_unlock false CBList.empty true)
  else Some (s, after_unlock false CBList.empty false).

(** *** Frames *)

(** [n] bytes of [z], least significant first, and back. *)
Fixpoint le_bytes (n : nat) (z : Z) : bytes :=
  match n with
  | O => []
  | S n' => z mod 256 :: le_bytes n' (z / 256)
  end.

Fixpoint le_value (bs : bytes) : Z :=
  match bs with
  | [] => 0
  | b :: bs' => b + 256 * le_value bs'
  end.

(** [static_cast<u32>] *)
Definition u32 (z : Z) : Z := z mod 2 ^ 32.

(** [~u32(0)] *)
Definition u32_max : Z := 2 ^ 32 - 1.

(** Modelled from the spec: the accessors [getSendHeader],
    [getSendHeaderSize], [getSendHeaderSlot], [getRecvHeader],
    [getRecvHeaderSize] and [getSendCtrlBlk2] are declared in the header
    and defined outside it.  By the spec's wire format a header is
    [size:u32(little-endian) | slot_id:u32], "always exactly 8 bytes", and
    a meta frame is the header followed by the 16 bytes of the control
    block. *)
Definition Header_bytes (h : Header) : bytes :=
  le_bytes 4 h.1 ++ le_bytes 4 h.2.

Definition Header_of_bytes (bs : bytes) : Header :=
  (le_value (take 4 bs), le_value (take 4 (drop 4 bs))).

Definition getSendHeader (s : SockScheduler) : bytes :=
  Header_bytes (mSendHeader s).

Definition getRecvHeader (s : SockScheduler) : bytes :=
  Header_bytes (mRecvHeader s).

Definition getRecvHeaderSize (s : SockScheduler) : Z := (mRecvHeader s).1.

Definition getSendCtrlBlk2 (s : SockScheduler) : bytes :=
  Header_bytes (scb_mHeader (mSendControlBlock2 s))
  ++ ControlBlock.data (scb_mCtrlBlk (mSendControlBlock2 s)).

(** The bytes of an object after [received] was read into its start. *)
Definition overwrite (received old : bytes) : bytes :=
  received ++ drop (length received) old.

(** The NewSlot meta frame and the header of a data frame of a slot. *)
Definition meta_frame (sl : Slot) : bytes :=
  Header_bytes (0, mLocalId sl) ++ take 16 (mVal (mSessionID sl)).

Definition data_header (sl : Slot) (data : bytes) : bytes :=
  Header_bytes (u32 (Z.of_nat (length data)), mLocalId sl).

(** *** The writer task: [makeSendTask]

    The task is a coroutine.  It is modelled by the state it keeps across
    its suspension points and by one function, [send_resume], that runs it
    from one [MC_AWAIT] to the next: given the value the awaited operation
    produced, it returns the next operation awaited. *)

(** The suspension points: on [NextSendOp], and on [sock->send] of the
    restore buffer, of a meta frame, of a header and of a payload. *)
Inductive send_pc : Type :=
| AtNextSendOp
| AtRestoreSend
| AtMetaSend
| AtHeaderSend
| AtBodySend.

(** The coroutine's variables.  [op] is the front of the send queue of
    [slot]; [data] and [buffer] are spans, kept as the bytes they span. *)
Record SendTask : Type := {
  send_at : send_pc;
  send_ec : error_code;
  send_bt : Z;
  send_restoreBuffer : bytes;
  send_slot : SlotIter;
  send_data : bytes;
  send_buffer : bytes
}.

Inductive send_request : Type :=
| AwaitNextSendOp (ec : error_code)
| AwaitSockSend (buffer : bytes).

Inductive send_response : Type :=
| ResumeNextSendOp (iter : option SlotIter)
| ResumeSockSend (ec : error_code) (bt : Z).

(** The task as [MC_BEGIN] leaves it, suspended on [NextSendOp(this, ec)]. *)
Definition SendTask_init : SendTask :=
  {| send_at := AtNextSendOp; send_ec := success; send_bt := 0;
     send_restoreBuffer := []; send_slot := 0%nat; send_data := [];
     send_buffer := [] |}.

Definition send_init_request : send_request := AwaitNextSendOp success.

(** [continue]: back to [MC_AWAIT_SET(iter, NextSendOp(this, ec))]. *)
Definition send_continue (ec : error_code) (bt : Z) (restoreBuffer : bytes)
    (t : SendTask) (s : SockScheduler)
    : option (SendTask * SockScheduler * send_request) :=
  Some ({| send_at := AtNextSendOp; send_ec := ec; send_bt := bt;
           send_restoreBuffer := restoreBuffer; send_slot := send_slot t;
           send_data := send_data t; send_buffer := send_buffer t |},
        s, AwaitNextSendOp ec).

(** From [getSendHeaderSlot() = slot->mLocalId] to the [sock->send] of the
    header. *)
Definition send_header_step (ec : error_code) (bt : Z) (restoreBuffer : bytes)
    (t : SendTask) (s : SockScheduler)
    : option (SendTask * SockScheduler * send_request) :=
  sl ← mSlots_ s !! send_slot t;
  let s1 :=
    set_mSendHeader (u32 (Z.of_nat (length (send_data t))), mLocalId sl) s in
  let buffer := getSendHeader s1 in
  Some ({| send_at := AtHeaderSend; send_ec := ec; send_bt := bt;
           send_restoreBuffer := restoreBuffer; send_slot := send_slot t;
           send_data := send_data t; send_buffer := buffer |},
        s1, AwaitSockSend buffer).

(** From [if (slot->mInitiated == false)] to the next [sock->send]. *)
Definition send_meta_step (ec : error_code) (bt : Z) (restoreBuffer : bytes)
    (t : SendTask) (s : SockScheduler)
    : option (SendTask * SockScheduler * send_request) :=
  sl ← mSlots_ s !! send_slot t;
  if negb (mInitiated sl) then
    let s1 := update_slot (send_slot t) (set_mInitiated true) s in
    let s2 :=
      set_mSendControlBlock2
        {| scb_mHeader := (0, mLocalId sl);
           scb_mCtrlBlk :=
             ControlBlock.setSessionID (mSessionID sl)
               (ControlBlock.setType ControlBlock.NewSlot
                  (scb_mCtrlBlk (mSendControlBlock2 s1))) |} s1 in
    let buffer := getSendCtrlBlk2 s2 in
    Some ({| send_at := AtMetaSend; send_ec := ec; send_bt := bt;
             send_restoreBuffer := restoreBuffer; send_slot := send_slot t;
             send_data := send_data t; send_buffer := buffer |},
          s2, AwaitSockSend buffer)
  else send_header_step ec bt restoreBuffer t s.

(** [mBytesSent += bt] *)
Definition add_mBytesSent (bt : Z) (s : SockScheduler) : SockScheduler :=
  set_mBytesSent (wrap (mBytesSent s + bt)) s.

(** [buffer.subspan(bt)] *)
Definition subspan (buffer : bytes) (bt : Z) : bytes :=
  drop (Z.to_nat bt) buffer.

(** Resuming [makeSendTask] with the result of the operation it awaits.
    [None] stands for a failed assertion or a dereference of nothing, and
    for a result that does not answer the operation awaited. *)
Definition send_resume (t : SendTask) (s : SockScheduler) (r : send_response)
    : option (SendTask * SockScheduler * send_request) :=
  match send_at t, r with
  | AtNextSendOp, ResumeNextSendOp (Some iter) =>
      sl ← mSlots_ s !! iter;
      op ← head (mSendOps2_ sl);
      let data := sb_data (SendOperation2.mSendBuff op) in
      if (Z.of_nat (length data) =? 0)
         || negb (Z.of_nat (length data) <? u32_max)
         || (mLocalId sl =? u32_max)
      then None
      else
        let t1 :=
          {| send_at := AtNextSendOp; send_ec := send_ec t;
             send_bt := send_bt t;
             send_restoreBuffer := send_restoreBuffer t; send_slot := iter;
             send_data := data; send_buffer := send_buffer t |} in
        if negb (Z.of_nat (length (send_restoreBuffer t)) =? 0) then
          Some ({| send_at := AtRestoreSend; send_ec := send_ec t;
                   send_bt := send_bt t;
                   send_restoreBuffer := send_restoreBuffer t;
                   send_slot := iter; send_data := data;
                   send_buffer := send_restoreBuffer t |},
                s, AwaitSockSend (send_restoreBuffer t))
        else send_meta_step (send_ec t) (send_bt t) (send_restoreBuffer t) t1 s
  | AtRestoreSend, ResumeSockSend ec bt =>
      let s1 := add_mBytesSent bt s in
      let restoreBuffer :=
        if is_aborted ec then subspan (send_buffer t) bt
        else send_restoreBuffer t in
      if is_error ec then send_continue ec bt restoreBuffer t s1
      else send_meta_step ec bt [] t s1
  | AtMetaSend, ResumeSockSend ec bt =>
      let s1 := add_mBytesSent bt s in
      let restoreBuffer :=
        if is_aborted ec && negb (bt =? 0)
        then send_restoreBuffer t ++ subspan (send_buffer t) bt
        else send_restoreBuffer t in
      if is_error ec then send_continue ec bt restoreBuffer t s1
      else send_header_step ec bt restoreBuffer t s1
  | AtHeaderSend, ResumeSockSend ec bt =>
      let s1 := add_mBytesSent bt s in
      let restoreBuffer :=
        if is_aborted ec && negb (bt =? 0)
        then send_restoreBuffer t ++ subspan (send_buffer t) bt ++ send_data t
        else send_restoreBuffer t in
      if is_error ec then send_continue ec bt restoreBuffer t s1
      else
        Some ({| send_at := AtBodySend; send_ec := ec; send_bt := bt;
                 send_restoreBuffer := restoreBuffer;
                 send_slot := send_slot t; send_data := send_data t;
                 send_buffer := send_buffer t |},
              s1, AwaitSockSend (send_data t))
  | AtBodySend, ResumeSockSend ec bt =>
      let s1 := add_mBytesSent bt s in
      let restoreBuffer :=
        if is_aborted ec && negb (bt =? 0)
        then send_restoreBuffer t ++ subspan (send_data t) bt
        else send_restoreBuffer t in
      send_continue ec bt restoreBuffer t s1
  | _, _ => None
  end.

(** **** Runs of the writer

    Modelled from the spec: [NextSendOp] is declared in the header and
    defined outside it.  By section 4.3 of the spec, when the operation at
    the head has been written it is popped and its completion resumed, and
    by 4.6 an operation cancelled in progress is failed with the abort
    error; the writer is then handed the slot of the next pending send.
    In a run, a turn says which slot's head operation [NextSendOp] settles
    and pops before it answers, if any, and what the awaited operation
    returns. *)
Definition pop_send_op (slot : SlotIter) (s : SockScheduler) : SockScheduler :=
  set_mSendBuffers_
    (default (mSendBuffers_ s) (erase_first slot (mSendBuffers_ s)))
    (update_slot slot (fun sl => set_mSendOps2_ (tail (mSendOps2_ sl)) sl) s).

Record send_turn : Type := {
  turn_pops : option SlotIter;
  turn_response : send_response
}.

(** One call of [sock->send]: at which suspension point, for which slot,
    with which buffer, and how many of its bytes were written. *)
Record sock_send : Type := {
  sent_at : send_pc;
  sent_slot : SlotIter;
  sent_buffer : bytes;
  sent_ec : error_code;
  sent_bt : Z
}.

(** The state of a run: the task, the scheduler, the operation the task
    awaits, and the calls of [sock->send] made so far, first call first. *)
Record send_state : Type := {
  run_task : SendTask;
  run_sched : SockScheduler;
  run_request : send_request;
  run_sent : list sock_send
}.

Definition send_start (s : SockScheduler) : send_state :=
  {| run_task := SendTask_init; run_sched := s;
     run_request := send_init_request; run_sent := [] |}.

Definition send_turn_step (turn : send_turn) (st : send_state)
    : option send_state :=
  let s0 :=
    match turn_pops turn with
    | Some slot => pop_send_op slot (run_sched st)
    | None => run_sched st
    end in
  '(t', s', request') ← send_resume (run_task st) s0 (turn_response turn);
  let sent :=
    match run_request st, turn_response turn with
    | AwaitSockSend buffer, ResumeSockSend ec bt =>
        [{| sent_at := send_at (run_task st);
            sent_slot := send_slot (run_task st);
            sent_buffer := buffer; sent_ec := ec; sent_bt := bt |}]
    | _, _ => []
    end in
  Some {| run_task := t'; run_sched := s'; run_request := request';
          run_sent := run_sent st ++ sent |}.

Fixpoint send_run (turns : list send_turn) (st : send_state)
    : option send_state :=
  match turns with
  | [] => Some st
  | turn :: turns' =>
      match send_turn_step turn st with
      | Some st' => send_run turns' st'
      | None => None
      end
  end.

(** The bytes the calls have put on the stream. *)
Definition wire (sent : list sock_send) : bytes :=
  concat ((fun c => take (Z.to_nat (sent_bt c)) (sent_buffer c)) <$> sent).

(** The number of transmissions of a NewSlot meta frame begun for [slot]. *)
Definition is_meta_send (slot : SlotIter) (c : sock_send) : bool :=
  match sent_at c with
  | AtMetaSend => Nat.eqb (sent_slot c) slot
  | _ => false
  end.

Definition meta_sends (slot : SlotIter) (sent : list sock_send) : nat :=
  length (List.filter (is_meta_send slot) sent).

(** The slot is marked as announced to the peer. *)
Definition initiated (slot : SlotIter) (s : SockScheduler) : bool :=
  match mSlots_ s !! slot with
  | Some sl => mInitiated sl
  | None => false
  end.

(** The turns in which one operation of [size] bytes on [slot] is
    written in full: the meta frame when the slot is announced by this
    operation, the header, the payload. *)
Definition written_in_full (slot : SlotIter) (size : Z) (announces : bool)
    : list send_turn :=
  [ {| turn_pops := None; turn_response := ResumeNextSendOp (Some slot) |} ]
  ++ (if announces
      then [ {| turn_pops := None; turn_response := ResumeSockSend success 24 |} ]
      else [])
  ++ [ {| turn_pops := None; turn_response := ResumeSockSend success 8 |};
       {| turn_pops := None; turn_response := ResumeSockSend success size |} ].

(** What one resumption of the writer does to the [mInitiated] flags: it
    clears none; if it begins the transmission of a meta frame, the task
    was not already at one, the slot's flag was clear and is now set; and
    otherwise it leaves every flag as it was. *)
Definition writer_step_spec (t : SendTask) (s : SockScheduler)
    (t' : SendTask) (s' : SockScheduler) : Prop :=
  (forall i, initiated i s = true -> initiated i s' = true) /\
  (send_at t' = AtMetaSend ->
     send_at t <> AtMetaSend /\
     initiated (send_slot t') s = false /\
     initiated (send_slot t') s' = true) /\
  (send_at t' <> AtMetaSend -> forall i, initiated i s' = initiated i s).

(** The transmission of a meta frame for [slot] that the task has begun
    and whose result it still awaits. *)
Definition pending_meta (slot : SlotIter) (t : SendTask) : nat :=
  match send_at t with
  | AtMetaSend => if Nat.eqb (send_slot t) slot then 1%nat else 0%nat
  | _ => 0%nat
  end.

(** The invariant of a run of the writer that started from scheduler
    [s0], for one slot: at most one transmission of a meta frame was
    begun; if one was, the slot's flag is set and was clear in [s0]; and
    a flag set in [s0] is still set. *)
Definition writer_invariant (s0 : SockScheduler) (slot : SlotIter)
    (st : send_state) : Prop :=
  (meta_sends slot (run_sent st) + pending_meta slot (run_task st) <= 1)%nat /\
  ((1 <= meta_sends slot (run_sent st) + pending_meta slot (run_task st))%nat ->
     initiated slot (run_sched st) = true /\ initiated slot s0 = false) /\
  (initiated slot s0 = true -> initiated slot (run_sched st) = true).

(** **** Frames on the stream, as the peer's receiver reads them *)

Inductive frame : Type :=
| MetaFrame (slotId : Z) (control : bytes)
| DataFrame (slotId : Z) (payload : bytes).

(** Splits a byte stream into frames by the header loop of the receiver:
    a header of 8 bytes, then the 16 bytes of a control block when the
    size is zero and [size] bytes of payload otherwise.  [None] when the
    stream ends inside a frame. *)
Fixpoint parse_frames (fuel : nat) (stream : bytes) : option (list frame) :=
  match fuel with
  | O => match stream with [] => Some [] | _ => None end
  | S fuel' =>
      match stream with
      | [] => Some []
      | _ =>
          if (length stream <? 8)%nat then None
          else
            let (size, slotId) := Header_of_bytes (take 8 stream) in
            let body := drop 8 stream in
            if size =? 0 then
              if (length body <? 16)%nat then None
              else
                match parse_frames fuel' (drop 16 body) with
                | Some frames => Some (MetaFrame slotId (take 16 body) :: frames)
                | None => None
                end
            else
              if (length body <? Z.to_nat size)%nat then None
              else
                match parse_frames fuel' (drop (Z.to_nat size) body) with
                | Some frames =>
                    Some (DataFrame slotId (take (Z.to_nat size) body) :: frames)
                | None => None
                end
      end
  end.

Definition frames_of (stream : bytes) : option (list frame) :=
  parse_frames (length stream) stream.

(** *** The receiver task: [receiveDataTask] *)

(** The suspension points: on [anyRecvOp], on [sock->recv] of the restore
    buffer, of a header, of a control block and of a payload, and on
    [getRequestedRecvSlot]. *)
Inductive recv_pc : Type :=
| AtAnyRecvOp
| AtRestoreRecv
| AtHeaderRecv
| AtControlBlockRecv
| AtGetRequestedRecvSlot
| AtBodyRecv.

(** The coroutine's variables.  [buffer] is a span; its size is kept.
    [op] points to a node of the recv queue of [slot]. *)
Record RecvTask : Type := {
  recv_at : recv_pc;
  recv_ec : error_code;
  recv_bt : Z;
  recv_buffer_size : Z;
  recv_slot : SlotIter;
  recv_op : nat;
  recv_restoreReadSize : Z;
  recv_restoreBuffer : bytes
}.

Inductive recv_request : Type :=
| AwaitAnyRecvOp (ec : error_code)
| AwaitSockRecv (size : Z) (stoppable : bool)
| AwaitGetRequestedRecvSlot.

Inductive recv_response : Type :=
| ResumeAnyRecvOp
| ResumeSockRecv (ec : error_code) (received : bytes)
| ResumeRequestedRecvSlot (iter : option SlotIter).

(** The task as [MC_BEGIN] leaves it, suspended on [anyRecvOp(this, ec)]. *)
Definition RecvTask_init : RecvTask :=
  {| recv_at := AtAnyRecvOp; recv_ec := success; recv_bt := 0;
     recv_buffer_size := 0; recv_slot := 0%nat; recv_op := 0%nat;
     recv_restoreReadSize := 0; recv_restoreBuffer := [] |}.

Definition set_recv_at (pc : recv_pc) (ec : error_code) (bt size : Z)
    (t : RecvTask) : RecvTask :=
  {| recv_at := pc; recv_ec := ec; recv_bt := bt; recv_buffer_size := size;
     recv_slot := recv_slot t; recv_op := recv_op t;
     recv_restoreReadSize := recv_restoreReadSize t;
     recv_restoreBuffer := recv_restoreBuffer t |}.

Definition set_recv_restore (size : Z) (restoreBuffer : bytes) (t : RecvTask)
    : RecvTask :=
  {| recv_at := recv_at t; recv_ec := recv_ec t; recv_bt := recv_bt t;
     recv_buffer_size := recv_buffer_size t; recv_slot := recv_slot t;
     recv_op := recv_op t; recv_restoreReadSize := size;
     recv_restoreBuffer := restoreBuffer |}.

Definition set_recv_op (slot : SlotIter) (op : nat) (t : RecvTask) : RecvTask :=
  {| recv_at := recv_at t; recv_ec := recv_ec t; recv_bt := recv_bt t;
     recv_buffer_size := recv_buffer_size t; recv_slot := slot;
     recv_op := op; recv_restoreReadSize := recv_restoreReadSize t;
     recv_restoreBuffer := recv_restoreBuffer t |}.

(** [continue]: back to [MC_AWAIT(anyRecvOp(this, ec))]. *)
Definition recv_continue (ec : error_code) (t : RecvTask) (s : SockScheduler)
    : option (RecvTask * SockScheduler * recv_request) :=
  Some (set_recv_at AtAnyRecvOp ec (recv_bt t) (recv_buffer_size t) t, s,
        AwaitAnyRecvOp ec).

(** After the [while (!mHaveRecvHeader)] loop: [if (ec) continue;] then
    the await of [getRequestedRecvSlot]. *)
Definition recv_after_loop (ec : error_code) (t : RecvTask) (s : SockScheduler)
    : option (RecvTask * SockScheduler * recv_request) :=
  if is_error ec then recv_continue ec t s
  else Some (set_recv_at AtGetRequestedRecvSlot ec (recv_bt t)
               (recv_buffer_size t) t, s, AwaitGetRequestedRecvSlot).

(** The test of the [while (!mHaveRecvHeader)] loop. *)
Definition recv_header_loop (ec : error_code) (t : RecvTask)
    (s : SockScheduler) : option (RecvTask * SockScheduler * recv_request) :=
  if negb (mHaveRecvHeader s) then
    Some (set_recv_at AtHeaderRecv ec (recv_bt t) 8 t, s, AwaitSockRecv 8 false)
  else recv_after_loop ec t s.

(** [mBytesReceived += bt] *)
Definition add_mBytesReceived (bt : Z) (s : SockScheduler) : SockScheduler :=
  set_mBytesReceived (wrap (mBytesReceived s + bt)) s.

(** [vector::resize(n)] *)
Definition resize (n : Z) (v : bytes) : bytes :=
  take (Z.to_nat n) v ++ replicate (Z.to_nat n - length v) 0.

(** Modelled from the spec: [RecvBuffer::asSpan] is defined outside the
    header.  The span covers the caller's destination buffer; its size is
    the "declared buffer size" the spec compares with the header's size. *)
Definition asSpan_size (b : RecvBuffer) (size : Z) : Z :=
  Z.of_nat (length (rb_data b)).

(** Writes through [op]: the operation at node [self] of the recv queue of
    [slot] becomes [f op]. *)
Definition update_recv_op (slot : SlotIter) (self : nat)
    (f : RecvOperation2.t -> RecvOperation2.t) (s : SockScheduler)
    : SockScheduler :=
  update_slot slot
    (fun sl =>
       set_mRecvOps2_
         ((fun op => if Nat.eqb (RecvOperation2.mSelfIter op) self
                     then f op else op) <$> mRecvOps2_ sl) sl) s.

Definition set_mRecvBuffer (b : RecvBuffer) (op : RecvOperation2.t)
    : RecvOperation2.t :=
  {| RecvOperation2.mSlot := RecvOperation2.mSlot op;
     RecvOperation2.mCH2 := RecvOperation2.mCH2 op;
     RecvOperation2.mRecvBuffer := b;
     RecvOperation2.mInProgress := RecvOperation2.mInProgress op;
     RecvOperation2.mSelfIter := RecvOperation2.mSelfIter op;
     RecvOperation2.mToken := RecvOperation2.mToken op;
     RecvOperation2.mFlushes := RecvOperation2.mFlushes op |}.

(** Resuming [receiveDataTask] with the result of the operation it
    awaits.  [initRemoteSlot] is declared in the header and defined
    outside it; it is a parameter.  [None] as for [send_resume]. *)
Definition recv_resume
    (initRemoteSlot : Z -> SessionID -> SockScheduler
                      -> error_code * SockScheduler)
    (t : RecvTask) (s : SockScheduler) (r : recv_response)
    : option (RecvTask * SockScheduler * recv_request) :=
  match recv_at t, r with
  | AtAnyRecvOp, ResumeAnyRecvOp =>
      if negb (recv_restoreReadSize t =? 0) then
        let restoreBuffer :=
          resize (recv_restoreReadSize t) (recv_restoreBuffer t) in
        Some (set_recv_at AtRestoreRecv (recv_ec t) (recv_bt t)
                (recv_restoreReadSize t)
                (set_recv_restore (recv_restoreReadSize t) restoreBuffer t),
              s, AwaitSockRecv (recv_restoreReadSize t) false)
      else recv_header_loop (recv_ec t) t s
  | AtRestoreRecv, ResumeSockRecv ec received =>
      let bt := Z.of_nat (length received) in
      let s1 := add_mBytesReceived bt s in
      let t1 :=
        set_recv_at (recv_at t) ec bt (recv_buffer_size t)
          (set_recv_restore (recv_restoreReadSize t)
             (overwrite received (recv_restoreBuffer t)) t) in
      if is_error ec then recv_continue ec t1 s1
      else recv_header_loop ec t1 s1
  | AtHeaderRecv, ResumeSockRecv ec received =>
      let bt := Z.of_nat (length received) in
      let s1 :=
        add_mBytesReceived bt
          (set_mRecvHeader
             (Header_of_bytes (overwrite received (getRecvHeader s))) s) in
      let t1 := set_recv_at (recv_at t) ec bt (recv_buffer_size t) t in
      if is_error ec then recv_after_loop ec t1 s1
      else if getRecvHeaderSize s1 =? 0 then
        Some (set_recv_at AtControlBlockRecv ec bt 16 t, s1,
              AwaitSockRecv 16 false)
      else recv_header_loop ec t1 (set_mHaveRecvHeader true s1)
  | AtControlBlockRecv, ResumeSockRecv ec received =>
      let bt := Z.of_nat (length received) in
      let s1 :=
        add_mBytesReceived bt
          (set_mRecvControlBlock
             {| ControlBlock.data :=
                  overwrite received
                    (ControlBlock.data (mRecvControlBlock s)) |} s) in
      let t1 := set_recv_at (recv_at t) ec bt (recv_buffer_size t) t in
      if is_error ec then recv_after_loop ec t1 s1
      else
        let slotId := (mRecvHeader s1).2 in
        let sid := ControlBlock.getSessionID (mRecvControlBlock s1) in
        let (ec', s2) := initRemoteSlot slotId sid s1 in
        if is_error ec' then recv_after_loop ec' t1 s2
        else recv_header_loop ec' t1 s2
  | AtGetRequestedRecvSlot, ResumeRequestedRecvSlot iter =>
      let s1 := set_mHaveRecvHeader false s in
      if mClosed s1 then recv_continue closed t s1
      else
        match iter with
        | None => recv_continue badCoprotoMessageHeader t s1
        | Some slot =>
            sl ← mSlots_ s1 !! slot;
            op ← head (mRecvOps2_ sl);
            let size :=
              asSpan_size (RecvOperation2.mRecvBuffer op)
                (getRecvHeaderSize s1) in
            let t1 := set_recv_op slot (RecvOperation2.mSelfIter op) t in
            if negb (size =? getRecvHeaderSize s1)
            then recv_continue cancel
                   (set_recv_at (recv_at t1) (recv_ec t1) (recv_bt t1) size t1)
                   s1
            else Some (set_recv_at AtBodyRecv (recv_ec t1) (recv_bt t1) size t1,
                       s1, AwaitSockRecv size true)
        end
  | AtBodyRecv, ResumeSockRecv ec received =>
      let bt := Z.of_nat (length received) in
      let s1 :=
        update_recv_op (recv_slot t) (recv_op t)
          (fun op =>
             set_mRecvBuffer
               {| rb_data :=
                    overwrite received
                      (rb_data (RecvOperation2.mRecvBuffer op));
                  rb_error := rb_error (RecvOperation2.mRecvBuffer op) |} op)
          (add_mBytesReceived bt s) in
      let t1 := set_recv_at (recv_at t) ec bt (recv_buffer_size t) t in
      if is_aborted ec then
        sl ← mSlots_ s1 !! recv_slot t;
        front ← head (mRecvOps2_ sl);
        if negb (Nat.eqb (RecvOperation2.mSelfIter front) (recv_op t))
        then None
        else
          recv_continue ec
            (set_recv_restore (wrap (recv_buffer_size t - bt))
               (recv_restoreBuffer t1) t1)
            (update_recv_op (recv_slot t) (recv_op t)
               (fun op =>
                  set_mRecvBuffer
                    (RecvBuffer_setError ec (RecvOperation2.mRecvBuffer op))
                    op) s1)
      else recv_continue ec t1 s1
  | _, _ => None
  end.

(** The receiver at [getRequestedRecvSlot], the header of a data frame on
    hand. *)
Definition RecvTask_at_slot : RecvTask :=
  set_recv_at AtGetRequestedRecvSlot success 8 8 RecvTask_init.

(** The send at node [self] of slot [slot] is queued and can be
    cancelled: it is in the slot's queue with a stoppable token and a
    completion handle, transmission has not begun, and the slot is on the
    pending-send list. *)
Definition send_is_queued (s : SockScheduler) (slot : SlotIter) (self : nat)
    (sl : Slot) (op : SendOperation2.t) : Prop :=
  find_iter SendOperation2.mSelfIter self (mSendOps2_ sl) = Some op /\
  SendOperation2.mToken op = true /\
  SendOperation2.mInProgress op = false /\
  handle_set (SendOperation2.mCH2 op) = true /\
  slot ∈ mSendBuffers_ s.

(** What cancelling that send has done: one entry of the slot is gone
    from the pending-send list [mSendBuffers_] and the operation is gone
    from the slot's queue, the other slots are untouched; the operation
    was failed with [operation_aborted] and its completion handle
    resumed; the send status is [Idle] if the pending-send list became
    empty and is unchanged otherwise; the recv side is unchanged. *)
Definition send_cancelled (s : SockScheduler) (slot : SlotIter) (self : nat)
    (sl : Slot) (op : SendOperation2.t) (s' : SockScheduler)
    (effects : list effect) : Prop :=
  erase_first slot (mSendBuffers_ s) = Some (mSendBuffers_ s') /\
  S (length (mSendBuffers_ s')) = length (mSendBuffers_ s) /\
  mSlots_ s' !! slot =
    Some (set_mSendOps2_
            (erase_iter SendOperation2.mSelfIter self (mSendOps2_ sl)) sl) /\
  S (length (erase_iter SendOperation2.mSelfIter self (mSendOps2_ sl))) =
    length (mSendOps2_ sl) /\
  (forall j, j <> slot -> mSlots_ s' !! j = mSlots_ s !! j) /\
  SetError true slot self operation_aborted ∈ effects /\
  Resume (SendOperation2.mCH2 op) ∈ effects /\
  mSendStatus s' =
    match mSendBuffers_ s' with [] => Idle | _ => mSendStatus s end /\
  mRecvStatus s' = mRecvStatus s /\
  mNumRecvs s' = mNumRecvs s.

(** The receive at node [self] of slot [slot] is queued and can be
    cancelled; the count of pending receives is positive. *)
Definition recv_is_queued (s : SockScheduler) (slot : SlotIter) (self : nat)
    (sl : Slot) (op : RecvOperation2.t) : Prop :=
  find_iter RecvOperation2.mSelfIter self (mRecvOps2_ sl) = Some op /\
  RecvOperation2.mInProgress op = false /\
  handle_set (RecvOperation2.mCH2 op) = true /\
  0 < mNumRecvs s < modulus.

(** What cancelling that receive has done: the operation is gone from the
    slot's queue, it was failed with [operation_aborted] and its
    completion handle resumed; the recv count is one less, and the recv
    status is [Idle] if the count reached zero and unchanged otherwise;
    the send side is unchanged. *)
Definition recv_cancelled (s : SockScheduler) (slot : SlotIter) (self : nat)
    (sl : Slot) (op : RecvOperation2.t) (s' : SockScheduler)
    (effects : list effect) : Prop :=
  mSlots_ s' !! slot =
    Some (set_mRecvOps2_
            (erase_iter RecvOperation2.mSelfIter self (mRecvOps2_ sl)) sl) /\
  S (length (erase_iter RecvOperation2.mSelfIter self (mRecvOps2_ sl))) =
    length (mRecvOps2_ sl) /\
  (forall j, j <> slot -> mSlots_ s' !! j = mSlots_ s !! j) /\
  SetError false slot self operation_aborted ∈ effects /\
  Resume (RecvOperation2.mCH2 op) ∈ effects /\
  mNumRecvs s' = mNumRecvs s - 1 /\
  mRecvStatus s' = (if mNumRecvs s' =? 0 then Idle else mRecvStatus s) /\
  mSendStatus s' = mSendStatus s /\
  mSendBuffers_ s' = mSendBuffers_ s.

(** *** Example states *)

Definition sid_A : SessionID :=
  {| mVal := [1; 2; 3; 4; 5; 6; 7; 8; 9; 10; 11; 12; 13; 14; 15; 16] |}.

Definition ControlBlock_zero : ControlBlock.t :=
  {| ControlBlock.data := replicate 16 0 |}.

(** A send of [data] on slot [slot], queued at node [self], with a
    stoppable token and completion handle [coroutine h]. *)
Definition queued_send (slot : SlotIter) (self h : nat) (data : bytes)
    : SendOperation2.t :=
  {| SendOperation2.mCH2 := coroutine h;
     SendOperation2.mSendBuff := {| sb_data := data; sb_error := None |};
     SendOperation2.mInProgress := false;
     SendOperation2.mSlot := slot;
     SendOperation2.mSelfIter := self;
     SendOperation2.mToken := true;
     SendOperation2.mFlushes := [] |}.

(** A receive into a buffer of [size] bytes on slot [slot]. *)
Definition queued_recv (slot : SlotIter) (self h : nat) (size : nat)
    : RecvOperation2.t :=
  {| RecvOperation2.mSlot := slot;
     RecvOperation2.mCH2 := coroutine h;
     RecvOperation2.mRecvBuffer :=
       {| rb_data := replicate size 0; rb_error := None |};
     RecvOperation2.mInProgress := false;
     RecvOperation2.mSelfIter := self;
     RecvOperation2.mToken := true;
     RecvOperation2.mFlushes := [] |}.

(** A slot as its constructor and [initLocalSlot] leave it, with session
    id [sid] and local id [localId]; the remote id is still [-1]. *)
Definition fresh_slot (sid : SessionID) (localId : Z) : Slot :=
  {| mSessionID := sid; mLocalId := localId; mRemoteId := 4294967295;
     mInitiated := false; slot_mClosed := false;
     mRecvOps2_ := []; mSendOps2_ := [] |}.

(** A scheduler with the given slots and pending-send list, both sides in
    use, [numRecvs] receives pending. *)
Definition scheduler_with (slots : list Slot) (sendBuffers : list SlotIter)
    (numRecvs : Z) : SockScheduler :=
  {| mSlots_ := slots; mSendBuffers_ := sendBuffers; mNumRecvs := numRecvs;
     mClosed := false; mRecvStatus := InUse; mSendStatus := InUse;
     mSendHeader := (0, 0); mRecvHeader := (0, 0);
     mRecvControlBlock := ControlBlock_zero;
     mSendControlBlock2 :=
       {| scb_mHeader := (0, 0); scb_mCtrlBlk := ControlBlock_zero |};
     mHaveRecvHeader := false; mBytesSent := 0; mBytesReceived := 0;
     mRecvCancelSrc := true; mSendCancelSrc := true; flushTokens := [] |}.

(** One fork with two sends and one receive queued. *)
Definition slot_two_sends : Slot :=
  set_mRecvOps2_ [queued_recv 0%nat 0%nat 30%nat 4%nat]
    (set_mSendOps2_ [queued_send 0%nat 0%nat 10%nat [170];
                     queued_send 0%nat 1%nat 11%nat [187; 204]]
       (fresh_slot sid_A 1)).

Definition scheduler_two_sends : SockScheduler :=
  scheduler_with [slot_two_sends] [0%nat; 0%nat] 1.

(** The scheduler of [scheduler_two_sends] holding the header of a data
    frame of 8 bytes for remote slot 7, while the receive at the head of
    slot 0 has a buffer of 4 bytes. *)
Definition scheduler_header_8 : SockScheduler :=
  set_mRecvHeader (8, 7) (set_mHaveRecvHeader true scheduler_two_sends).

(** An [initRemoteSlot] that accepts every binding and records nothing. *)
Definition initRemoteSlot_accept (slotId : Z) (sid : SessionID)
    (s : SockScheduler) : error_code * SockScheduler :=
  (success, s).

(** The operation the receiver awaits next, if it can be resumed. *)
Definition recv_next_request
    (r : option (RecvTask * SockScheduler * recv_request))
    : option recv_request :=
  match r with
  | Some (_, _, request) => Some request
  | None => None
  end.

(** The first send of [scheduler_two_sends] is cancelled while the NewSlot
    meta frame is being written, before any byte of it is on the stream;
    the second send of the same fork is then written in full. *)
Definition meta_abort_turns : list send_turn :=
  [ {| turn_pops := None; turn_response := ResumeNextSendOp (Some 0%nat) |};
    {| turn_pops := None;
       turn_response := ResumeSockSend operation_aborted 0 |};
    {| turn_pops := Some 0%nat;
       turn_response := ResumeNextSendOp (Some 0%nat) |};
    {| turn_pops := None; turn_response := ResumeSockSend success 8 |};
    {| turn_pops := None; turn_response := ResumeSockSend success 2 |} ].

(** Both sends of [scheduler_two_sends] are written in full. *)
Definition two_sends_turns : list send_turn :=
  [ {| turn_pops := None; turn_response := ResumeNextSendOp (Some 0%nat) |};
    {| turn_pops := None; turn_response := ResumeSockSend success 24 |};
    {| turn_pops := None; turn_response := ResumeSockSend success 8 |};
    {| turn_pops := None; turn_response := ResumeSockSend success 1 |};
    {| turn_pops := Some 0%nat;
       turn_response := ResumeNextSendOp (Some 0%nat) |};
    {| turn_pops := None; turn_response := ResumeSockSend success 8 |};
    {| turn_pops := None; turn_response := ResumeSockSend success 2 |} ].

(** *** Callback lists and flush tokens *)

(** The callback list after [push_back] of each of [hs] in turn. *)
Definition push_all (hs : list coroutine_handle) (cb : CBList.t) : CBList.t :=
  foldl (fun cb h => CBList.push_back h cb) cb hs.

(** What a callback list built from [hs] holds: the first eight handles
    in the small buffer, the others in the vector, and a size that stops
    at eight. *)
Definition CBList_of (hs : list coroutine_handle) : CBList.t :=
  {| CBList.mSize := Z.of_nat (Nat.min (length hs) 8);
     CBList.mArray := take 8 hs ++ replicate (8 - length hs) null_handle;
     CBList.mVec := drop 8 hs |}.

(** The handles of the flush tokens [fs] of an operation that no other
    operation holds, in order. *)
Definition sole_handles (fs : list nat) (tokens : list FlushToken)
    : list coroutine_handle :=
  omap (fun f =>
          tok ← tokens !! f;
          if Nat.eqb (use_count tok) 1 then Some (mHandle tok) else None) fs.

(** Token [f] after the operation that held the tokens [fs] was
    cancelled and destroyed: a token it held alone has given up its
    handle and has no holder left; one it shared has one holder less. *)
Definition token_after_cancel (fs : list nat) (f : nat) (tok : FlushToken)
    : FlushToken :=
  if bool_decide (f ∈ fs) then
    if Nat.eqb (use_count tok) 1
    then {| mHandle := null_handle; use_count := 0 |}
    else {| mHandle := mHandle tok; use_count := Nat.pred (use_count tok) |}
  else tok.

(** Two flush tokens: the first held by one operation, the second by
    two. *)
Definition two_flush_tokens : list FlushToken :=
  [ {| mHandle := coroutine 21; use_count := 1 |};
    {| mHandle := coroutine 22; use_count := 2 |} ].

(** *** The writer's byte counter and the frames on the stream *)

(** The bytes accepted by the calls of [sock->send], by their [bt]. *)
Definition bytes_accepted (sent : list sock_send) : Z :=
  foldr Z.add 0 (sent_bt <$> sent).

(** The assertion on a call [(ec, bt) = sock->send(buffer)]:
    [bt <= buffer.size()]. *)
Definition within_buffer (c : sock_send) : Prop :=
  0 <= sent_bt c <= Z.of_nat (length (sent_buffer c)).

(** The operation awaited is the one of the suspension point. *)
Definition request_matches (t : SendTask) (request : send_request) : Prop :=
  match send_at t, request with
  | AtNextSendOp, AwaitNextSendOp _ => True
  | AtNextSendOp, AwaitSockSend _ => False
  | _, AwaitSockSend _ => True
  | _, AwaitNextSendOp _ => False
  end.

(** A whole frame on the stream, by the format described at the top of
    the header: a meta frame, a header with size zero followed by the 16
    bytes of a control block; or a data frame, a header with the size of
    the payload followed by the payload. *)
Definition is_frame (bs : bytes) : Prop :=
  (exists slotId control,
     length control = 16%nat /\ bs = Header_bytes (0, slotId) ++ control) \/
  (exists slotId payload,
     0 < Z.of_nat (length payload) < u32_max /\
     bs = Header_bytes (u32 (Z.of_nat (length payload)), slotId) ++ payload).

(** The stream is a sequence of whole frames. *)
Definition frame_aligned (stream : bytes) : Prop :=
  exists frames, Forall is_frame frames /\ stream = concat frames.

(** What the writer still has to put on the stream to reach the end of
    a frame: the restore buffer; at a write, what is left of the frame
    being written. *)
Definition owed (t : SendTask) : bytes :=
  match send_at t with
  | AtNextSendOp => send_restoreBuffer t
  | AtRestoreSend => send_buffer t
  | AtMetaSend => send_buffer t
  | AtHeaderSend => send_buffer t ++ send_data t
  | AtBodySend => send_data t
  end.

(** A call of [sock->send] that completes, or that is aborted by the
    stop token before the end of its buffer; an aborted write of a
    payload has written at least one byte. *)
Definition completes_or_aborts (c : sock_send) : Prop :=
  (sent_ec c = success /\ sent_bt c = Z.of_nat (length (sent_buffer c))) \/
  (sent_ec c = operation_aborted /\
   0 <= sent_bt c < Z.of_nat (length (sent_buffer c)) /\
   (sent_at c = AtBodySend -> 0 < sent_bt c)).

(** The session ids and the send control block have their 16 bytes. *)
Definition control_blocks_sized (s : SockScheduler) : Prop :=
  Forall (fun sl => well_formed_SessionID (mSessionID sl)) (mSlots_ s) /\
  length (ControlBlock.data (scb_mCtrlBlk (mSendControlBlock2 s))) = 16%nat.

(** The payload passed the assertions on its size. *)
Definition data_sized (t : SendTask) : Prop :=
  0 < Z.of_nat (length (send_data t)) < u32_max.

(** What holds of a run of the writer at each suspension point, when
    every call completes or aborts as above. *)
Definition writer_aligned (st : send_state) : Prop :=
  let t := run_task st in
  let w := wire (run_sent st) in
  control_blocks_sized (run_sched st) /\
  match send_at t with
  | AtNextSendOp =>
      (exists ec, run_request st = AwaitNextSendOp ec) /\
      frame_aligned (w ++ send_restoreBuffer t)
  | AtRestoreSend =>
      run_request st = AwaitSockSend (send_buffer t) /\
      frame_aligned (w ++ send_buffer t) /\ data_sized t
  | AtMetaSend =>
      run_request st = AwaitSockSend (send_buffer t) /\
      send_restoreBuffer t = [] /\
      frame_aligned w /\ is_frame (send_buffer t) /\ data_sized t
  | AtHeaderSend =>
      run_request st = AwaitSockSend (send_buffer t) /\
      send_restoreBuffer t = [] /\
      frame_aligned w /\ is_frame (send_buffer t ++ send_data t)
  | AtBodySend =>
      run_request st = AwaitSockSend (send_data t) /\
      send_restoreBuffer t = [] /\
      frame_aligned (w ++ send_data t)
  end.

(** The first send of [scheduler_two_sends] is written in full; the
    second is cancelled when one byte of its payload of two is on the
    stream. *)
Definition payload_abort_turns : list send_turn :=
  [ {| turn_pops := None; turn_response := ResumeNextSendOp (Some 0%nat) |};
    {| turn_pops := None; turn_response := ResumeSockSend success 24 |};
    {| turn_pops := None; turn_response := ResumeSockSend success 8 |};
    {| turn_pops := None; turn_response := ResumeSockSend success 1 |};
    {| turn_pops := Some 0%nat;
       turn_response := ResumeNextSendOp (Some 0%nat) |};
    {| turn_pops := None; turn_response := ResumeSockSend success 8 |};
    {| turn_pops := None;
       turn_response := ResumeSockSend operation_aborted 1 |} ].

(** *** Runs of the receiver

    Between two resumptions of the task other code runs under the
    scheduler's mutex: a turn says what it does to the scheduler, and
    what the awaited operation returns. *)
Record recv_turn : Type := {
  turn_scheduler : SockScheduler -> SockScheduler;
  turn_received : recv_response
}.

(** A turn in which the scheduler is left alone. *)
Definition undisturbed (r : recv_response) : recv_turn :=
  {| turn_scheduler := fun s => s; turn_received := r |}.

Fixpoint recv_run
    (initRemoteSlot : Z -> SessionID -> SockScheduler
                      -> error_code * SockScheduler)
    (turns : list recv_turn) (c : RecvTask * SockScheduler * recv_request)
    : option (RecvTask * SockScheduler * recv_request) :=
  match turns with
  | [] => Some c
  | turn :: turns' =>
      match recv_resume initRemoteSlot c.1.1 (turn_scheduler turn c.1.2)
              (turn_received turn) with
      | Some c' => recv_run initRemoteSlot turns' c'
      | None => None
      end
  end.

(** The turn does not answer a read with [operation_aborted]. *)
Definition not_aborted (turn : recv_turn) : Prop :=
  forall received,
    turn_received turn <> ResumeSockRecv operation_aborted received.

(** The receive operation [op] after [received] was read into its
    buffer, and after it was failed with [ec]. *)
Definition received_into (received : bytes) (op : RecvOperation2.t)
    : RecvOperation2.t :=
  set_mRecvBuffer
    {| rb_data := overwrite received (rb_data (RecvOperation2.mRecvBuffer op));
       rb_error := rb_error (RecvOperation2.mRecvBuffer op) |} op.

Definition failed_with (ec : error_code) (op : RecvOperation2.t)
    : RecvOperation2.t :=
  set_mRecvBuffer (RecvBuffer_setError ec (RecvOperation2.mRecvBuffer op)) op.

(** The scheduler after the receiver has read the NewSlot meta frame of
    the peer's slot [peer]: the header, then the control block. *)
Definition after_meta_frame (peer : Slot) (s : SockScheduler) : SockScheduler :=
  add_mBytesReceived 16
    (set_mRecvControlBlock
       {| ControlBlock.data := mVal (mSessionID peer) |}
       (add_mBytesReceived 8 (set_mRecvHeader (0, mLocalId peer) s))).

(** The receiver at the read of a header. *)
Definition RecvTask_at_header : RecvTask :=
  set_recv_at AtHeaderRecv success 0 8 RecvTask_init.

(** The receiver at the read of the payload for the receive at the head
    of slot 0 of [scheduler_two_sends], whose buffer has 4 bytes. *)
Definition RecvTask_at_body : RecvTask :=
  set_recv_op 0 0 (set_recv_at AtBodyRecv success 8 4 RecvTask_init).

(** The receiver at [anyRecvOp] after a read was cancelled three bytes
    before its end. *)
Definition RecvTask_draining : RecvTask :=
  set_recv_restore 3 [] RecvTask_init.

(** The three bytes are read, then the stream fails at the next header. *)
Definition drain_turns : list recv_turn :=
  [ undisturbed ResumeAnyRecvOp;
    undisturbed (ResumeSockRecv success [0; 0; 0]);
    undisturbed (ResumeSockRecv closed []) ].

(** *** The receiver's errors *)

(** [mClosed = true] *)
Definition set_mClosed (v : bool) (s : SockScheduler) : SockScheduler :=
  {| mSlots_ := mSlots_ s; mSendBuffers_ := mSendBuffers_ s;
     mNumRecvs := mNumRecvs s; mClosed := v;
     mRecvStatus := mRecvStatus s; mSendStatus := mSendStatus s;
     mSendHeader := mSendHeader s; mRecvHeader := mRecvHeader s;
     mRecvControlBlock := mRecvControlBlock s;
     mSendControlBlock2 := mSendControlBlock2 s;
     mHaveRecvHeader := mHaveRecvHeader s; mBytesSent := mBytesSent s;
     mBytesReceived := mBytesReceived s; mRecvCancelSrc := mRecvCancelSrc s;
     mSendCancelSrc := mSendCancelSrc s; flushTokens := flushTokens s |}.

(** Modelled from the spec: [anyRecvOp] is declared in the header and
    defined outside it; [receiveDataTask] hands it its error code with
    every [continue] ([MC_AWAIT(anyRecvOp(this, ec))]).  By section 7 of
    the spec a cancellation ([operation_aborted]) "is local to the op"
    and the "scheduler continues", while a header/size disagreement is
    fatal: "op fails; scheduler closes" (section 4.4, step 4: "fail the
    op with a protocol-mismatch error ... and close the scheduler").
    The op is the receive the task was serving, node [self] of the queue
    of [slot], as the task's [slot] and [op] have it.  With no error, and
    with [operation_aborted], the scheduler is left as it is.  What
    closing does to the other pending operations is not modelled. *)
Definition anyRecvOp_settle (ec : error_code) (slot : SlotIter) (self : nat)
    (s : SockScheduler) : SockScheduler :=
  if is_error ec && negb (is_aborted ec)
  then set_mClosed true (update_recv_op slot self (failed_with ec) s)
  else s.

End Scheduler.

(* ================================================================== *)
(** * Properties *)

(** ** Machine integers *)

Section WordFacts.
Import Word.

Lemma modulus_pos : 0 < modulus.
Proof. unfold modulus. lia. Qed.

Lemma wrap_range z : in_range (wrap z).
Proof. unfold in_range, wrap. apply Z.mod_pos_bound, modulus_pos. Qed.

Lemma wrap_small z : in_range z -> wrap z = z.
Proof. unfold in_range, wrap. intros. now apply Z.mod_small. Qed.

Lemma wrap_wrap_add a b : wrap (wrap a + b) = wrap (a + b).
Proof. unfold wrap. now rewrite Zplus_mod_idemp_l. Qed.

Lemma wrap_add_wrap a b : wrap (a + wrap b) = wrap (a + b).
Proof. unfold wrap. now rewrite Zplus_mod_idemp_r. Qed.

Lemma wrap_wrap_sub a b : wrap (wrap a - b) = wrap (a - b).
Proof. unfold wrap. now rewrite Zminus_mod_idemp_l. Qed.

Lemma wrap_sub_wrap a b : wrap (a - wrap b) = wrap (a - b).
Proof. unfold wrap. now rewrite Zminus_mod_idemp_r. Qed.

(** A positive number with [n & (n-1) = 0] is a power of two. *)
Lemma is_pow2_log2 n : is_pow2 n = true -> n = 2 ^ Z.log2 n.
Proof.
  unfold is_pow2. intros H.
  apply andb_true_iff in H as [Hpos Hland].
  apply Z.ltb_lt in Hpos. apply Z.eqb_eq in Hland.
  destruct (Z.log2_spec n Hpos) as [Hlo Hhi].
  destruct (Z.eq_dec n (2 ^ Z.log2 n)) as [|Hne]; [assumption|exfalso].
  assert (Hk : 0 <= Z.log2 n) by apply Z.log2_nonneg.
  assert (Hlog : Z.log2 (n - 1) = Z.log2 n).
  { apply Z.log2_unique; [assumption|]. lia. }
  assert (Hb1 : Z.testbit n (Z.log2 n) = true) by now apply Z.bit_log2.
  assert (Hb2 : Z.testbit (n - 1) (Z.log2 n) = true).
  { rewrite <- Hlog. apply Z.bit_log2. lia. }
  assert (Hb : Z.testbit (Z.land n (n - 1)) (Z.log2 n) = true).
  { rewrite Z.land_spec, Hb1, Hb2. reflexivity. }
  rewrite Hland, Z.bits_0 in Hb. discriminate.
Qed.

Lemma is_pow2_pos n : is_pow2 n = true -> 0 < n.
Proof.
  unfold is_pow2. intros H. apply andb_true_iff in H as [H _].
  now apply Z.ltb_lt.
Qed.

(** Masking with [n - 1] is reduction modulo [n]. *)
Lemma land_mask n x : is_pow2 n = true -> Z.land x (n - 1) = x mod n.
Proof.
  intros H. pose proof (is_pow2_log2 n H) as Hn.
  replace (n - 1) with (Z.ones (Z.log2 n))
    by (rewrite Z.ones_equiv; lia).
  rewrite Z.land_ones by apply Z.log2_nonneg.
  now rewrite <- Hn.
Qed.

(** A power of two that fits the signed difference type divides the
    modulus, so wrapping does not disturb a masked index. *)
Lemma pow2_divides_modulus n :
  is_pow2 n = true -> n <= max_diff -> (n | modulus).
Proof.
  intros H Hle. pose proof (is_pow2_log2 n H) as Hn.
  assert (Hk : 0 <= Z.log2 n) by apply Z.log2_nonneg.
  assert (Hlt : Z.log2 n < 64).
  { apply Z.log2_lt_pow2; [now apply is_pow2_pos|].
    unfold max_diff in Hle. lia. }
  exists (2 ^ (64 - Z.log2 n)). unfold modulus.
  rewrite Hn at 2. rewrite <- Z.pow_add_r by lia. f_equal. lia.
Qed.

Lemma mod_wrap n x :
  is_pow2 n = true -> n <= max_diff -> (wrap x) mod n = x mod n.
Proof.
  intros H Hle. unfold wrap.
  apply Z.mod_mod_divide. now apply pow2_divides_modulus.
Qed.

End WordFacts.

(** ** The sequencer *)

Section SequencerFacts.
Import Word Sequencer.

Lemma to_signed_eq z k :
  wrap z = wrap k -> - max_diff - 1 <= k <= max_diff -> to_signed z = k.
Proof.
  unfold to_signed, wrap, max_diff, modulus. intros -> Hk.
  destruct (Z.neg_nonneg_cases k) as [Hneg|Hpos].
  - replace (k mod 2 ^ 64) with (k + 2 ^ 64).
    + destruct (Z.leb_spec (k + 2 ^ 64) (2 ^ 63 - 1)); lia.
    + apply Z.mod_unique with (q := -1); lia.
  - rewrite Z.mod_small by lia.
    destruct (Z.leb_spec k (2 ^ 63 - 1)); lia.
Qed.

(** Stepping forward by [k] positions, within the difference type, is seen
    by [difference] as exactly [k], whatever the wrap-around. *)
Lemma difference_offset a k :
  - max_diff - 1 <= k <= max_diff -> difference (wrap (a + k)) a = k.
Proof.
  intros Hk. unfold difference. apply to_signed_eq; [|assumption].
  rewrite wrap_wrap_sub. f_equal. lia.
Qed.

Lemma difference_offset_wrap a b k :
  - max_diff - 1 <= k - b <= max_diff ->
  difference (wrap (a + k)) (wrap (a + b)) = k - b.
Proof.
  intros Hk. unfold difference. apply to_signed_eq; [|assumption].
  rewrite wrap_wrap_sub, wrap_sub_wrap. f_equal. lia.
Qed.

(** Two sequence numbers a nonzero distance below the modulus apart are
    different. *)
Lemma wrap_offset_neq a k :
  0 < k < modulus -> wrap (a + k) <> wrap a.
Proof.
  intros Hk Heq.
  assert (H : wrap (wrap (a + k) - wrap a) = k).
  { rewrite wrap_wrap_sub, wrap_sub_wrap.
    replace (a + k - a) with k by lia.
    apply wrap_small. unfold in_range. lia. }
  rewrite Heq, Z.sub_diag in H. unfold wrap in H at 1.
  rewrite Zmod_0_l in H. lia.
Qed.

Lemma well_formed_mask s x :
  well_formed s -> Z.land (wrap x) (m_sequenceMask s) = x mod buffer_size s.
Proof.
  intros (Hp & Hle & Hm & _). rewrite Hm, land_mask by assumption.
  now apply mod_wrap.
Qed.

Lemma load_store_eq published i v :
  0 <= i < Z.of_nat (length published) -> load (store published i v) i = v.
Proof.
  intros Hi. unfold load, store.
  rewrite list_lookup_insert_eq by lia. reflexivity.
Qed.

Lemma load_store_ne published i j v :
  0 <= i -> 0 <= j -> i <> j -> load (store published i v) j = load published j.
Proof.
  intros Hi Hj Hne. unfold load, store.
  rewrite list_lookup_insert_ne by lia. reflexivity.
Qed.

Lemma length_store published i v :
  length (store published i v) = length published.
Proof. unfold store. apply length_insert. Qed.

Example ring4_constructed : sequence_mpsc_ctor 4 0 = Some ring4.
Proof. reflexivity. Qed.

(** Decides [well_formed] on a concrete sequencer. *)
Ltac solve_well_formed :=
  unfold well_formed;
  match goal with
  | |- context [buffer_size ?s] =>
      let n := eval vm_compute in (buffer_size s) in
      change (buffer_size s) with n
  end;
  unfold max_diff; repeat split; try reflexivity; try lia.

Lemma ring4_well_formed : well_formed ring4.
Proof. solve_well_formed. Qed.

Lemma ring4_published_well_formed : well_formed ring4_published.
Proof. solve_well_formed. Qed.

(** *** [last_published_after] *)

(** A run of published sequence numbers is never longer than the ring:
    one slot would have to hold two different numbers. *)
Lemma matches_at_most_buffer_size s lkp k :
  well_formed s -> 0 <= k ->
  (forall j, 0 < j <= k -> published_matches s (wrap (lkp + j))) ->
  k <= buffer_size s.
Proof.
  intros Hwf Hk Hall.
  destruct (Z.le_gt_cases k (buffer_size s)) as [|Hgt]; [assumption|exfalso].
  pose proof Hwf as (Hp & Hle & Hm & Hlen).
  pose proof (is_pow2_pos _ Hp) as Hpos.
  assert (H1 := Hall 1 ltac:(lia)).
  assert (H2 := Hall (1 + buffer_size s) ltac:(lia)).
  unfold published_matches in H1, H2.
  rewrite well_formed_mask in H1, H2 by assumption.
  replace ((lkp + (1 + buffer_size s)) mod buffer_size s)
    with ((lkp + 1) mod buffer_size s) in H2.
  2: { replace (lkp + (1 + buffer_size s))
         with (lkp + 1 + 1 * buffer_size s) by lia.
       now rewrite Z_mod_plus_full. }
  rewrite H1 in H2.
  apply (wrap_offset_neq (lkp + 1) (buffer_size s)).
  - unfold max_diff, modulus in *. lia.
  - rewrite H2. f_equal. lia.
Qed.

Lemma scan_published_spec s lkp fuel :
  well_formed s ->
  forall k, 0 <= k ->
  (forall j, 0 < j <= k -> published_matches s (wrap (lkp + j))) ->
  buffer_size s - k < Z.of_nat fuel ->
  exists k', k <= k' /\
    scan_published fuel (m_sequenceMask s) (m_published s)
      (wrap (lkp + k + 1)) (wrap (lkp + k)) = Some (wrap (lkp + k')) /\
    (forall j, 0 < j <= k' -> published_matches s (wrap (lkp + j))) /\
    ~ published_matches s (wrap (lkp + k' + 1)).
Proof.
  intros Hwf. induction fuel as [|fuel IH]; intros k Hk Hall Hfuel.
  - pose proof (matches_at_most_buffer_size s lkp k Hwf Hk Hall). lia.
  - cbn [scan_published].
    destruct (Z.eqb_spec
                (load (m_published s)
                      (Z.land (wrap (lkp + k + 1)) (m_sequenceMask s)))
                (wrap (lkp + k + 1))) as [Heq|Hne].
    + destruct (IH (k + 1)) as (k' & Hle & Hscan & Hall' & Hstop).
      * lia.
      * intros j Hj. destruct (Z.eq_dec j (k + 1)) as [->|].
        -- unfold published_matches. now rewrite Z.add_assoc.
        -- apply Hall. lia.
      * lia.
      * exists k'. split; [lia|]. split; [|now split].
        rewrite wrap_wrap_add.
        replace (lkp + k + 1) with (lkp + (k + 1)) by lia.
        exact Hscan.
    + exists k. split; [lia|]. split; [reflexivity|]. split; [assumption|].
      exact Hne.
Qed.

(** C5: on every state of the published array of a well-formed sequencer,
    [last_published_after(s)] returns: the result is the greatest sequence
    number [r], at or after [s], such that every sequence number in
    [(s, r]] is stored in its slot ([published[i & mask] == i]); the scan
    starts at [s + 1] and stops at the first slot whose value differs.
    In particular the result never precedes the argument.  Order and
    intervals of sequence numbers are those of the wrapping 64-bit type. *)
Theorem last_published_after_greatest_prefix s lkp :
  well_formed s -> in_range lkp ->
  exists r,
    last_published_after s lkp = Some r /\
    greatest_published_prefix s lkp r /\
    precedes r lkp = false.
Proof.
  intros Hwf Hlkp.
  pose proof Hwf as (Hp & Hle & Hm & Hlen).
  destruct (scan_published_spec s lkp (S (length (m_published s))) Hwf 0)
    as (k & Hk & Hscan & Hall & Hstop).
  - lia.
  - intros j Hj. lia.
  - lia.
  - assert (HkN : k <= buffer_size s)
      by (apply (matches_at_most_buffer_size s lkp k); assumption).
    exists (wrap (lkp + k)). split; [|split].
    + unfold last_published_after.
      rewrite !Z.add_0_r in Hscan. rewrite (wrap_small lkp Hlkp) in Hscan.
      exact Hscan.
    + exists k. split; [lia|]. split; [reflexivity|].
      split; [assumption|]. split; [assumption|].
      intros k2 Hk2 Hall2.
      destruct (Z.le_gt_cases k2 k) as [|Hgt]; [assumption|exfalso].
      apply Hstop. rewrite <- Z.add_assoc. apply Hall2. lia.
    + unfold precedes. rewrite difference_offset by lia.
      apply Z.ltb_ge. lia.
Qed.

Lemma last_published_after_greatest_prefix_witness :
  well_formed ring4_published /\ in_range 0 /\
  exists r,
    last_published_after ring4_published 0 = Some r /\
    greatest_published_prefix ring4_published 0 r /\
    precedes r 0 = false.
Proof.
  split; [exact ring4_published_well_formed|].
  split; [unfold in_range, modulus; lia|].
  apply (last_published_after_greatest_prefix ring4_published 0).
  - exact ring4_published_well_formed.
  - unfold in_range, modulus. lia.
Defined.

(** The bound on the iterations in [last_published_after] is not felt:
    with any larger bound the loop returns the same value. *)
Lemma scan_published_enough_fuel s lkp fuel :
  well_formed s -> in_range lkp ->
  buffer_size s < Z.of_nat fuel ->
  scan_published fuel (m_sequenceMask s) (m_published s)
    (wrap (lkp + 1)) lkp
  = last_published_after s lkp.
Proof.
  intros Hwf Hlkp Hfuel.
  pose proof Hwf as (_ & _ & _ & Hlen).
  assert (Hnone : forall j, 0 < j <= 0 ->
            published_matches s (wrap (lkp + j))) by (intros j Hj; lia).
  destruct (scan_published_spec s lkp fuel Hwf 0 ltac:(lia) Hnone ltac:(lia))
    as (k1 & Hk1 & Hscan1 & Hall1 & Hstop1).
  destruct (scan_published_spec s lkp (S (length (m_published s))) Hwf 0
              ltac:(lia) Hnone ltac:(lia))
    as (k2 & Hk2 & Hscan2 & Hall2 & Hstop2).
  rewrite !Z.add_0_r in Hscan1, Hscan2.
  rewrite (wrap_small lkp Hlkp) in Hscan1, Hscan2.
  unfold last_published_after. rewrite Hscan1, Hscan2.
  assert (k1 = k2) as ->; [|reflexivity].
  destruct (Z.lt_trichotomy k1 k2) as [Hlt|[Heq|Hgt]]; [exfalso|assumption|exfalso].
  - apply Hstop1. rewrite <- Z.add_assoc. apply Hall2. lia.
  - apply Hstop2. rewrite <- Z.add_assoc. apply Hall1. lia.
Qed.

Example last_published_after_ring4_published :
  last_published_after ring4_published 0 = Some 2.
Proof. reflexivity. Qed.

(** *** The constructor *)

Lemma residue_unique n a i j :
  0 < n -> 0 <= i < n -> 0 <= j < n ->
  (a - j) mod n = i <-> j = (a - i) mod n.
Proof.
  intros Hn Hi Hj. split; intros H.
  - apply Z.mod_unique with (q := (a - j) / n); [lia|].
    pose proof (Z.div_mod (a - j) n ltac:(lia)). lia.
  - symmetry. apply Z.mod_unique with (q := (a - i) / n); [lia|].
    pose proof (Z.div_mod (a - i) n ltac:(lia)). lia.
Qed.

(** The constructor's loop, started [d] positions before
    [initialSequence], ends after [d + 1] iterations; each slot then holds
    the last sequence number written to it, and the other slots are as
    they were. *)
Lemma init_loop_spec n initial :
  is_pow2 n = true -> n <= max_diff -> in_range initial ->
  forall (d : nat) (published : list Z),
    Z.of_nat d < modulus ->
    Z.of_nat (length published) = n ->
    exists published',
      init_loop (S d) (n - 1) initial (wrap (initial - Z.of_nat d)) published
        = Some published' /\
      length published' = length published /\
      forall i, 0 <= i < n ->
        ((forall j, 0 <= j <= Z.of_nat d -> (initial - j) mod n <> i) ->
           load published' i = load published i) /\
        (forall j, 0 <= j <= Z.of_nat d -> (initial - j) mod n = i ->
           (forall j', 0 <= j' < j -> (initial - j') mod n <> i) ->
           load published' i = wrap (initial - j)).
Proof.
  intros Hp Hle Hin. pose proof (is_pow2_pos n Hp) as Hpos.
  assert (Hidx : forall x, Z.land (wrap x) (n - 1) = x mod n).
  { intros x. rewrite land_mask by assumption. now apply mod_wrap. }
  assert (Hrange : forall x, 0 <= x mod n < n)
    by (intros x; apply Z.mod_pos_bound; lia).
  induction d as [|d IH]; intros published Hd Hlen.
  - cbn [init_loop Z.of_nat]. rewrite Z.sub_0_r, (wrap_small initial Hin).
    rewrite Z.eqb_refl. eexists. split; [reflexivity|].
    split; [apply length_store|].
    assert (Hi0 : Z.land initial (n - 1) = initial mod n)
      by (rewrite <- (wrap_small initial Hin) at 1; apply Hidx).
    rewrite Hi0. change (Z.of_nat 0) with 0.
    intros i Hi. split.
    + intros Hno. apply load_store_ne; [apply Hrange | lia |].
      specialize (Hno 0 ltac:(lia)). now rewrite Z.sub_0_r in Hno.
    + intros j Hj Hji _. assert (j = 0) as -> by lia.
      rewrite Z.sub_0_r in Hji |- *. subst i.
      rewrite (wrap_small initial Hin). apply load_store_eq.
      specialize (Hrange initial). lia.
  - cbn [init_loop].
    set (seq := wrap (initial - Z.of_nat (S d))).
    assert (Hseq : seq <> initial).
    { unfold seq. intros Heq.
      apply (wrap_offset_neq (initial - Z.of_nat (S d)) (Z.of_nat (S d)));
        [lia|].
      replace (initial - Z.of_nat (S d) + Z.of_nat (S d)) with initial by lia.
      rewrite (wrap_small initial Hin). symmetry. exact Heq. }
    destruct (Z.eqb_spec seq initial) as [|_]; [contradiction|].
    assert (Hnext : wrap (seq + 1) = wrap (initial - Z.of_nat d)).
    { unfold seq. rewrite wrap_wrap_add. f_equal. lia. }
    rewrite Hnext.
    destruct (IH (store published (Z.land seq (n - 1)) seq))
      as (published' & Hrun & Hlen' & Hslots).
    + lia.
    + now rewrite length_store.
    + exists published'. split; [exact Hrun|].
      split; [now rewrite Hlen', length_store|].
      assert (Hsidx : Z.land seq (n - 1) = (initial - Z.of_nat (S d)) mod n)
        by apply Hidx.
      intros i Hi. destruct (Hslots i Hi) as [Hkeep Hset]. split.
      * intros Hno. rewrite Hkeep by (intros j Hj; apply Hno; lia).
        apply load_store_ne; [rewrite Hsidx; apply Hrange | lia |].
        rewrite Hsidx. apply Hno. lia.
      * intros j Hj Hji Hmin.
        destruct (Z.eq_dec j (Z.of_nat (S d))) as [->|Hne].
        -- rewrite Hkeep by (intros j' Hj'; apply Hmin; lia).
           rewrite Hsidx, Hji. apply load_store_eq. lia.
        -- apply Hset; [lia | assumption | assumption].
Qed.

(** C6: constructing a sequencer with a power-of-two buffer size [n]
    within the difference type and an initial sequence [initial] succeeds,
    and every index [i] in [[0, n)] of the published array then holds a
    sequence number that precedes [initial + 1]: the unique one of the [n]
    sequence numbers [initial - n + 1, ..., initial] that is congruent to
    [i] modulo [n].  Hence no sequence number after [initial] appears
    published before it is published, and [last_published_after(initial)]
    is [initial]. *)
Theorem ctor_published_initialised n initial :
  is_pow2 n = true -> n <= max_diff -> in_range initial ->
  exists s,
    sequence_mpsc_ctor n initial = Some s /\
    well_formed s /\
    buffer_size s = n /\
    m_nextToClaim s = wrap (initial + 1) /\
    (forall i, 0 <= i < n ->
       initial_slot_value n initial i (load (m_published s) i)) /\
    (forall k, 0 < k <= modulus - n ->
       ~ published_matches s (wrap (initial + k))) /\
    last_published_after s initial = Some initial.
Proof.
  intros Hp Hle Hin. pose proof (is_pow2_pos n Hp) as Hpos.
  assert (Hmax : max_diff < modulus) by (unfold max_diff, modulus; lia).
  assert (Hmask : wrap (n - 1) = n - 1)
    by (apply wrap_small; unfold in_range; lia).
  assert (Hiter :
    init_iterations initial (wrap (initial - (n - 1))) = S (Z.to_nat (n - 1))).
  { unfold init_iterations. rewrite wrap_sub_wrap.
    replace (initial - (initial - (n - 1))) with (n - 1) by lia.
    now rewrite Hmask. }
  destruct (init_loop_spec n initial Hp Hle Hin (Z.to_nat (n - 1))
              (replicate (Z.to_nat n) 0))
    as (published & Hrun & Hlen & Hslots).
  { lia. }
  { rewrite length_replicate. lia. }
  rewrite Z2Nat.id in Hrun, Hslots by lia.
  rewrite length_replicate in Hlen.
  set (s := {| m_sequenceMask := n - 1; m_published := published;
               m_nextToClaim := wrap (initial + 1); m_awaiters := [] |}).
  assert (Hsize : buffer_size s = n).
  { unfold buffer_size. cbn. replace (n - 1 + 1) with n by lia.
    apply wrap_small. unfold in_range. lia. }
  assert (Hwf : well_formed s).
  { unfold well_formed. rewrite Hsize. cbn. repeat split; try assumption.
    rewrite Hlen. lia. }
  assert (Hvalues : forall i, 0 <= i < n ->
            initial_slot_value n initial i (load published i)).
  { intros i Hi. set (j := (initial - i) mod n).
    assert (Hj : 0 <= j < n) by (apply Z.mod_pos_bound; lia).
    assert (Hji : (initial - j) mod n = i)
      by (apply residue_unique; [lia | lia | lia | reflexivity]).
    assert (Hload : load published i = wrap (initial - j)).
    { apply (proj2 (Hslots i Hi) j); [lia | assumption |].
      intros j' Hj' Heq. apply residue_unique in Heq; [|lia|lia|lia].
      fold j in Heq. lia. }
    exists j. split; [assumption|]. split; [assumption|].
    rewrite Hload. split; [now rewrite mod_wrap|]. split.
    - unfold precedes.
      replace (initial - j) with (initial + - j) by lia.
      rewrite difference_offset_wrap by (unfold max_diff in *; lia).
      apply Z.ltb_lt. lia.
    - intros j' Hj' Heq. rewrite mod_wrap in Heq by assumption.
      apply residue_unique in Heq; [|lia|lia|lia]. now subst j'. }
  assert (Hnone : forall k, 0 < k <= modulus - n ->
            ~ published_matches s (wrap (initial + k))).
  { intros k Hk Hpub. unfold published_matches in Hpub.
    rewrite (well_formed_mask s _ Hwf), Hsize in Hpub. cbn in Hpub.
    destruct (Hvalues ((initial + k) mod n)) as (j & Hj & Hv & _).
    { apply Z.mod_pos_bound. lia. }
    rewrite Hv in Hpub.
    apply (wrap_offset_neq (initial - j) (k + j)); [lia|].
    rewrite Hpub. f_equal. lia. }
  exists s. split.
  { unfold sequence_mpsc_ctor. rewrite Hiter, Hmask, Hrun. reflexivity. }
  split; [assumption|]. split; [assumption|]. split; [reflexivity|].
  split; [exact Hvalues|]. split; [exact Hnone|].
  unfold last_published_after. cbn [scan_published].
  destruct (Z.eqb_spec
              (load (m_published s)
                    (Z.land (wrap (initial + 1)) (m_sequenceMask s)))
              (wrap (initial + 1))) as [Heq|]; [|reflexivity].
  exfalso. apply (Hnone 1); [lia|]. exact Heq.
Qed.

Lemma ctor_published_initialised_witness :
  is_pow2 4 = true /\ 4 <= max_diff /\ in_range 0 /\
  exists s,
    sequence_mpsc_ctor 4 0 = Some s /\
    well_formed s /\
    buffer_size s = 4 /\
    m_nextToClaim s = wrap (0 + 1) /\
    (forall i, 0 <= i < 4 ->
       initial_slot_value 4 0 i (load (m_published s) i)) /\
    (forall k, 0 < k <= modulus - 4 ->
       ~ published_matches s (wrap (0 + k))) /\
    last_published_after s 0 = Some 0.
Proof.
  split; [reflexivity|].
  split; [unfold max_diff; lia|].
  split; [unfold in_range, modulus; lia|].
  apply (ctor_published_initialised 4 0).
  - reflexivity.
  - unfold max_diff. lia.
  - unfold in_range, modulus. lia.
Defined.

(** When the [n] numbers ending at [initial] do not wrap, the slot values
    lie in the plain integer interval [[initial - n + 1, initial]]. *)
Lemma initial_slot_value_no_wrap n initial i v :
  in_range initial -> n - 1 <= initial ->
  initial_slot_value n initial i v ->
  initial - n + 1 <= v <= initial /\ v < initial + 1.
Proof.
  intros Hin Hn (j & Hj & -> & _).
  rewrite wrap_small by (unfold in_range in *; lia). lia.
Qed.

(** *** Claiming *)

Lemma claim_up_to_count count s :
  m_count (fst (claim_up_to count s)) = Z.min count (buffer_size s).
Proof.
  unfold claim_up_to, bind, get_buffer_size, ret. cbn.
  destruct (Z.ltb_spec count (buffer_size s)); lia.
Qed.

(** C4: calling [claim_one()] or [claim_up_to(count)] leaves
    [next_to_claim] and the rest of the sequencer's state as they were,
    so any number of awaitables can be created and abandoned without a
    sequence number being lost: the next claim that is awaited gets the
    value [next_to_claim] had before.  The fetch-add on [next_to_claim]
    is performed by [operator co_await] of the returned awaitable, which
    adds 1 for [claim_one] and the stored count for [claim_up_to] and
    changes nothing else. *)
Theorem claim_is_lazy (count : Z) (counts : list Z) (s : sequence_mpsc) :
  snd (claim_one s) = s /\
  snd (claim_up_to count s) = s /\
  snd (abandoned_claims counts s) = s /\
  claim_one_await_resume
    (fst (bind (abandoned_claims counts)
            (fun _ => bind claim_one claim_one_co_await) s))
    = m_nextToClaim s /\
  snd (claim_one_co_await (fst (claim_one s)) s) =
    {| m_sequenceMask := m_sequenceMask s;
       m_published := m_published s;
       m_nextToClaim := wrap (m_nextToClaim s + 1);
       m_awaiters := m_awaiters s |} /\
  snd (claim_co_await (fst (claim_up_to count s)) s) =
    {| m_sequenceMask := m_sequenceMask s;
       m_published := m_published s;
       m_nextToClaim :=
         wrap (m_nextToClaim s + m_count (fst (claim_up_to count s)));
       m_awaiters := m_awaiters s |}.
Proof.
  assert (Habandon : forall cs, abandoned_claims cs s = (tt, s)).
  { induction cs as [|c cs IH]; [reflexivity|].
    cbn [abandoned_claims]. unfold bind at 1. unfold claim_up_to at 1.
    unfold bind at 1. unfold get_buffer_size at 1. unfold ret at 1.
    unfold bind at 1. unfold claim_one at 1. unfold ret at 1.
    exact IH. }
  split; [reflexivity|]. split; [reflexivity|].
  split; [now rewrite Habandon|]. split.
  - unfold bind at 1. rewrite Habandon. reflexivity.
  - split; reflexivity.
Qed.

(** C1 (amended): awaiting the awaitable returned by [claim_up_to(count)]
    fetch-adds [min(count, N)] on [next_to_claim] and yields the range
    [[first, first + min(count, N))], where [first] is the value of
    [next_to_claim] before the fetch-add and [N] the ring size; the rest
    of the sequencer is unchanged. *)
Theorem claim_up_to_await (count : Z) (s : sequence_mpsc) :
  exists aw s',
    bind (claim_up_to count) claim_co_await s = (aw, s') /\
    m_nextToClaim s' =
      wrap (m_nextToClaim s + Z.min count (buffer_size s)) /\
    m_sequenceMask s' = m_sequenceMask s /\
    m_published s' = m_published s /\
    m_awaiters s' = m_awaiters s /\
    claim_await_resume aw =
      {| range_begin := m_nextToClaim s;
         range_end := wrap (m_nextToClaim s + Z.min count (buffer_size s)) |}.
Proof.
  pose proof (claim_up_to_count count s) as Hc.
  unfold claim_up_to, bind, get_buffer_size, ret in *. cbn in Hc.
  eexists. eexists. split; [reflexivity|]. cbn. rewrite Hc.
  repeat split.
Qed.

(** The range handed out holds [n] consecutive sequence numbers. *)
Lemma range_elements_contiguous first n :
  0 <= n < modulus ->
  range_elements {| range_begin := first; range_end := wrap (first + n) |} =
  List.map (fun i : nat => wrap (first + Z.of_nat i))
           (List.seq 0 (Z.to_nat n)).
Proof.
  intros Hn. unfold range_elements, range_size. cbn.
  rewrite wrap_wrap_sub. replace (first + n - first) with n by lia.
  now rewrite wrap_small.
Qed.

(** On a ring of four slots, [claim_up_to(10)] hands out four sequence
    numbers, not ten. *)
Lemma claim_up_to_range_counterexample :
  claim_await_resume (fst (bind (claim_up_to 10) claim_co_await ring4)) <>
  {| range_begin := m_nextToClaim ring4;
     range_end := wrap (m_nextToClaim ring4 + 10) |}.
Proof. vm_compute. intros H. discriminate H. Qed.

Example claim_up_to_ring4 :
  claim_await_resume (fst (bind (claim_up_to 10) claim_co_await ring4)) =
    {| range_begin := 1; range_end := 5 |} /\
  m_nextToClaim (snd (bind (claim_up_to 10) claim_co_await ring4)) = 5.
Proof. split; reflexivity. Qed.

(** *** The race on [m_readyToResume] *)

Lemma race_init_invariant target lkp :
  race_invariant (race_init target lkp) = true.
Proof. reflexivity. Qed.

Lemma race_step_invariant handle published t c c' :
  race_invariant c = true ->
  race_step handle published t c = Some c' ->
  race_invariant c' = true.
Proof.
  destruct c as [[tgt lkp h flag] pa pb calls].
  unfold race_invariant, race_step, enqueued. cbn.
  intros Hinv Hstep.
  destruct t, pa as [| | |r], pb, flag; try destruct r; cbn in *;
    try discriminate; inversion Hstep; subst; cbn;
    try reflexivity; try assumption;
    destruct calls as [|[|calls]]; cbn in *; try discriminate; reflexivity.
Qed.

Lemma race_run_invariant handle published schedule :
  forall c c',
    race_invariant c = true ->
    race_run handle published schedule c = Some c' ->
    race_invariant c' = true.
Proof.
  induction schedule as [|t schedule IH]; intros c c' Hinv Hrun; cbn in Hrun.
  - now inversion Hrun; subst.
  - destruct (race_step handle published t c) as [c1|] eqn:Hstep;
      [|discriminate].
    apply (IH c1 c'); [|assumption].
    now apply (race_step_invariant handle published t c).
Qed.

(** While one of the two calls has not returned, some thread can move. *)
Lemma race_never_stuck handle published c :
  race_invariant c = true ->
  race_finished c = false ->
  exists t c', race_step handle published t c = Some c'.
Proof.
  destruct c as [a pa pb calls].
  unfold race_invariant, race_finished, race_step, enqueued. cbn.
  intros Hinv Hfin.
  destruct pa as [| | |r].
  - exists Suspender. eexists. reflexivity.
  - exists Suspender. eexists. reflexivity.
  - exists Suspender. eexists. reflexivity.
  - destruct pb; try discriminate; exists Resumer; eexists; reflexivity.
Qed.

(** C9: in every interleaving of an awaiter's [await_suspend] with a
    concurrent [resume(lastKnownPublished)], once both calls have
    returned exactly one of them has resumed the awaiting coroutine:
    either [await_suspend] returned [false] and [resume] did not call
    [resume_impl], or [await_suspend] returned [true] and [resume] called
    [resume_impl] once. *)
Theorem exactly_one_resumption target lkp handle published schedule c :
  race_run handle published schedule (race_init target lkp) = Some c ->
  race_finished c = true ->
  resumptions c = 1%nat /\
  ((suspend_at c = SuspendReturned false /\ resume_impl_calls c = 0%nat) \/
   (suspend_at c = SuspendReturned true /\ resume_impl_calls c = 1%nat)).
Proof.
  intros Hrun Hfin.
  pose proof (race_run_invariant handle published schedule _ _
                (race_init_invariant target lkp) Hrun) as Hinv.
  destruct c as [a pa pb calls].
  unfold race_invariant, race_finished, resumptions,
    resumed_by_await_suspend in *. cbn in *.
  destruct pa as [| | |r]; try discriminate.
  destruct pb; try discriminate.
  apply andb_true_iff in Hinv as [_ Hcalls].
  destruct r; apply Nat.eqb_eq in Hcalls; subst calls; cbn; auto.
Qed.

Lemma exactly_one_resumption_witness :
  exists c,
    race_run 7 5 [Suspender; Suspender; Resumer; Suspender; Resumer; Resumer]
      (race_init 5 0) = Some c /\
    race_finished c = true /\
    resumptions c = 1%nat /\
    ((suspend_at c = SuspendReturned false /\ resume_impl_calls c = 0%nat) \/
     (suspend_at c = SuspendReturned true /\ resume_impl_calls c = 1%nat)).
Proof.
  eexists. split; [reflexivity|]. split; [reflexivity|].
  apply (exactly_one_resumption 5 0 7 5
           [Suspender; Suspender; Resumer; Suspender; Resumer; Resumer]);
    reflexivity.
Defined.

(** The two orders of the exchanges: [resume] first, [await_suspend]
    returns [false]; [await_suspend] first, [resume] calls [resume_impl]. *)
Example race_resume_first :
  race_run 7 5 [Suspender; Suspender; Resumer; Resumer; Suspender]
    (race_init 5 0) =
  Some {| race_awaiter :=
            {| m_targetSequence := 5; m_lastKnownPublished := 5;
               m_awaitingCoroutine := Some 7%nat; m_readyToResume := true |};
          suspend_at := SuspendReturned false;
          resume_at := ResumeDone;
          resume_impl_calls := 0 |}.
Proof. reflexivity. Qed.

Example race_suspend_first :
  race_run 7 5 [Suspender; Suspender; Suspender; Resumer; Resumer; Resumer]
    (race_init 5 0) =
  Some {| race_awaiter :=
            {| m_targetSequence := 5; m_lastKnownPublished := 5;
               m_awaitingCoroutine := Some 7%nat; m_readyToResume := true |};
          suspend_at := SuspendReturned true;
          resume_at := ResumeDone;
          resume_impl_calls := 1 |}.
Proof. reflexivity. Qed.

End SequencerFacts.

(** ** The scheduler *)

Section SchedulerFacts.
Import Word Scheduler.

(** *** [ControlBlock] *)

(** C10: for every (16-byte) session id and every control block,
    [getSessionID()] after [setSessionID(id)] returns [id]; [setType(t)]
    leaves the data bytes of the control block unchanged for every [t];
    and [getType()] returns [Type::NewSlot] whatever the block holds. *)
Theorem ControlBlock_round_trip (id : SessionID) (cb : ControlBlock.t)
    (ty : ControlBlock.Type_) :
  well_formed_SessionID id ->
  ControlBlock.getSessionID (ControlBlock.setSessionID id cb) = id /\
  ControlBlock.data (ControlBlock.setType ty cb) = ControlBlock.data cb /\
  ControlBlock.getType cb = ControlBlock.NewSlot.
Proof.
  unfold well_formed_SessionID. destruct id as [v]. cbn. intros Hlen.
  split; [|split; reflexivity].
  unfold ControlBlock.getSessionID, ControlBlock.setSessionID,
    ControlBlock.memcpy. cbn.
  f_equal. rewrite (take_ge v 16) by lia.
  rewrite take_app_length' by (symmetry; exact Hlen).
  apply app_nil_r.
Qed.

Lemma ControlBlock_round_trip_witness :
  well_formed_SessionID sid_A /\
  ControlBlock.getSessionID (ControlBlock.setSessionID sid_A ControlBlock_zero)
    = sid_A /\
  ControlBlock.data (ControlBlock.setType ControlBlock.NewSlot ControlBlock_zero)
    = ControlBlock.data ControlBlock_zero /\
  ControlBlock.getType ControlBlock_zero = ControlBlock.NewSlot.
Proof.
  split; [reflexivity|].
  apply (ControlBlock_round_trip sid_A ControlBlock_zero ControlBlock.NewSlot).
  reflexivity.
Defined.

(** *** The destructor *)

Lemma Status_eqb_eq a b : Status_eqb a b = true <-> a = b.
Proof. destruct a, b; cbn; split; intros H; try reflexivity; discriminate. Qed.

(** C8: destroying a scheduler whose send status or recv status is
    [Status::InUse] terminates the process after writing a diagnostic that
    tells the caller to await [flush()]; destroying one whose statuses
    are both different from [InUse] does not. *)
Theorem dtor_terminates_iff_in_use (location : string) (s : SockScheduler) :
  (dtor location s = Terminated (dtor_output location) <->
     (mRecvStatus s = InUse \/ mSendStatus s = InUse)) /\
  (dtor location s = Destroyed <->
     (mRecvStatus s <> InUse /\ mSendStatus s <> InUse)) /\
  contains "Await Socket::flush()" (dtor_output location) = true.
Proof.
  unfold dtor.
  destruct (Status_eqb (mRecvStatus s) InUse) eqn:Hr;
    destruct (Status_eqb (mSendStatus s) InUse) eqn:Hs; cbn [orb];
    repeat match goal with
      | H : Status_eqb _ _ = true |- _ => apply Status_eqb_eq in H
      | H : Status_eqb _ _ = false |- _ =>
          apply not_true_iff_false in H; rewrite Status_eqb_eq in H
      end;
    (split; [|split]);
    try reflexivity;
    try (split; intros; try discriminate; tauto).
Qed.

Example dtor_in_use :
  dtor "SocketScheduler.h:506" scheduler_two_sends =
  Terminated (dtor_output "SocketScheduler.h:506").
Proof. reflexivity. Qed.

Example dtor_idle :
  dtor "SocketScheduler.h:506"
    (set_mSendStatus Idle (set_mRecvStatus Closed scheduler_two_sends))
  = Destroyed.
Proof. reflexivity. Qed.

(** *** Cancellation of a queued operation *)

Lemma erase_first_elem slot queue :
  slot ∈ queue ->
  exists queue',
    erase_first slot queue = Some queue' /\
    S (length queue') = length queue.
Proof.
  induction queue as [|i queue IH]; intros Hin.
  - inversion Hin.
  - cbn. destruct (Nat.eqb_spec i slot) as [->|Hne].
    + eexists. split; reflexivity.
    + apply elem_of_cons in Hin as [->|Hin]; [contradiction|].
      destruct (IH Hin) as (q & -> & Hlen).
      eexists. split; [reflexivity|]. cbn. lia.
Qed.

Lemma erase_iter_length {A : Type} (self_of : A -> nat) self l op :
  find_iter self_of self l = Some op ->
  S (length (erase_iter self_of self l)) = length l.
Proof.
  induction l as [|x l IH]; cbn; [discriminate|].
  destruct (Nat.eqb (self_of x) self); [reflexivity|].
  intros H. cbn. now rewrite IH.
Qed.

Lemma find_iter_self {A : Type} (self_of : A -> nat) self l op :
  find_iter self_of self l = Some op -> op ∈ l /\ self_of op = self.
Proof.
  induction l as [|x l IH]; cbn; [discriminate|].
  destruct (Nat.eqb_spec (self_of x) self) as [Heq|Hne].
  - intros [= ->]. split; [apply elem_of_cons; now left | assumption].
  - intros H. destruct (IH H) as [Hin Hself].
    split; [apply elem_of_cons; now right | assumption].
Qed.

Lemma push_back_first h : CBList.holds_first h (CBList.push_back h CBList.empty).
Proof.
  unfold CBList.holds_first, CBList.small.
  change (CBList.push_back h CBList.empty)
    with {| CBList.mSize := 1;
            CBList.mArray := h :: replicate 7 null_handle;
            CBList.mVec := [] |}.
  cbn. repeat split; lia.
Qed.

Lemma push_back_holds h h' cb :
  CBList.holds_first h cb -> CBList.holds_first h (CBList.push_back h' cb).
Proof.
  unfold CBList.holds_first, CBList.push_back, CBList.small.
  intros (Hsize & Hlen & Hfirst).
  destruct (Z.leb_spec 8 (CBList.mSize cb)); cbn.
  - repeat split; assumption || lia.
  - rewrite wrap_small by (unfold in_range, modulus; lia).
    rewrite length_insert, list_lookup_insert_ne by lia.
    repeat split; assumption || lia.
Qed.

Lemma getCB_flushes_holds h fs :
  forall cb tokens,
    CBList.holds_first h cb ->
    CBList.holds_first h (getCB_flushes fs cb tokens).1.
Proof.
  induction fs as [|f fs IH]; intros cb tokens Hcb; cbn; [assumption|].
  destruct (tokens !! f) as [tok|]; [|now apply IH].
  destruct (Nat.eqb (use_count tok) 1); apply IH; [|assumption].
  now apply push_back_holds.
Qed.

Lemma getCB_holds h fs tokens :
  CBList.holds_first h (getCB h fs CBList.empty tokens).1.
Proof. apply getCB_flushes_holds, push_back_first. Qed.

(** Every callback list built by [getCB] resumes the operation's own
    completion handle, however many flush tokens follow it. *)
Lemma resume_all_first h cb :
  CBList.holds_first h cb -> Resume h ∈ CBList.resume_all cb.
Proof.
  unfold CBList.holds_first, CBList.resume_all, CBList.get, CBList.small.
  intros (Hsize & Hlen & Hfirst).
  destruct (Z.eqb_spec (CBList.mSize cb) 0) as [|_]; [lia|].
  destruct (Z.leb_spec (CBList.mSize cb) 8) as [_|]; [|lia].
  apply elem_of_app.
  destruct (Z.eq_dec (CBList.mSize cb) 1) as [Hone|Hmore].
  - right. rewrite Hone. change (Z.to_nat (1 - 1)) with 0%nat.
    rewrite Hfirst. apply list_elem_of_singleton. reflexivity.
  - left. apply list_elem_of_fmap_2. apply (list_elem_of_lookup_2 _ 0%nat).
    rewrite lookup_take_lt by lia. exact Hfirst.
Qed.

Lemma after_unlock_resumes sending h cb cancelSrc :
  CBList.holds_first h cb -> Resume h ∈ after_unlock sending cb cancelSrc.
Proof.
  intros Hcb. unfold after_unlock, CBList.nonempty.
  destruct Hcb as (Hsize & Hrest).
  destruct (Z.eqb_spec (CBList.mSize cb) 0) as [|_]; [lia|]. cbn.
  apply resume_all_first. split; assumption.
Qed.

Lemma cancel_queued_send s slot self sl op :
  mSlots_ s !! slot = Some sl ->
  send_is_queued s slot self sl op ->
  exists s' effects,
    SendOperation2_on_stop slot self s = Some (s', effects) /\
    send_cancelled s slot self sl op s' effects.
Proof.
  intros Hslot (Hfind & Htoken & Hprog & Hhandle & Hin).
  destruct (erase_first_elem slot (mSendBuffers_ s) Hin) as (queue & Herase & Hlen).
  pose proof (getCB_holds (SendOperation2.mCH2 op) (SendOperation2.mFlushes op)
                (flushTokens s)) as Hcb.
  unfold SendOperation2_on_stop.
  rewrite Hslot. cbn [mbind option_bind]. rewrite Hfind. cbn [mbind option_bind].
  rewrite Htoken, Hprog, Hhandle. cbn [negb].
  destruct (getCB (SendOperation2.mCH2 op) (SendOperation2.mFlushes op)
              CBList.empty (flushTokens s)) as [cb tokens].
  cbn [fst] in Hcb.
  rewrite Herase. cbn [mbind option_bind].
  destruct queue as [|i queue]; cbn [length Nat.eqb];
    eexists; eexists; (split; [reflexivity|]);
    unfold send_cancelled, update_slot;
    cbn [mSlots_ mSendBuffers_ mSendStatus mRecvStatus mNumRecvs set_mSlots_
         set_mSendStatus set_flushTokens set_mSendBuffers_];
    (split; [exact Herase|]);
    (split; [exact Hlen|]);
    (split; [rewrite list_lookup_alter_eq, Hslot; reflexivity|]);
    (split; [exact (erase_iter_length _ _ _ _ Hfind)|]);
    (split; [intros j Hj; now rewrite list_lookup_alter_ne|]);
    (split; [apply elem_of_cons; now left|]);
    (split; [apply elem_of_cons; right; now apply after_unlock_resumes|]);
    repeat split.
Qed.

Lemma cancel_queued_recv s slot self sl op :
  mSlots_ s !! slot = Some sl ->
  recv_is_queued s slot self sl op ->
  exists s' effects,
    RecvOperation2_on_stop slot self s = Some (s', effects) /\
    recv_cancelled s slot self sl op s' effects.
Proof.
  intros Hslot (Hfind & Hprog & Hhandle & Hnum).
  pose proof (getCB_holds (RecvOperation2.mCH2 op) (RecvOperation2.mFlushes op)
                (flushTokens s)) as Hcb.
  unfold RecvOperation2_on_stop.
  rewrite Hslot. cbn [mbind option_bind]. rewrite Hfind. cbn [mbind option_bind].
  rewrite Hprog, Hhandle. cbn [negb].
  destruct (getCB (RecvOperation2.mCH2 op) (RecvOperation2.mFlushes op)
              CBList.empty (flushTokens s)) as [cb tokens].
  cbn [fst] in Hcb.
  destruct (Z.eqb_spec (mNumRecvs s) 0) as [|_]; [lia|].
  assert (Hdec : wrap (mNumRecvs s - 1) = mNumRecvs s - 1)
    by (apply wrap_small; unfold in_range; lia).
  cbn [mNumRecvs set_mNumRecvs]. rewrite Hdec.
  destruct (mNumRecvs s - 1 =? 0) eqn:Hzero;
    eexists; eexists; (split; [reflexivity|]);
    unfold recv_cancelled, update_slot;
    cbn [mSlots_ mSendBuffers_ mSendStatus mRecvStatus mNumRecvs set_mSlots_
         set_mRecvStatus set_flushTokens set_mNumRecvs];
    rewrite ?Hzero;
    (split; [rewrite list_lookup_alter_eq, Hslot; reflexivity|]);
    (split; [exact (erase_iter_length _ _ _ _ Hfind)|]);
    (split; [intros j Hj; now rewrite list_lookup_alter_ne|]);
    (split; [apply elem_of_cons; now left|]);
    (split; [apply elem_of_cons; right; now apply after_unlock_resumes|]);
    repeat split.
Qed.

(** C7: when the cancellation token of a send operation fires while the
    operation has [in_progress == false], the operation is removed from
    its slot's send queue and one entry of its slot is removed from the
    global pending-send list, the operation fails with
    [operation_aborted] and its completion handle is resumed, and if the
    pending-send list has become empty the send status becomes [Idle];
    for a receive operation, likewise, the operation is removed, failed
    and resumed, the recv count is decremented and the recv status
    becomes [Idle] when the count reaches zero. *)
Theorem cancel_queued_operation s slot self sl :
  mSlots_ s !! slot = Some sl ->
  (forall op,
     send_is_queued s slot self sl op ->
     exists s' effects,
       SendOperation2_on_stop slot self s = Some (s', effects) /\
       send_cancelled s slot self sl op s' effects) /\
  (forall op,
     recv_is_queued s slot self sl op ->
     exists s' effects,
       RecvOperation2_on_stop slot self s = Some (s', effects) /\
       recv_cancelled s slot self sl op s' effects).
Proof.
  intros Hslot. split; intros op Hq.
  - now apply cancel_queued_send.
  - now apply cancel_queued_recv.
Qed.

Lemma cancel_queued_operation_witness :
  mSlots_ scheduler_two_sends !! 0%nat = Some slot_two_sends /\
  send_is_queued scheduler_two_sends 0 0 slot_two_sends
    (queued_send 0 0 10 [170]) /\
  recv_is_queued scheduler_two_sends 0 0 slot_two_sends
    (queued_recv 0 0 30 4) /\
  (exists s' effects,
     SendOperation2_on_stop 0 0 scheduler_two_sends = Some (s', effects) /\
     send_cancelled scheduler_two_sends 0 0 slot_two_sends
       (queued_send 0 0 10 [170]) s' effects) /\
  (exists s' effects,
     RecvOperation2_on_stop 0 0 scheduler_two_sends = Some (s', effects) /\
     recv_cancelled scheduler_two_sends 0 0 slot_two_sends
       (queued_recv 0 0 30 4) s' effects).
Proof.
  assert (Hsend : send_is_queued scheduler_two_sends 0 0 slot_two_sends
                    (queued_send 0 0 10 [170])).
  { repeat split. apply elem_of_cons. now left. }
  assert (Hrecv : recv_is_queued scheduler_two_sends 0 0 slot_two_sends
                    (queued_recv 0 0 30 4)).
  { repeat split; cbn; unfold modulus; lia. }
  split; [reflexivity|]. split; [exact Hsend|]. split; [exact Hrecv|].
  destruct (cancel_queued_operation scheduler_two_sends 0 0 slot_two_sends
              eq_refl) as [Hs Hr].
  split; [exact (Hs _ Hsend) | exact (Hr _ Hrecv)].
Defined.

(** Cancelling the second of the two queued sends: the first stays at the
    head of the queue, one entry of the slot stays on the pending-send
    list, and the status stays [InUse]. *)
Example cancel_second_send :
  SendOperation2_on_stop 0 1 scheduler_two_sends =
  Some (set_mSendBuffers_ [0%nat]
          (set_mSlots_
             [set_mSendOps2_ [queued_send 0 0 10 [170]] slot_two_sends]
             scheduler_two_sends),
        [SetError true 0 1 operation_aborted; Resume (coroutine 11)]).
Proof. reflexivity. Qed.

(** Cancelling the only queued receive makes the recv side idle. *)
Example cancel_only_recv :
  RecvOperation2_on_stop 0 0 scheduler_two_sends =
  Some (set_mRecvStatus Idle
          (set_mNumRecvs 0
             (set_mSlots_ [set_mRecvOps2_ [] slot_two_sends]
                scheduler_two_sends)),
        [SetError false 0 0 operation_aborted; Resume (coroutine 30)]).
Proof. reflexivity. Qed.

(** *** The writer task *)

Lemma initiated_set_true i j s :
  initiated i s = true ->
  initiated i (update_slot j (set_mInitiated true) s) = true.
Proof.
  unfold initiated, update_slot. cbn [mSlots_ set_mSlots_].
  destruct (Nat.eq_dec j i) as [->|Hne].
  - rewrite list_lookup_alter_eq. destruct (mSlots_ s !! i); [reflexivity|].
    intros H; exact H.
  - now rewrite list_lookup_alter_ne.
Qed.

Lemma initiated_set_true_self j s sl :
  mSlots_ s !! j = Some sl ->
  initiated j (update_slot j (set_mInitiated true) s) = true.
Proof.
  intros Hsl. unfold initiated, update_slot. cbn [mSlots_ set_mSlots_].
  now rewrite list_lookup_alter_eq, Hsl.
Qed.

Lemma initiated_pop i j s : initiated i (pop_send_op j s) = initiated i s.
Proof.
  unfold initiated, pop_send_op, update_slot.
  cbn [mSlots_ set_mSlots_ set_mSendBuffers_].
  destruct (Nat.eq_dec j i) as [->|Hne].
  - rewrite list_lookup_alter_eq. now destruct (mSlots_ s !! i).
  - now rewrite list_lookup_alter_ne.
Qed.

Lemma send_continue_spec ec bt restoreBuffer t0 t s t' s' request :
  send_continue ec bt restoreBuffer t s = Some (t', s', request) ->
  writer_step_spec t0 s t' s'.
Proof.
  unfold send_continue. intros [= <- <- _]. unfold writer_step_spec. cbn.
  repeat split; auto; discriminate.
Qed.

Lemma send_header_step_spec ec bt restoreBuffer t0 t s t' s' request :
  send_header_step ec bt restoreBuffer t s = Some (t', s', request) ->
  writer_step_spec t0 s t' s'.
Proof.
  unfold send_header_step.
  destruct (mSlots_ s !! send_slot t) as [sl|]; [|discriminate].
  cbn [mbind option_bind]. intros [= <- <- _]. unfold writer_step_spec. cbn.
  repeat split; auto; discriminate.
Qed.

Lemma send_meta_step_spec ec bt restoreBuffer t0 t s t' s' request :
  send_at t0 <> AtMetaSend ->
  send_meta_step ec bt restoreBuffer t s = Some (t', s', request) ->
  writer_step_spec t0 s t' s'.
Proof.
  intros Hfrom. unfold send_meta_step.
  destruct (mSlots_ s !! send_slot t) as [sl|] eqn:Hsl; [|discriminate].
  cbn [mbind option_bind].
  destruct (mInitiated sl) eqn:Hinit; cbn [negb].
  - intros Hstep.
    now apply (send_header_step_spec ec bt restoreBuffer t0 t s t' s' request).
  - intros [= <- <- _]. unfold writer_step_spec. cbn [send_at send_slot].
    split; [|split].
    + intros i Hi. now apply initiated_set_true.
    + intros _. split; [assumption|]. split.
      * unfold initiated. now rewrite Hsl.
      * now apply (initiated_set_true_self _ _ sl).
    + intros Hne. now contradiction Hne.
Qed.

(** Every resumption of the writer meets [writer_step_spec]. *)
Lemma send_resume_spec t s r t' s' request :
  send_resume t s r = Some (t', s', request) ->
  writer_step_spec t s t' s'.
Proof.
  unfold send_resume.
  destruct (send_at t) eqn:Hat, r as [[iter|]|ec bt]; try discriminate.
  - destruct (mSlots_ s !! iter) as [sl|]; [|discriminate].
    cbn [mbind option_bind].
    destruct (head (mSendOps2_ sl)) as [op|]; [|discriminate].
    cbn [mbind option_bind].
    destruct (_ || _ || _); [discriminate|].
    destruct (negb _).
    + intros [= <- <- _]. unfold writer_step_spec. cbn.
      repeat split; auto; discriminate.
    + apply send_meta_step_spec. rewrite Hat. discriminate.
  - change (writer_step_spec t s t' s')
      with (writer_step_spec t (add_mBytesSent bt s) t' s').
    destruct (is_error ec).
    + apply send_continue_spec.
    + apply send_meta_step_spec. rewrite Hat. discriminate.
  - change (writer_step_spec t s t' s')
      with (writer_step_spec t (add_mBytesSent bt s) t' s').
    destruct (is_error ec).
    + apply send_continue_spec.
    + apply send_header_step_spec.
  - destruct (is_error ec).
    + change (writer_step_spec t s t' s')
        with (writer_step_spec t (add_mBytesSent bt s) t' s').
      apply send_continue_spec.
    + intros [= <- <- _]. unfold writer_step_spec. cbn.
      repeat split; auto; discriminate.
  - change (writer_step_spec t s t' s')
      with (writer_step_spec t (add_mBytesSent bt s) t' s').
    apply send_continue_spec.
Qed.

Lemma meta_sends_app slot sent sent' :
  meta_sends slot (sent ++ sent') =
  (meta_sends slot sent + meta_sends slot sent')%nat.
Proof. unfold meta_sends. now rewrite List.filter_app, length_app. Qed.

Lemma writer_invariant_start s slot :
  writer_invariant s slot (send_start s).
Proof.
  unfold writer_invariant, send_start. cbn.
  repeat split; auto; lia.
Qed.

Lemma writer_invariant_step s0 slot turn st st' :
  writer_invariant s0 slot st ->
  send_turn_step turn st = Some st' ->
  writer_invariant s0 slot st'.
Proof.
  intros (Hle & Hone & Hkeep). unfold send_turn_step.
  set (s1 := match turn_pops turn with
             | Some i => pop_send_op i (run_sched st)
             | None => run_sched st
             end).
  assert (Hs1 : forall i, initiated i s1 = initiated i (run_sched st)).
  { intros i. unfold s1. destruct (turn_pops turn); [apply initiated_pop|].
    reflexivity. }
  destruct (send_resume (run_task st) s1 (turn_response turn))
    as [[[t' s'] request']|] eqn:Hstep; [|discriminate].
  cbn [mbind option_bind]. intros [= <-].
  destruct (send_resume_spec _ _ _ _ _ _ Hstep) as (Hmono & Hmeta & Hother).
  set (sent := match run_request st, turn_response turn with
               | AwaitSockSend buffer, ResumeSockSend ec bt =>
                   [{| sent_at := send_at (run_task st);
                       sent_slot := send_slot (run_task st);
                       sent_buffer := buffer; sent_ec := ec; sent_bt := bt |}]
               | _, _ => []
               end).
  assert (Hsent : (meta_sends slot sent <= pending_meta slot (run_task st))%nat).
  { unfold sent, meta_sends, pending_meta, is_meta_send.
    destruct (run_request st), (turn_response turn); cbn; try lia.
    destruct (send_at (run_task st)); cbn; try lia.
    destruct (Nat.eqb (send_slot (run_task st)) slot); cbn; lia. }
  unfold writer_invariant. cbn [run_sent run_task run_sched].
  rewrite meta_sends_app. fold sent.
  destruct (pending_meta slot t') as [|n] eqn:Hpend.
  - split; [lia|]. split.
    + intros Hge. destruct Hone as [Hinit Hs0]; [lia|].
      split; [|assumption]. apply Hmono. now rewrite Hs1.
    + intros Hs0. apply Hmono. rewrite Hs1. now apply Hkeep.
  - unfold pending_meta in Hpend.
    destruct (send_at t') eqn:Hat; try discriminate.
    destruct (Nat.eqb_spec (send_slot t') slot) as [Hslot|]; [|discriminate].
    injection Hpend as <-.
    destruct (Hmeta eq_refl) as (Hfrom & Hclear & Hset).
    rewrite Hslot, Hs1 in Hclear. rewrite Hslot in Hset.
    assert (Hzero : (meta_sends slot (run_sent st)
                     + pending_meta slot (run_task st) = 0)%nat).
    { destruct (meta_sends slot (run_sent st)
                + pending_meta slot (run_task st))%nat eqn:Htotal;
        [reflexivity|].
      destruct Hone as [Hinit _]; [lia|]. congruence. }
    split; [lia|]. split.
    + intros _. split; [assumption|].
      destruct (initiated slot s0) eqn:Hs0; [|reflexivity].
      specialize (Hkeep eq_refl). congruence.
    + intros _. assumption.
Qed.

Lemma writer_invariant_run s0 slot turns :
  forall st st',
    writer_invariant s0 slot st ->
    send_run turns st = Some st' ->
    writer_invariant s0 slot st'.
Proof.
  induction turns as [|turn turns IH]; intros st st' Hinv Hrun; cbn in Hrun.
  - now injection Hrun as <-.
  - destruct (send_turn_step turn st) as [st1|] eqn:Hstep; [|discriminate].
    apply (IH st1 st'); [|assumption].
    now apply (writer_invariant_step s0 slot turn st).
Qed.

(** X12: in every run of the writer, whatever the stream and [NextSendOp]
    answer: the transmission of a NewSlot meta frame is begun at most once
    for a slot; once it has begun the slot's [mInitiated] flag is set, and
    it was clear at the start; for a slot whose flag was set at the start
    no meta frame is sent. *)
Theorem writer_meta_at_most_once s turns st slot :
  send_run turns (send_start s) = Some st ->
  (meta_sends slot (run_sent st) <= 1)%nat /\
  (meta_sends slot (run_sent st) = 1%nat ->
     initiated slot (run_sched st) = true /\ initiated slot s = false) /\
  (initiated slot s = true ->
     meta_sends slot (run_sent st) = 0%nat /\
     initiated slot (run_sched st) = true).
Proof.
  intros Hrun.
  destruct (writer_invariant_run s slot turns _ _
              (writer_invariant_start s slot) Hrun) as (Hle & Hone & Hkeep).
  split; [lia|]. split.
  - intros H1. apply Hone. lia.
  - intros Hs. split; [|now apply Hkeep].
    destruct (meta_sends slot (run_sent st)) eqn:Hm; [reflexivity|].
    destruct Hone as [_ Hclear]; [lia|]. congruence.
Qed.

Lemma length_le_bytes n z : length (le_bytes n z) = n.
Proof. revert z. induction n as [|n IH]; intros z; cbn; [|rewrite IH]; reflexivity. Qed.

Lemma length_Header_bytes h : length (Header_bytes h) = 8%nat.
Proof. unfold Header_bytes. now rewrite length_app, !length_le_bytes. Qed.

Lemma take_all (bs : bytes) (n : Z) :
  n = Z.of_nat (length bs) -> take (Z.to_nat n) bs = bs.
Proof. intros ->. apply take_ge. lia. Qed.

(** X13: when every write completes, an operation at the head of a slot's
    queue is put on the stream as its data frame, preceded by the NewSlot
    meta frame of the slot exactly when the slot was not announced yet;
    the slot is announced afterwards and the restore buffer is empty. *)
Lemma writer_writes_frame t s slot sl op rest :
  send_at t = AtNextSendOp ->
  send_restoreBuffer t = [] ->
  mSlots_ s !! slot = Some sl ->
  mSendOps2_ sl = op :: rest ->
  0 < Z.of_nat (length (sb_data (SendOperation2.mSendBuff op))) < u32_max ->
  mLocalId sl <> u32_max ->
  well_formed_SessionID (mSessionID sl) ->
  length (ControlBlock.data (scb_mCtrlBlk (mSendControlBlock2 s))) = 16%nat ->
  exists st,
    send_run
      (written_in_full slot
         (Z.of_nat (length (sb_data (SendOperation2.mSendBuff op))))
         (negb (mInitiated sl)))
      {| run_task := t; run_sched := s;
         run_request := AwaitNextSendOp (send_ec t); run_sent := [] |}
      = Some st /\
    wire (run_sent st) =
      (if mInitiated sl then [] else meta_frame sl)
      ++ data_header sl (sb_data (SendOperation2.mSendBuff op))
      ++ sb_data (SendOperation2.mSendBuff op) /\
    initiated slot (run_sched st) = true /\
    run_request st = AwaitNextSendOp success /\
    send_restoreBuffer (run_task st) = [].
Proof.
  intros Hat Hrestore Hslot Hops Hsize Hid Hsid Hctrl.
  set (data := sb_data (SendOperation2.mSendBuff op)) in *.
  assert (Hguard :
    (Z.of_nat (length data) =? 0)
    || negb (Z.of_nat (length data) <? u32_max)
    || (mLocalId sl =? u32_max) = false).
  { destruct (Z.eqb_spec (Z.of_nat (length data)) 0); [lia|].
    destruct (Z.ltb_spec (Z.of_nat (length data)) u32_max); [|lia].
    destruct (Z.eqb_spec (mLocalId sl) u32_max); [contradiction|].
    reflexivity. }
  unfold written_in_full.
  destruct (mInitiated sl) eqn:Hinit; cbn [negb app].
  - (* the slot is announced: header and payload *)
    cbn [send_run]. unfold send_turn_step at 1.
    cbn [turn_pops turn_response run_task run_sched run_request run_sent].
    unfold send_resume at 1. rewrite Hat, Hslot. cbn [mbind option_bind].
    rewrite Hops. cbn [head mbind option_bind]. fold data. rewrite Hguard.
    rewrite Hrestore. change (negb (Z.of_nat (length (@nil Z)) =? 0)) with false.
    cbv iota.
    unfold send_meta_step. cbn [send_slot]. rewrite Hslot.
    cbn [mbind option_bind]. rewrite Hinit. cbn [negb].
    unfold send_header_step. cbn [send_slot send_data]. rewrite Hslot.
    cbn [mbind option_bind app].
    unfold send_turn_step at 1.
    cbn [turn_pops turn_response run_task run_sched run_request run_sent
         send_at send_resume is_error mbind option_bind app].
    unfold send_turn_step at 1.
    cbn [turn_pops turn_response run_task run_sched run_request run_sent
         send_at send_resume is_error send_continue mbind option_bind app
         send_data send_slot].
    eexists. split; [reflexivity|].
    cbn [run_sent run_sched run_request run_task send_restoreBuffer].
    split; [|split; [|split]].
    + unfold wire. cbn [fmap list_fmap concat sent_bt sent_buffer app].
      rewrite app_nil_r. unfold getSendHeader. cbn [mSendHeader set_mSendHeader].
      rewrite (take_all _ 8) by (now rewrite length_Header_bytes).
      now rewrite (take_all data) by reflexivity.
    + unfold initiated, add_mBytesSent. cbn [mSlots_ set_mBytesSent set_mSendHeader].
      now rewrite Hslot.
    + reflexivity.
    + cbn [is_aborted andb]. reflexivity.
  - (* the slot is announced by this operation: meta frame first *)
    assert (Hslot' :
      mSlots_ (update_slot slot (set_mInitiated true) s) !! slot
      = Some (set_mInitiated true sl)).
    { unfold update_slot. cbn [mSlots_ set_mSlots_].
      now rewrite list_lookup_alter_eq, Hslot. }
    cbn [send_run]. unfold send_turn_step at 1.
    cbn [turn_pops turn_response run_task run_sched run_request run_sent].
    unfold send_resume at 1. rewrite Hat, Hslot. cbn [mbind option_bind].
    rewrite Hops. cbn [head mbind option_bind]. fold data. rewrite Hguard.
    rewrite Hrestore. change (negb (Z.of_nat (length (@nil Z)) =? 0)) with false.
    cbv iota.
    unfold send_meta_step. cbn [send_slot]. rewrite Hslot.
    cbn [mbind option_bind]. rewrite Hinit. cbn [negb mbind option_bind app].
    unfold send_turn_step at 1.
    cbn [turn_pops turn_response run_task run_sched run_request run_sent
         send_at send_resume is_error mbind option_bind app].
    unfold send_header_step. cbn [send_slot send_data].
    cbn [mSlots_ add_mBytesSent set_mBytesSent set_mSendControlBlock2].
    rewrite Hslot'.
    cbn [mbind option_bind app].
    unfold send_turn_step at 1.
    cbn [turn_pops turn_response run_task run_sched run_request run_sent
         send_at send_resume is_error mbind option_bind app].
    unfold send_turn_step at 1.
    cbn [turn_pops turn_response run_task run_sched run_request run_sent
         send_at send_resume is_error send_continue mbind option_bind app
         send_data send_slot].
    eexists. split; [reflexivity|].
    cbn [run_sent run_sched run_request run_task send_restoreBuffer].
    split; [|split; [|split]].
    + unfold wire. cbn [fmap list_fmap concat sent_bt sent_buffer app].
      rewrite app_nil_r. unfold getSendHeader, getSendCtrlBlk2.
      cbn [mSendHeader set_mSendHeader mSendControlBlock2
           set_mSendControlBlock2 scb_mHeader scb_mCtrlBlk mLocalId
           set_mInitiated].
      unfold ControlBlock.setSessionID, ControlBlock.setType,
        ControlBlock.memcpy. cbn [ControlBlock.data].
      unfold update_slot. cbn [mSendControlBlock2 set_mSlots_].
      rewrite (drop_ge (ControlBlock.data _)) by lia. rewrite app_nil_r.
      fold (meta_frame sl). unfold data_header.
      rewrite (take_all (meta_frame sl) 24).
      2: { unfold meta_frame. rewrite length_app, length_Header_bytes.
           rewrite length_take. unfold well_formed_SessionID in Hsid. lia. }
      rewrite (take_all _ 8) by (now rewrite length_Header_bytes).
      now rewrite (take_all data) by reflexivity.
    + unfold initiated, add_mBytesSent.
      cbn [mSlots_ set_mBytesSent set_mSendHeader set_mSendControlBlock2].
      now rewrite Hslot'.
    + reflexivity.
    + cbn [is_aborted andb]. reflexivity.
Qed.

(** Two sends on a fresh fork, both written in full: the stream carries
    the NewSlot meta frame of the fork, then the two data frames. *)
Example writer_two_sends_run :
  exists st,
    send_run two_sends_turns (send_start scheduler_two_sends) = Some st /\
    run_request st = AwaitNextSendOp success /\
    meta_sends 0 (run_sent st) = 1%nat /\
    wire (run_sent st) =
      meta_frame slot_two_sends
      ++ data_header slot_two_sends [170] ++ [170]
      ++ data_header slot_two_sends [187; 204] ++ [187; 204] /\
    frames_of (wire (run_sent st)) =
      Some [MetaFrame 1 (mVal sid_A); DataFrame 1 [170];
            DataFrame 1 [187; 204]].
Proof.
  eexists. split; [vm_compute; reflexivity|].
  repeat split; vm_compute; reflexivity.
Qed.

(** A write of the meta frame that is aborted before its first byte
    leaves the task as it found it: nothing is added to the restore
    buffer, and no flag changes, so the slot stays marked as announced. *)
Lemma writer_meta_abort_keeps_flag t s :
  send_at t = AtMetaSend ->
  exists t' s',
    send_resume t s (ResumeSockSend operation_aborted 0)
      = Some (t', s', AwaitNextSendOp operation_aborted) /\
    send_restoreBuffer t' = send_restoreBuffer t /\
    mSlots_ s' = mSlots_ s.
Proof.
  intros Hat. unfold send_resume. rewrite Hat. cbn.
  eexists. eexists. repeat split.
Qed.

(** C3, the run on which the writer departs from it: the first send on a
    fresh fork is cancelled while its NewSlot meta frame is being
    written, and the stream aborts the write before any byte is out.
    [mInitiated] was set before the write and stays set, and nothing is
    put in the restore buffer; the second send of the fork then goes out
    as a data frame.  The stream carries that data frame for slot id 1
    and no NewSlot meta frame at all, although the transmission of one
    was begun. *)
Theorem writer_meta_abort_run :
  exists st,
    send_run meta_abort_turns (send_start scheduler_two_sends) = Some st /\
    run_request st = AwaitNextSendOp success /\
    send_restoreBuffer (run_task st) = [] /\
    initiated 0 (run_sched st) = true /\
    meta_sends 0 (run_sent st) = 1%nat /\
    wire (run_sent st) = data_header slot_two_sends [187; 204] ++ [187; 204] /\
    frames_of (wire (run_sent st)) = Some [DataFrame 1 [187; 204]].
Proof.
  eexists. split; [vm_compute; reflexivity|].
  repeat split; vm_compute; reflexivity.
Qed.

(** *** The receiver task *)

(** The task's part of a size mismatch: [ec = code::cancel; continue;]
    with [slot] and [op] set to the requested slot and the head of its
    queue; the scheduler is as it was but for [mHaveRecvHeader]. *)
Lemma recv_size_mismatch_step initRemoteSlot t s slot sl op :
  recv_at t = AtGetRequestedRecvSlot ->
  mClosed s = false ->
  mSlots_ s !! slot = Some sl ->
  head (mRecvOps2_ sl) = Some op ->
  Z.of_nat (length (rb_data (RecvOperation2.mRecvBuffer op)))
    <> getRecvHeaderSize s ->
  exists t',
    recv_resume initRemoteSlot t s (ResumeRequestedRecvSlot (Some slot)) =
      Some (t', set_mHaveRecvHeader false s, AwaitAnyRecvOp cancel) /\
    recv_at t' = AtAnyRecvOp /\
    recv_ec t' = cancel /\
    recv_slot t' = slot /\
    recv_op t' = RecvOperation2.mSelfIter op.
Proof.
  intros Hat Hclosed Hslot Hhead Hsize.
  unfold recv_resume. rewrite Hat.
  cbn [mClosed set_mHaveRecvHeader mSlots_]. rewrite Hclosed, Hslot.
  cbn [mbind option_bind]. rewrite Hhead. cbn [mbind option_bind].
  unfold asSpan_size, getRecvHeaderSize in *.
  cbn [mRecvHeader set_mHaveRecvHeader].
  destruct (Z.eqb_spec
              (Z.of_nat (length (rb_data (RecvOperation2.mRecvBuffer op))))
              (mRecvHeader s).1) as [Heq|_]; [contradiction|].
  cbn [negb]. unfold recv_continue. eexists. split; [reflexivity|].
  repeat split.
Qed.

(** The operation at the head of a queue is reached through its own
    iterator. *)
Lemma update_recv_op_head slot f s sl op :
  mSlots_ s !! slot = Some sl ->
  head (mRecvOps2_ sl) = Some op ->
  exists sl',
    mSlots_ (update_recv_op slot (RecvOperation2.mSelfIter op) f s) !! slot
      = Some sl' /\
    head (mRecvOps2_ sl') = Some (f op).
Proof.
  intros Hslot Hhead. unfold update_recv_op, update_slot.
  cbn [mSlots_ set_mSlots_].
  rewrite list_lookup_alter_eq, Hslot. cbn [fmap option_fmap option_map].
  eexists. split; [reflexivity|]. cbn [mRecvOps2_ set_mRecvOps2_].
  destruct (mRecvOps2_ sl) as [|o ops]; [discriminate|].
  injection Hhead as ->. cbn [fmap list_fmap head].
  now rewrite Nat.eqb_refl.
Qed.

(** C2 (amended): in the receiver task, whenever the scheduler is not
    closed and the declared buffer size of the head receive operation of
    the requested slot disagrees with the size in the data-frame header,
    that operation is failed with the error [cancel] (not
    [badCoprotoMessageHeader]) and the scheduler is closed: the task goes
    back to [anyRecvOp(this, ec)] with [ec = code::cancel], its [slot]
    and [op] naming the operation, and the awaiter then fails that
    operation with the code and closes the scheduler. *)
Theorem recv_size_mismatch initRemoteSlot t s slot sl op :
  recv_at t = AtGetRequestedRecvSlot ->
  mClosed s = false ->
  mSlots_ s !! slot = Some sl ->
  head (mRecvOps2_ sl) = Some op ->
  Z.of_nat (length (rb_data (RecvOperation2.mRecvBuffer op)))
    <> getRecvHeaderSize s ->
  exists t' s' sl',
    recv_resume initRemoteSlot t s (ResumeRequestedRecvSlot (Some slot)) =
      Some (t', s', AwaitAnyRecvOp cancel) /\
    let closed_s := anyRecvOp_settle cancel (recv_slot t') (recv_op t') s' in
    mSlots_ closed_s !! slot = Some sl' /\
    head (mRecvOps2_ sl') = Some (failed_with cancel op) /\
    rb_error (RecvOperation2.mRecvBuffer (failed_with cancel op))
      = Some cancel /\
    mClosed closed_s = true.
Proof.
  intros Hat Hclosed Hslot Hhead Hsize.
  destruct (recv_size_mismatch_step initRemoteSlot t s slot sl op
              Hat Hclosed Hslot Hhead Hsize)
    as (t' & Hres & _ & _ & Hslot' & Hop').
  destruct (update_recv_op_head slot (failed_with cancel)
              (set_mHaveRecvHeader false s) sl op Hslot Hhead)
    as (sl' & Hsl' & Hhead').
  exists t', (set_mHaveRecvHeader false s), sl'.
  split; [exact Hres|]. cbv zeta. rewrite Hslot', Hop'.
  unfold anyRecvOp_settle. cbn [is_error is_aborted negb andb].
  split; [exact Hsl'|]. split; [exact Hhead'|]. split; reflexivity.
Qed.

Lemma recv_size_mismatch_witness :
  recv_at RecvTask_at_slot = AtGetRequestedRecvSlot /\
  mClosed scheduler_header_8 = false /\
  mSlots_ scheduler_header_8 !! 0%nat = Some slot_two_sends /\
  head (mRecvOps2_ slot_two_sends) = Some (queued_recv 0 0 30 4) /\
  Z.of_nat (length (rb_data (RecvOperation2.mRecvBuffer (queued_recv 0 0 30 4))))
    <> getRecvHeaderSize scheduler_header_8 /\
  exists t' s' sl',
    recv_resume initRemoteSlot_accept RecvTask_at_slot scheduler_header_8
      (ResumeRequestedRecvSlot (Some 0%nat)) =
      Some (t', s', AwaitAnyRecvOp cancel) /\
    let closed_s := anyRecvOp_settle cancel (recv_slot t') (recv_op t') s' in
    mSlots_ closed_s !! 0%nat = Some sl' /\
    head (mRecvOps2_ sl') = Some (failed_with cancel (queued_recv 0 0 30 4)) /\
    rb_error
      (RecvOperation2.mRecvBuffer (failed_with cancel (queued_recv 0 0 30 4)))
      = Some cancel /\
    mClosed closed_s = true.
Proof.
  assert (Hsize :
    Z.of_nat (length (rb_data (RecvOperation2.mRecvBuffer
                                 (queued_recv 0 0 30 4))))
      <> getRecvHeaderSize scheduler_header_8) by (cbn; lia).
  split; [reflexivity|]. split; [reflexivity|]. split; [reflexivity|].
  split; [reflexivity|]. split; [exact Hsize|].
  apply (recv_size_mismatch initRemoteSlot_accept RecvTask_at_slot
           scheduler_header_8 0 slot_two_sends (queued_recv 0 0 30 4));
    try reflexivity.
  exact Hsize.
Defined.

(** A frame of 8 bytes for a receive of 4 bytes: the task does not go back
    to [anyRecvOp] with [badCoprotoMessageHeader]. *)
Lemma recv_size_mismatch_counterexample :
  recv_next_request
    (recv_resume initRemoteSlot_accept RecvTask_at_slot scheduler_header_8
       (ResumeRequestedRecvSlot (Some 0%nat)))
  <> Some (AwaitAnyRecvOp badCoprotoMessageHeader).
Proof. vm_compute. intros H. discriminate H. Qed.

Example recv_size_mismatch_is_cancel :
  recv_next_request
    (recv_resume initRemoteSlot_accept RecvTask_at_slot scheduler_header_8
       (ResumeRequestedRecvSlot (Some 0%nat)))
  = Some (AwaitAnyRecvOp cancel).
Proof. reflexivity. Qed.

(** [badCoprotoMessageHeader] is the answer to a header for which
    [getRequestedRecvSlot] finds no slot. *)
Lemma recv_no_slot initRemoteSlot t s :
  recv_at t = AtGetRequestedRecvSlot ->
  mClosed s = false ->
  recv_next_request
    (recv_resume initRemoteSlot t s (ResumeRequestedRecvSlot None))
  = Some (AwaitAnyRecvOp badCoprotoMessageHeader).
Proof.
  intros Hat Hclosed. unfold recv_resume. rewrite Hat.
  cbn [mClosed set_mHaveRecvHeader]. rewrite Hclosed. reflexivity.
Qed.

(** On a closed scheduler the sizes are not compared: whatever slot is
    requested, the task goes back to [anyRecvOp] with [closed]. *)
Lemma recv_closed_first initRemoteSlot t s iter :
  recv_at t = AtGetRequestedRecvSlot ->
  mClosed s = true ->
  recv_next_request
    (recv_resume initRemoteSlot t s (ResumeRequestedRecvSlot iter))
  = Some (AwaitAnyRecvOp closed).
Proof.
  intros Hat Hclosed. unfold recv_resume. rewrite Hat.
  cbn [mClosed set_mHaveRecvHeader]. rewrite Hclosed. reflexivity.
Qed.

(** When the sizes agree the payload is read into the operation's buffer,
    under the recv-side stop token. *)
Lemma recv_size_match initRemoteSlot t s slot sl op :
  recv_at t = AtGetRequestedRecvSlot ->
  mClosed s = false ->
  mSlots_ s !! slot = Some sl ->
  head (mRecvOps2_ sl) = Some op ->
  Z.of_nat (length (rb_data (RecvOperation2.mRecvBuffer op)))
    = getRecvHeaderSize s ->
  recv_next_request
    (recv_resume initRemoteSlot t s (ResumeRequestedRecvSlot (Some slot)))
  = Some (AwaitSockRecv (getRecvHeaderSize s) true).
Proof.
  intros Hat Hclosed Hslot Hhead Hsize.
  unfold recv_resume. rewrite Hat.
  cbn [mClosed set_mHaveRecvHeader mSlots_]. rewrite Hclosed, Hslot.
  cbn [mbind option_bind]. rewrite Hhead. cbn [mbind option_bind].
  unfold asSpan_size, getRecvHeaderSize in *.
  cbn [mRecvHeader set_mHaveRecvHeader]. rewrite Hsize, Z.eqb_refl.
  reflexivity.
Qed.

End SchedulerFacts.

(** ** The sequencer: claiming, publishing and waking *)

Section SequencerMore.
Import Word Sequencer.

(** *** Claims in sequence *)

Lemma awaited_claims_cons count counts s :
  awaited_claims (count :: counts) s =
  let c := if count <? buffer_size s then count else buffer_size s in
  let s1 := snd (fetch_add_nextToClaim c s) in
  ({| range_begin := m_nextToClaim s;
      range_end := wrap (m_nextToClaim s + c) |}
     :: fst (awaited_claims counts s1),
   snd (awaited_claims counts s1)).
Proof.
  cbn [awaited_claims].
  unfold bind, claim_up_to, claim_co_await, get_buffer_size, ret,
    fetch_add_nextToClaim, bind, claim_await_resume.
  cbn [m_count m_claimedRange snd].
  destruct (awaited_claims counts _). reflexivity.
Qed.

(** X1: the ranges handed out by any sequence of awaited [claim_up_to]
    calls follow one another without gap or overlap, from the old
    [m_nextToClaim] to the new one; each has [min(count, N)] elements;
    claiming touches neither the published array nor the awaiters. *)
Theorem awaited_claims_chained counts s :
  chained (m_nextToClaim s) (fst (awaited_claims counts s))
    (m_nextToClaim (snd (awaited_claims counts s))) /\
  Forall2 (fun count r => range_size r = wrap (Z.min count (buffer_size s)))
    counts (fst (awaited_claims counts s)) /\
  m_sequenceMask (snd (awaited_claims counts s)) = m_sequenceMask s /\
  m_published (snd (awaited_claims counts s)) = m_published s /\
  m_awaiters (snd (awaited_claims counts s)) = m_awaiters s.
Proof.
  revert s. induction counts as [|count counts IH]; intros s.
  - cbn. repeat split. constructor.
  - rewrite awaited_claims_cons. cbv zeta.
    set (c := if count <? buffer_size s then count else buffer_size s).
    set (s1 := snd (fetch_add_nextToClaim c s)).
    destruct (IH s1) as (Hchain & Hsizes & Hmask & Hpub & Haw).
    cbn [fst snd chained range_begin range_end].
    assert (Hn : buffer_size s1 = buffer_size s) by reflexivity.
    repeat split; try assumption.
    constructor.
    + unfold range_size. cbn [range_begin range_end].
      rewrite wrap_wrap_sub. f_equal.
      subst c. destruct (Z.ltb_spec count (buffer_size s)); lia.
    + rewrite Hn in Hsizes. exact Hsizes.
Qed.

(** *** [any_available] *)

(** X2: with [claimed] sequence numbers claimed beyond the consumer's
    position, [any_available()] is true exactly when [claimed + 1 < N]. *)
Theorem any_available_iff s consumed claimed :
  well_formed s -> 0 <= claimed < max_diff ->
  m_nextToClaim s = wrap (consumed + 1 + claimed) ->
  any_available consumed s = true <-> claimed + 1 < buffer_size s.
Proof.
  intros (Hp & Hle & _) Hc Hnext.
  pose proof (is_pow2_pos _ Hp) as Hpos.
  unfold any_available, precedes. rewrite Hnext.
  replace (consumed + 1 + claimed) with (consumed + (1 + claimed)) by lia.
  rewrite difference_offset_wrap by (unfold max_diff in *; lia).
  rewrite Z.ltb_lt. lia.
Qed.

Lemma any_available_iff_witness :
  well_formed ring4 /\ 0 <= 0 < max_diff /\
  m_nextToClaim ring4 = wrap (0 + 1 + 0) /\
  (any_available 0 ring4 = true <-> 0 + 1 < buffer_size ring4).
Proof.
  split; [exact ring4_well_formed|].
  split; [unfold max_diff; lia|].
  split; [reflexivity|].
  apply (any_available_iff ring4 0 0).
  - exact ring4_well_formed.
  - unfold max_diff. lia.
  - reflexivity.
Defined.

(** *** [publish] *)

Lemma length_store_each mask seqs published :
  length (store_each mask seqs published) = length published.
Proof.
  revert published. induction seqs as [|q seqs IH]; intros published.
  - reflexivity.
  - cbn [store_each]. rewrite IH. apply length_store.
Qed.

Lemma store_each_app mask seqs seqs' published :
  store_each mask (seqs ++ seqs') published
  = store_each mask seqs' (store_each mask seqs published).
Proof.
  revert published. induction seqs as [|q seqs IH]; intros published.
  - reflexivity.
  - cbn [store_each app]. apply IH.
Qed.

(** Stores to other slots leave a slot as it was. *)
Lemma load_store_each_other mask seqs published i :
  0 <= i -> (forall q, In q seqs -> 0 <= Z.land q mask /\ Z.land q mask <> i) ->
  load (store_each mask seqs published) i = load published i.
Proof.
  intros Hi. revert published.
  induction seqs as [|q seqs IH]; intros published Hother.
  - reflexivity.
  - cbn [store_each]. rewrite IH.
    + destruct (Hother q (or_introl eq_refl)).
      apply load_store_ne; assumption.
    + intros q' Hq'. apply Hother. now right.
Qed.

(** After stores to pairwise different slots, each slot written holds
    the sequence number stored to it. *)
Lemma load_store_each_in mask seqs published q :
  NoDup (List.map (fun q => Z.land q mask) seqs) ->
  (forall q, In q seqs -> 0 <= Z.land q mask < Z.of_nat (length published)) ->
  In q seqs ->
  load (store_each mask seqs published) (Z.land q mask) = q.
Proof.
  revert published. induction seqs as [|q0 seqs IH];
    intros published Hnodup Hbound Hin.
  - destruct Hin.
  - cbn [store_each]. cbn [List.map] in Hnodup.
    apply NoDup_cons in Hnodup as [Hfresh Hnodup].
    destruct Hin as [->|Hin].
    + rewrite load_store_each_other.
      * apply load_store_eq. apply Hbound. now left.
      * apply Hbound. now left.
      * intros q' Hq'. split.
        -- apply (Hbound q'). now right.
        -- intros Heq. apply Hfresh. rewrite <- Heq. apply list_elem_of_In.
           apply (in_map (fun q => Z.land q mask)). exact Hq'.
    + apply IH; [assumption| |assumption].
      intros q' Hq'. rewrite length_store. apply Hbound. now right.
Qed.

(** In a well-formed ring, up to [N] consecutive sequence numbers fall
    into different slots. *)
Lemma slots_differ s b i j :
  well_formed s -> 0 <= i < buffer_size s -> 0 <= j < buffer_size s ->
  Z.land (wrap (b + i)) (m_sequenceMask s)
  = Z.land (wrap (b + j)) (m_sequenceMask s) ->
  i = j.
Proof.
  intros Hwf Hi Hj Heq. rewrite !well_formed_mask in Heq by assumption.
  pose proof Hwf as (Hp & _). pose proof (is_pow2_pos _ Hp) as Hpos.
  set (n := buffer_size s) in *.
  assert (H : (b + i - (b + j)) mod n = 0).
  { rewrite Zminus_mod, Heq, Z.sub_diag. apply Zmod_0_l. }
  replace (b + i - (b + j)) with (i - j) in H by lia.
  apply Z.mod_divide in H; [|lia]. destruct H as [c Hc].
  assert (c = 0) by nia. lia.
Qed.

Lemma slot_bound s x :
  well_formed s ->
  0 <= Z.land (wrap x) (m_sequenceMask s) < Z.of_nat (length (m_published s)).
Proof.
  intros Hwf. rewrite well_formed_mask by assumption.
  pose proof Hwf as (Hp & _ & _ & Hlen). rewrite Hlen.
  apply Z.mod_pos_bound. now apply is_pow2_pos.
Qed.

(** The sequence numbers that [publish(range)] stores with relaxed
    order, for a range of [n] numbers from [b]. *)
Lemma range_skip_elements b n :
  in_range b -> 0 < n < modulus ->
  range_elements (range_skip 1 {| range_begin := b; range_end := wrap (b + n) |})
  = List.map (fun i : nat => wrap (b + 1 + Z.of_nat i))
      (List.seq 0 (Z.to_nat (n - 1))).
Proof.
  intros Hb Hn.
  assert (Hsize : range_size {| range_begin := b; range_end := wrap (b + n) |} = n).
  { unfold range_size. cbn [range_begin range_end].
    rewrite wrap_wrap_sub. replace (b + n - b) with n by lia.
    apply wrap_small. unfold in_range. lia. }
  unfold range_skip. rewrite Hsize. cbn [range_begin range_end].
  destruct (Z.ltb_spec 1 n) as [Hlt|Hge].
  - unfold range_elements, range_size. cbn [range_begin range_end].
    rewrite wrap_wrap_sub, wrap_sub_wrap.
    replace (b + n - (b + 1)) with (n - 1) by lia.
    rewrite (wrap_small (n - 1)) by (unfold in_range; lia).
    apply map_ext. intros i. now rewrite wrap_wrap_add.
  - assert (n = 1) as -> by lia.
    unfold range_elements, range_size. cbn [range_begin range_end].
    rewrite Z.sub_diag. reflexivity.
Qed.

Lemma range_nonempty b n :
  in_range b -> 0 < n < modulus ->
  range_empty {| range_begin := b; range_end := wrap (b + n) |} = false.
Proof.
  intros Hb Hn. unfold range_empty. cbn [range_begin range_end].
  apply Z.eqb_neq. intros Heq.
  apply (wrap_offset_neq b n); [lia|].
  rewrite <- Heq. symmetry. now apply wrap_small.
Qed.

(** The array after [publish(range)] is the array after storing the
    range's sequence numbers, the first one last. *)
Lemma publish_range_store_published s b n :
  in_range b -> 0 < n < modulus ->
  m_published
    (publish_range_store {| range_begin := b; range_end := wrap (b + n) |} s)
  = store_each (m_sequenceMask s)
      (List.map (fun i : nat => wrap (b + 1 + Z.of_nat i))
         (List.seq 0 (Z.to_nat (n - 1))) ++ [b])
      (m_published s).
Proof.
  intros Hb Hn. unfold publish_range_store.
  rewrite range_nonempty by assumption.
  cbn [m_published]. rewrite range_skip_elements by assumption.
  rewrite store_each_app. reflexivity.
Qed.

Lemma publish_range_store_mask r s :
  m_sequenceMask (publish_range_store r s) = m_sequenceMask s.
Proof. unfold publish_range_store. now destruct (range_empty r). Qed.

Lemma publish_range_store_awaiters r s :
  m_awaiters (publish_range_store r s) = m_awaiters s.
Proof. unfold publish_range_store. now destruct (range_empty r). Qed.

Lemma publish_range_store_well_formed s b n :
  well_formed s -> in_range b -> 0 < n < modulus ->
  well_formed
    (publish_range_store {| range_begin := b; range_end := wrap (b + n) |} s).
Proof.
  intros Hwf Hb Hn. unfold well_formed, buffer_size.
  rewrite publish_range_store_mask, publish_range_store_published,
    length_store_each by assumption.
  exact Hwf.
Qed.

Lemma published_order_in b n j :
  in_range b -> 0 <= j < n ->
  In (wrap (b + j))
    (List.map (fun i : nat => wrap (b + 1 + Z.of_nat i))
       (List.seq 0 (Z.to_nat (n - 1))) ++ [b]).
Proof.
  intros Hb Hj. apply in_or_app.
  destruct (Z.eq_dec j 0) as [->|Hne].
  - right. left. rewrite Z.add_0_r. symmetry. now apply wrap_small.
  - left. apply in_map_iff. exists (Z.to_nat (j - 1)). split.
    + f_equal. lia.
    + apply in_seq. lia.
Qed.

Lemma published_order_inv b n q :
  in_range b -> 0 < n ->
  In q (List.map (fun i : nat => wrap (b + 1 + Z.of_nat i))
          (List.seq 0 (Z.to_nat (n - 1))) ++ [b]) ->
  exists j, 0 <= j < n /\ q = wrap (b + j).
Proof.
  intros Hb Hn Hin. apply in_app_or in Hin as [Hin|[<-|[]]].
  - apply in_map_iff in Hin as (i & <- & Hi). apply in_seq in Hi.
    exists (1 + Z.of_nat i). split; [lia|]. f_equal. lia.
  - exists 0. split; [lia|]. rewrite Z.add_0_r. symmetry. now apply wrap_small.
Qed.

Lemma published_order_nodup s b n :
  well_formed s -> in_range b -> 0 < n <= buffer_size s ->
  NoDup (List.map (fun q => Z.land q (m_sequenceMask s))
           (List.map (fun i : nat => wrap (b + 1 + Z.of_nat i))
              (List.seq 0 (Z.to_nat (n - 1))) ++ [b])).
Proof.
  intros Hwf Hb Hn.
  rewrite map_app, map_map. cbn [List.map].
  apply NoDup_app. split; [|split].
  - apply NoDup_fmap_2_strong; [|apply NoDup_seq].
    intros i j Hi Hj Heq.
    apply elem_of_seq in Hi. apply elem_of_seq in Hj.
    replace (b + 1 + Z.of_nat i) with (b + (1 + Z.of_nat i)) in Heq by lia.
    replace (b + 1 + Z.of_nat j) with (b + (1 + Z.of_nat j)) in Heq by lia.
    apply slots_differ in Heq; [lia|assumption|lia|lia].
  - intros x Hx Hb'. apply list_elem_of_singleton in Hb'. subst x.
    apply list_elem_of_fmap in Hx as (i & Heq & Hi).
    apply elem_of_seq in Hi.
    rewrite <- (wrap_small b Hb) in Heq at 1.
    replace (wrap b) with (wrap (b + 0)) in Heq by (f_equal; lia).
    replace (b + 1 + Z.of_nat i) with (b + (1 + Z.of_nat i)) in Heq by lia.
    apply slots_differ in Heq; [lia|assumption|lia|lia].
  - apply NoDup_singleton.
Qed.

Lemma publish_range_store_matches s b n j :
  well_formed s -> in_range b -> 0 < n <= buffer_size s -> 0 <= j < n ->
  published_matches
    (publish_range_store {| range_begin := b; range_end := wrap (b + n) |} s)
    (wrap (b + j)).
Proof.
  intros Hwf Hb Hn Hj. pose proof Hwf as (_ & Hle & _).
  assert (Hnmod : 0 < n < modulus) by (unfold max_diff, modulus in *; lia).
  unfold published_matches.
  rewrite publish_range_store_mask, publish_range_store_published
    by assumption.
  apply load_store_each_in.
  - now apply published_order_nodup.
  - intros q Hq. apply published_order_inv in Hq as (i & _ & ->);
      [|assumption|lia].
    now apply slot_bound.
  - now apply published_order_in.
Qed.

(** [last_published_after] returns on every well-formed sequencer: the
    end of the run of published numbers after [lkp]. *)
Lemma last_published_after_run s lkp :
  well_formed s -> in_range lkp ->
  exists k, 0 <= k <= buffer_size s /\
    last_published_after s lkp = Some (wrap (lkp + k)) /\
    (forall j, 0 < j <= k -> published_matches s (wrap (lkp + j))) /\
    ~ published_matches s (wrap (lkp + k + 1)).
Proof.
  intros Hwf Hlkp. pose proof Hwf as (_ & _ & _ & Hlen).
  destruct (scan_published_spec s lkp (S (length (m_published s))) Hwf 0)
    as (k & Hk & Hscan & Hall & Hstop); [lia|intros j Hj; lia|lia|].
  exists k. split.
  - split; [assumption|].
    now apply (matches_at_most_buffer_size s lkp k).
  - split; [|now split].
    unfold last_published_after.
    rewrite !Z.add_0_r in Hscan. rewrite (wrap_small lkp Hlkp) in Hscan.
    exact Hscan.
Qed.

(** A run of [n] published numbers after [lkp] is covered by the result. *)
Lemma last_published_after_covers s lkp n :
  well_formed s -> in_range lkp -> 0 <= n ->
  (forall j, 0 < j <= n -> published_matches s (wrap (lkp + j))) ->
  exists k, n <= k <= buffer_size s /\
    last_published_after s lkp = Some (wrap (lkp + k)) /\
    ~ published_matches s (wrap (lkp + k + 1)).
Proof.
  intros Hwf Hlkp Hn Hrun.
  destruct (last_published_after_run s lkp Hwf Hlkp)
    as (k & Hk & Hlast & Hall & Hstop).
  exists k. split; [|now split]. split; [|lia].
  destruct (Z.le_gt_cases n k) as [|Hgt]; [assumption|exfalso].
  apply Hstop. rewrite <- Z.add_assoc. apply Hrun. lia.
Qed.

(** After [publish(range)] on a range of [n <= N] numbers from [b], the
    consumer that had seen everything before [b] sees the whole range. *)
Lemma publish_range_store_covers s b n :
  well_formed s -> in_range b -> 0 < n <= buffer_size s ->
  exists k, n <= k <= buffer_size s /\
    last_published_after
      (publish_range_store {| range_begin := b; range_end := wrap (b + n) |} s)
      (wrap (b - 1))
    = Some (wrap (b - 1 + k)) /\
    ~ published_matches
        (publish_range_store {| range_begin := b; range_end := wrap (b + n) |} s)
        (wrap (b + k)).
Proof.
  intros Hwf Hb Hn. pose proof Hwf as (_ & Hle & _).
  assert (Hnmod : 0 < n < modulus) by (unfold max_diff, modulus in *; lia).
  pose proof (publish_range_store_well_formed s b n Hwf Hb Hnmod) as Hwf'.
  destruct (last_published_after_covers _ (wrap (b - 1)) n Hwf'
              (wrap_range _)) as (k & Hk & Hlast & Hstop).
  - lia.
  - intros j Hj. rewrite wrap_wrap_add.
    replace (b - 1 + j) with (b + (j - 1)) by lia.
    apply publish_range_store_matches; [assumption..|lia].
  - exists k. split.
    + split; [lia|].
      replace (buffer_size s)
        with (buffer_size (publish_range_store
                {| range_begin := b; range_end := wrap (b + n) |} s)); [lia|].
      unfold buffer_size. now rewrite publish_range_store_mask.
    + split.
      * rewrite Hlast. f_equal. apply wrap_wrap_add.
      * rewrite <- Z.add_assoc, wrap_wrap_add in Hstop.
        replace (b - 1 + (k + 1)) with (b + k) in Hstop by lia.
        exact Hstop.
Qed.

(** X3: [publish(range)] on a range of [n <= N] sequence numbers from
    [b] leaves each of them stored in its slot, leaves the other slots
    as they were, and [last_published_after(b - 1)] then returns a
    number at least [n] after [b - 1]: the whole range is visible. *)
Theorem publish_range_publishes s b n :
  well_formed s -> in_range b -> 0 < n <= buffer_size s ->
  let s' :=
    publish_range_store {| range_begin := b; range_end := wrap (b + n) |} s in
  (forall j, 0 <= j < n -> published_matches s' (wrap (b + j))) /\
  (forall i, 0 <= i ->
     (forall j, 0 <= j < n ->
        Z.land (wrap (b + j)) (m_sequenceMask s) <> i) ->
     load (m_published s') i = load (m_published s) i) /\
  exists lkp,
    last_published_after s' (wrap (b - 1)) = Some lkp /\
    n <= difference lkp (wrap (b - 1)).
Proof.
  intros Hwf Hb Hn s'. pose proof Hwf as (_ & Hle & _).
  assert (Hnmod : 0 < n < modulus) by (unfold max_diff, modulus in *; lia).
  split; [|split].
  - intros j Hj. now apply publish_range_store_matches.
  - intros i Hi Hother. subst s'.
    rewrite publish_range_store_published by assumption.
    apply load_store_each_other; [assumption|].
    intros q Hq. apply published_order_inv in Hq as (j & Hj & ->);
      [|assumption|lia].
    split; [now apply slot_bound|now apply Hother].
  - destruct (publish_range_store_covers s b n Hwf Hb Hn)
      as (k & Hk & Hlast & _).
    exists (wrap (b - 1 + k)). split; [exact Hlast|].
    rewrite <- wrap_wrap_add, difference_offset; lia.
Qed.

Lemma publish_range_publishes_witness :
  well_formed ring4 /\ in_range 1 /\ 0 < 2 <= buffer_size ring4 /\
  let s' :=
    publish_range_store {| range_begin := 1; range_end := wrap (1 + 2) |}
      ring4 in
  (forall j, 0 <= j < 2 -> published_matches s' (wrap (1 + j))) /\
  (forall i, 0 <= i ->
     (forall j, 0 <= j < 2 ->
        Z.land (wrap (1 + j)) (m_sequenceMask ring4) <> i) ->
     load (m_published s') i = load (m_published ring4) i) /\
  exists lkp,
    last_published_after s' (wrap (1 - 1)) = Some lkp /\
    2 <= difference lkp (wrap (1 - 1)).
Proof.
  assert (Hr : in_range 1) by (unfold in_range, modulus; lia).
  assert (Hn : 0 < 2 <= buffer_size ring4) by (vm_compute; split; congruence).
  split; [exact ring4_well_formed|]. split; [exact Hr|]. split; [exact Hn|].
  exact (publish_range_publishes ring4 1 2 ring4_well_formed Hr Hn).
Defined.

Lemma publish_store_well_formed seq s :
  well_formed s -> well_formed (publish_store seq s).
Proof.
  unfold well_formed, buffer_size, publish_store.
  cbn [m_sequenceMask m_published]. now rewrite length_store.
Qed.

(** X4: a sequence number published before its predecessor is not
    visible: while [lkp + 1] is unpublished, the store of
    [publish(lkp + j)], for any later [j] within the ring, leaves
    [last_published_after(lkp)] at [lkp]. *)
Theorem publish_out_of_order s lkp j :
  well_formed s -> in_range lkp -> 1 < j <= buffer_size s ->
  ~ published_matches s (wrap (lkp + 1)) ->
  last_published_after (publish_store (wrap (lkp + j)) s) lkp = Some lkp.
Proof.
  intros Hwf Hlkp Hj Hstop.
  unfold last_published_after, publish_store.
  cbn [m_published m_sequenceMask scan_published].
  rewrite load_store_ne.
  - destruct (Z.eqb_spec
                (load (m_published s)
                   (Z.land (wrap (lkp + 1)) (m_sequenceMask s)))
                (wrap (lkp + 1))) as [Heq|_]; [|reflexivity].
    now destruct Hstop.
  - apply slot_bound, Hwf.
  - apply slot_bound, Hwf.
  - intros Heq.
    replace (lkp + j) with (lkp + 1 + (j - 1)) in Heq by lia.
    replace (lkp + 1) with (lkp + 1 + 0) in Heq at 2 by lia.
    apply slots_differ in Heq; [lia|assumption|lia|lia].
Qed.

Lemma publish_out_of_order_witness :
  well_formed ring4 /\ in_range 0 /\ 1 < 2 <= buffer_size ring4 /\
  ~ published_matches ring4 (wrap (0 + 1)) /\
  last_published_after (publish_store (wrap (0 + 2)) ring4) 0 = Some 0.
Proof.
  assert (Hr : in_range 0) by (unfold in_range, modulus; lia).
  assert (Hn : 1 < 2 <= buffer_size ring4) by (vm_compute; split; congruence).
  assert (Hstop : ~ published_matches ring4 (wrap (0 + 1)))
    by (vm_compute; congruence).
  split; [exact ring4_well_formed|]. split; [exact Hr|]. split; [exact Hn|].
  split; [exact Hstop|].
  exact (publish_out_of_order ring4 0 2 ring4_well_formed Hr Hn Hstop).
Defined.

(** X5: publishing the missing predecessor makes the numbers published
    ahead of it visible at once: when [lkp + 2 .. lkp + n] are already
    stored, after the store of [publish(lkp + 1)]
    [last_published_after(lkp)] returns a number at least [n] after
    [lkp]. *)
Theorem publish_fills_gap s lkp n :
  well_formed s -> in_range lkp -> 0 < n <= buffer_size s ->
  (forall j, 1 < j <= n -> published_matches s (wrap (lkp + j))) ->
  exists r,
    last_published_after (publish_store (wrap (lkp + 1)) s) lkp = Some r /\
    n <= difference r lkp.
Proof.
  intros Hwf Hlkp Hn Hrun.
  pose proof (publish_store_well_formed (wrap (lkp + 1)) s Hwf) as Hwf'.
  destruct (last_published_after_covers (publish_store (wrap (lkp + 1)) s)
              lkp n Hwf' Hlkp) as (k & Hk & Hlast & _).
  - lia.
  - intros j Hj. unfold published_matches, publish_store.
    cbn [m_published m_sequenceMask].
    destruct (Z.eq_dec j 1) as [->|Hne].
    + apply load_store_eq. now apply slot_bound.
    + rewrite load_store_ne.
      * apply Hrun. lia.
      * apply slot_bound, Hwf.
      * apply slot_bound, Hwf.
      * intros Heq.
        replace (lkp + j) with (lkp + 1 + (j - 1)) in Heq by lia.
        replace (lkp + 1) with (lkp + 1 + 0) in Heq at 1 by lia.
        apply slots_differ in Heq; [lia|assumption|lia|lia].
  - exists (wrap (lkp + k)). split; [exact Hlast|].
    rewrite difference_offset; [lia|].
    destruct Hwf' as (_ & Hle & _).
    change (buffer_size (publish_store (wrap (lkp + 1)) s))
      with (buffer_size s) in *.
    lia.
Qed.

Lemma publish_fills_gap_witness :
  well_formed (publish_store 2 ring4) /\ in_range 0 /\
  0 < 2 <= buffer_size (publish_store 2 ring4) /\
  (forall j, 1 < j <= 2 ->
     published_matches (publish_store 2 ring4) (wrap (0 + j))) /\
  exists r,
    last_published_after
      (publish_store (wrap (0 + 1)) (publish_store 2 ring4)) 0 = Some r /\
    2 <= difference r 0.
Proof.
  assert (Hwf : well_formed (publish_store 2 ring4))
    by (apply publish_store_well_formed, ring4_well_formed).
  assert (Hr : in_range 0) by (unfold in_range, modulus; lia).
  assert (Hn : 0 < 2 <= buffer_size (publish_store 2 ring4))
    by (vm_compute; split; congruence).
  assert (Hrun : forall j, 1 < j <= 2 ->
            published_matches (publish_store 2 ring4) (wrap (0 + j))).
  { intros j Hj. assert (j = 2) as -> by lia. reflexivity. }
  split; [exact Hwf|]. split; [exact Hr|]. split; [exact Hn|].
  split; [exact Hrun|].
  exact (publish_fills_gap (publish_store 2 ring4) 0 2 Hwf Hr Hn Hrun).
Defined.

(** *** Waking awaiters *)

Lemma split_awaiters_spec lkp awaiters : forall minDiff,
  exists m,
    split_awaiters lkp awaiters minDiff
    = (set_m_lastKnownPublished lkp <$> List.filter (still_waiting lkp) awaiters,
       set_m_lastKnownPublished lkp
         <$> List.filter (fun a => negb (still_waiting lkp a)) awaiters,
       m).
Proof.
  induction awaiters as [|a awaiters IH]; intros minDiff.
  - exists minDiff. reflexivity.
  - cbn [split_awaiters List.filter].
    destruct (still_waiting lkp a) eqn:Hw; unfold still_waiting in Hw;
      rewrite Hw; cbn [negb].
    + destruct (IH (if difference (m_targetSequence a) lkp <? minDiff
                    then difference (m_targetSequence a) lkp else minDiff))
        as (m & ->).
      exists m. reflexivity.
    + destruct (IH minDiff) as (m & ->). exists m. reflexivity.
Qed.

Lemma rescan_published_stops fuel s lkp earliest :
  ~ published_matches s (wrap (lkp + 1)) ->
  rescan_published (S fuel) (m_sequenceMask s) (m_published s)
    (wrap (lkp + 1)) lkp earliest
  = Some (lkp, false).
Proof.
  intros Hstop. cbn [rescan_published].
  destruct (Z.eqb_spec
              (load (m_published s)
                 (Z.land (wrap (lkp + 1)) (m_sequenceMask s)))
              (wrap (lkp + 1))) as [Heq|_]; [|reflexivity].
  now destruct Hstop.
Qed.

(** With no other thread at work, the outer loop of
    [resume_ready_awaiters] runs once. *)
Lemma resume_ready_loop_once fuel s a rest to_resume lkp :
  last_published_after s (m_lastKnownPublished a) = Some lkp ->
  ~ published_matches s (wrap (lkp + 1)) ->
  resume_ready_loop (S fuel) (set_m_awaiters [] s) (a :: rest) to_resume
  = Some
      (set_m_awaiters
         (set_m_lastKnownPublished lkp
            <$> List.filter (still_waiting lkp) (a :: rest)) s,
       to_resume ++
         (set_m_lastKnownPublished lkp
            <$> List.filter (fun w => negb (still_waiting lkp w)) (a :: rest)),
       lkp).
Proof.
  intros Hlast Hstop. cbn [resume_ready_loop].
  change (last_published_after (set_m_awaiters [] s) (m_lastKnownPublished a))
    with (last_published_after s (m_lastKnownPublished a)).
  rewrite Hlast.
  destruct (split_awaiters_spec lkp (a :: rest) max_diff) as (m & ->).
  destruct (set_m_lastKnownPublished lkp
              <$> List.filter (still_waiting lkp) (a :: rest))
    as [|w requeue] eqn:Hrequeue.
  - reflexivity.
  - cbn [m_awaiters set_m_awaiters m_published m_sequenceMask].
    rewrite (rescan_published_stops _ s lkp) by assumption.
    rewrite app_nil_r. reflexivity.
Qed.

Lemma resume_ready_awaiters_once s a rest fuel lkp :
  m_awaiters s = a :: rest ->
  last_published_after s (m_lastKnownPublished a) = Some lkp ->
  ~ published_matches s (wrap (lkp + 1)) ->
  resume_ready_awaiters (S fuel) s
  = Some
      (set_m_awaiters
         (set_m_lastKnownPublished lkp
            <$> List.filter (still_waiting lkp) (a :: rest)) s,
       resume lkp
         <$> (set_m_lastKnownPublished lkp
                <$> List.filter (fun w => negb (still_waiting lkp w))
                      (a :: rest))).
Proof.
  intros Hawaiters Hlast Hstop.
  unfold resume_ready_awaiters. rewrite Hawaiters.
  now rewrite (resume_ready_loop_once fuel s a rest [] _ Hlast).
Qed.

(** X6: [resume_ready_awaiters()], run with no other thread at work on
    a sequencer with awaiters, returns after one pass.  With [lkp] the
    value of [last_published_after] at the head awaiter's last known
    published number, it leaves on the list, in their order, the
    awaiters whose target follows [lkp], and calls [resume(lkp)], in
    their order, on the others; every awaiter has [lkp] as its last
    known published number; the published array is not written. *)
Theorem resume_ready_awaiters_partition s a rest fuel :
  well_formed s -> in_range (m_lastKnownPublished a) ->
  m_awaiters s = a :: rest ->
  exists lkp,
    last_published_after s (m_lastKnownPublished a) = Some lkp /\
    resume_ready_awaiters (S fuel) s
    = Some
        (set_m_awaiters
           (set_m_lastKnownPublished lkp
              <$> List.filter (still_waiting lkp) (a :: rest)) s,
         resume lkp
           <$> (set_m_lastKnownPublished lkp
                  <$> List.filter (fun w => negb (still_waiting lkp w))
                        (a :: rest))).
Proof.
  intros Hwf Hlkp Hawaiters.
  destruct (last_published_after_run s _ Hwf Hlkp)
    as (k & Hk & Hlast & _ & Hstop).
  exists (wrap (m_lastKnownPublished a + k)). split; [exact Hlast|].
  apply resume_ready_awaiters_once; [assumption..|].
  now rewrite wrap_wrap_add.
Qed.

Lemma ring4_waiting_well_formed : well_formed ring4_waiting.
Proof. exact ring4_published_well_formed. Qed.

Lemma resume_ready_awaiters_partition_witness :
  well_formed ring4_waiting /\
  in_range (m_lastKnownPublished waiter_for_3) /\
  m_awaiters ring4_waiting = waiter_for_3 :: [waiter_for_1] /\
  exists lkp,
    last_published_after ring4_waiting (m_lastKnownPublished waiter_for_3)
    = Some lkp /\
    resume_ready_awaiters 1 ring4_waiting
    = Some
        (set_m_awaiters
           (set_m_lastKnownPublished lkp
              <$> List.filter (still_waiting lkp)
                    (waiter_for_3 :: [waiter_for_1])) ring4_waiting,
         resume lkp
           <$> (set_m_lastKnownPublished lkp
                  <$> List.filter (fun w => negb (still_waiting lkp w))
                        (waiter_for_3 :: [waiter_for_1]))).
Proof.
  assert (Hr : in_range (m_lastKnownPublished waiter_for_3))
    by (unfold in_range, modulus; cbn; lia).
  split; [exact ring4_waiting_well_formed|]. split; [exact Hr|].
  split; [reflexivity|].
  exact (resume_ready_awaiters_partition ring4_waiting waiter_for_3
           [waiter_for_1] 0 ring4_waiting_well_formed Hr eq_refl).
Defined.

(** When [a] does not precede [b], the difference from [a] to [b] is not
    positive. *)
Lemma not_precedes_difference a b :
  precedes a b = false -> difference b a <= 0.
Proof.
  unfold precedes, difference. intros H. apply Z.ltb_ge in H.
  set (d := to_signed (a - b)) in *.
  assert (Hd : wrap (a - b) = d /\ d <= max_diff).
  { subst d. unfold to_signed in *.
    pose proof (wrap_range (a - b)) as Hr. unfold in_range in Hr.
    destruct (Z.leb_spec (wrap (a - b)) max_diff); [lia|].
    unfold max_diff, modulus in *. lia. }
  destruct Hd as [Hd Hmax].
  rewrite (to_signed_eq (b - a) (- d)); [lia| |unfold max_diff in *; lia].
  rewrite <- Hd. replace (- wrap (a - b)) with (0 - wrap (a - b)) by lia.
  rewrite wrap_sub_wrap. f_equal. lia.
Qed.

Lemma split_added_all target lkp awaiters minDiff :
  difference target lkp <= 0 ->
  split_added target lkp awaiters minDiff = ([], awaiters, minDiff).
Proof.
  intros Hdiff. induction awaiters as [|a awaiters IH].
  - reflexivity.
  - cbn [split_added].
    destruct (Z.ltb_spec 0 (difference target lkp)); [lia|].
    now rewrite IH.
Qed.

(** X7: [add_awaiter(awaiter)], run with no other thread at work,
    returns after one pass.  With [lkp] the value of
    [last_published_after] at the awaiter's last known published number:
    when [lkp] precedes the awaiter's target the awaiter is left at the
    head of the list and nothing is resumed; otherwise the list is
    emptied and [resume(lkp)] is called on the awaiter and on every
    awaiter that was on the list. *)
Theorem add_awaiter_spec s a fuel :
  well_formed s -> in_range (m_lastKnownPublished a) ->
  exists lkp,
    last_published_after s (m_lastKnownPublished a) = Some lkp /\
    add_awaiter (S fuel) a s
    = Some
        (if precedes lkp (m_targetSequence a)
         then (set_m_awaiters (a :: m_awaiters s) s, [])
         else (set_m_awaiters [] s, resume lkp <$> (a :: m_awaiters s))).
Proof.
  intros Hwf Hlkp.
  destruct (last_published_after_run s _ Hwf Hlkp) as (k & Hk & Hlast & _).
  exists (wrap (m_lastKnownPublished a + k)). split; [exact Hlast|].
  unfold add_awaiter. cbn [add_awaiter_loop].
  change (last_published_after (set_m_awaiters ([a] ++ m_awaiters s) s)
            (m_lastKnownPublished a))
    with (last_published_after s (m_lastKnownPublished a)).
  rewrite Hlast.
  destruct (precedes (wrap (m_lastKnownPublished a + k)) (m_targetSequence a))
    eqn:Hprec; cbn [negb].
  - reflexivity.
  - cbn [m_awaiters set_m_awaiters].
    rewrite split_added_all by now apply not_precedes_difference.
    reflexivity.
Qed.

Lemma add_awaiter_spec_witness :
  well_formed ring4_waiting /\
  in_range (m_lastKnownPublished waiter_for_1) /\
  exists lkp,
    last_published_after ring4_waiting (m_lastKnownPublished waiter_for_1)
    = Some lkp /\
    add_awaiter 1 waiter_for_1 ring4_waiting
    = Some
        (if precedes lkp (m_targetSequence waiter_for_1)
         then (set_m_awaiters (waiter_for_1 :: m_awaiters ring4_waiting)
                 ring4_waiting, [])
         else (set_m_awaiters [] ring4_waiting,
               resume lkp <$> (waiter_for_1 :: m_awaiters ring4_waiting))).
Proof.
  assert (Hr : in_range (m_lastKnownPublished waiter_for_1))
    by (unfold in_range, modulus; cbn; lia).
  split; [exact ring4_waiting_well_formed|]. split; [exact Hr|].
  exact (add_awaiter_spec ring4_waiting waiter_for_1 0
           ring4_waiting_well_formed Hr).
Defined.

Lemma filter_none {A : Type} (f : A -> bool) (l : list A) :
  Forall (fun x => f x = false) l -> List.filter f l = [].
Proof.
  induction 1 as [|x l Hx _ IH]; [reflexivity|].
  cbn [List.filter]. now rewrite Hx.
Qed.

Lemma filter_all {A : Type} (f : A -> bool) (l : list A) :
  Forall (fun x => f x = true) l -> List.filter f l = l.
Proof.
  induction 1 as [|x l Hx _ IH]; [reflexivity|].
  cbn [List.filter]. now rewrite Hx, IH.
Qed.

(** X8: [publish(range)] wakes the consumers waiting for the range.
    When the awaiters on the list wait for sequence numbers of the range
    of [n <= N] numbers from [b], and the head awaiter has seen
    everything before [b], then [publish(range)] empties the list and
    calls [resume(lkp)] on every awaiter, in order, with a number [lkp]
    that no awaiter's target follows. *)
Theorem publish_range_wakes s b n a rest fuel :
  well_formed s -> in_range b -> 0 < n <= buffer_size s ->
  m_awaiters s = a :: rest ->
  m_lastKnownPublished a = wrap (b - 1) ->
  Forall (fun w => exists d, 0 <= d < n /\ m_targetSequence w = wrap (b + d))
    (a :: rest) ->
  exists lkp,
    publish_range (S fuel) {| range_begin := b; range_end := wrap (b + n) |} s
    = Some
        (set_m_awaiters []
           (publish_range_store
              {| range_begin := b; range_end := wrap (b + n) |} s),
         resume lkp <$> (set_m_lastKnownPublished lkp <$> (a :: rest))) /\
    Forall (fun w => precedes lkp (m_targetSequence w) = false) (a :: rest).
Proof.
  intros Hwf Hb Hn Hawaiters Hhead Htargets.
  pose proof Hwf as (_ & Hle & _).
  assert (Hnmod : 0 < n < modulus) by (unfold max_diff, modulus in *; lia).
  destruct (publish_range_store_covers s b n Hwf Hb Hn)
    as (k & Hk & Hlast & Hstop).
  exists (wrap (b - 1 + k)).
  assert (Hdiff : forall w, In w (a :: rest) ->
            difference (m_targetSequence w) (wrap (b - 1 + k)) <= 0 /\
            precedes (wrap (b - 1 + k)) (m_targetSequence w) = false).
  { intros w Hw. rewrite Forall_forall in Htargets.
    destruct (Htargets w) as (d & Hd & ->); [now apply list_elem_of_In|].
    replace (b - 1 + k) with (b + (k - 1)) by lia.
    unfold precedes.
    rewrite !difference_offset_wrap by (unfold max_diff in *; lia).
    split; [lia|]. apply Z.ltb_ge. lia. }
  split.
  - unfold publish_range. rewrite range_nonempty by assumption.
    rewrite (resume_ready_awaiters_once _ a rest fuel (wrap (b - 1 + k))).
    + rewrite filter_none, filter_all.
      * reflexivity.
      * apply Forall_forall. intros w Hw. apply list_elem_of_In in Hw.
        unfold still_waiting.
        destruct (Z.ltb_spec 0
                    (difference (m_targetSequence w) (wrap (b - 1 + k))));
          [|reflexivity].
        destruct (Hdiff w Hw). lia.
      * apply Forall_forall. intros w Hw. apply list_elem_of_In in Hw.
        unfold still_waiting. apply Z.ltb_ge. now destruct (Hdiff w Hw).
    + now rewrite publish_range_store_awaiters.
    + rewrite Hhead. exact Hlast.
    + rewrite wrap_wrap_add. replace (b - 1 + k + 1) with (b + k) by lia.
      exact Hstop.
  - apply Forall_forall. intros w Hw. apply list_elem_of_In in Hw.
    now destruct (Hdiff w Hw).
Qed.

Lemma publish_range_wakes_witness :
  well_formed ring4_one_waiting /\ in_range 1 /\
  0 < 2 <= buffer_size ring4_one_waiting /\
  m_awaiters ring4_one_waiting = waiter_for_1 :: [] /\
  m_lastKnownPublished waiter_for_1 = wrap (1 - 1) /\
  Forall (fun w => exists d, 0 <= d < 2 /\ m_targetSequence w = wrap (1 + d))
    (waiter_for_1 :: []) /\
  exists lkp,
    publish_range 1 {| range_begin := 1; range_end := wrap (1 + 2) |}
      ring4_one_waiting
    = Some
        (set_m_awaiters []
           (publish_range_store
              {| range_begin := 1; range_end := wrap (1 + 2) |}
              ring4_one_waiting),
         resume lkp <$> (set_m_lastKnownPublished lkp <$> (waiter_for_1 :: [])))
    /\
    Forall (fun w => precedes lkp (m_targetSequence w) = false)
      (waiter_for_1 :: []).
Proof.
  assert (Hwf : well_formed ring4_one_waiting) by exact ring4_well_formed.
  assert (Hr : in_range 1) by (unfold in_range, modulus; lia).
  assert (Hn : 0 < 2 <= buffer_size ring4_one_waiting)
    by (vm_compute; split; congruence).
  assert (Htargets :
            Forall (fun w => exists d,
                      0 <= d < 2 /\ m_targetSequence w = wrap (1 + d))
              (waiter_for_1 :: [])).
  { constructor; [|constructor]. exists 0. split; [lia|reflexivity]. }
  split; [exact Hwf|]. split; [exact Hr|]. split; [exact Hn|].
  split; [reflexivity|]. split; [reflexivity|]. split; [exact Htargets|].
  exact (publish_range_wakes ring4_one_waiting 1 2 waiter_for_1 [] 0
           Hwf Hr Hn eq_refl eq_refl Htargets).
Defined.

(** *** From the constructor to the first published range *)

(** The sequencer the constructor returns: well formed, with nothing
    published after [initial]. *)
Lemma ctor_fresh n initial :
  is_pow2 n = true -> n <= max_diff -> in_range initial ->
  exists s,
    sequence_mpsc_ctor n initial = Some s /\
    well_formed s /\
    buffer_size s = n /\
    m_nextToClaim s = wrap (initial + 1) /\
    (forall k, 0 < k <= modulus - n ->
       ~ published_matches s (wrap (initial + k))).
Proof.
  intros Hp Hle Hin. pose proof (is_pow2_pos n Hp) as Hpos.
  assert (Hmax : max_diff < modulus) by (unfold max_diff, modulus; lia).
  assert (Hmask : wrap (n - 1) = n - 1)
    by (apply wrap_small; unfold in_range; lia).
  assert (Hiter :
    init_iterations initial (wrap (initial - (n - 1))) = S (Z.to_nat (n - 1))).
  { unfold init_iterations. rewrite wrap_sub_wrap.
    replace (initial - (initial - (n - 1))) with (n - 1) by lia.
    now rewrite Hmask. }
  destruct (init_loop_spec n initial Hp Hle Hin (Z.to_nat (n - 1))
              (replicate (Z.to_nat n) 0))
    as (published & Hrun & Hlen & Hslots).
  { lia. }
  { rewrite length_replicate. lia. }
  rewrite Z2Nat.id in Hrun, Hslots by lia.
  rewrite length_replicate in Hlen.
  set (s := {| m_sequenceMask := n - 1; m_published := published;
               m_nextToClaim := wrap (initial + 1); m_awaiters := [] |}).
  assert (Hsize : buffer_size s = n).
  { unfold buffer_size. cbn. replace (n - 1 + 1) with n by lia.
    apply wrap_small. unfold in_range. lia. }
  assert (Hwf : well_formed s).
  { unfold well_formed. rewrite Hsize. cbn. repeat split; try assumption.
    rewrite Hlen. lia. }
  exists s. split.
  { unfold sequence_mpsc_ctor. rewrite Hiter, Hmask, Hrun. reflexivity. }
  split; [assumption|]. split; [assumption|]. split; [reflexivity|].
  intros k Hk Hpub. unfold published_matches in Hpub.
  rewrite (well_formed_mask s _ Hwf), Hsize in Hpub. cbn in Hpub.
  set (i := (initial + k) mod n) in *.
  assert (Hi : 0 <= i < n) by (apply Z.mod_pos_bound; lia).
  set (j := (initial - i) mod n).
  assert (Hj : 0 <= j < n) by (apply Z.mod_pos_bound; lia).
  assert (Hji : (initial - j) mod n = i)
    by (apply residue_unique; [lia | lia | lia | reflexivity]).
  assert (Hload : load published i = wrap (initial - j)).
  { apply (proj2 (Hslots i Hi) j); [lia | assumption |].
    intros j' Hj' Heq. apply residue_unique in Heq; [|lia|lia|lia].
    fold j in Heq. lia. }
  rewrite Hload in Hpub.
  apply (wrap_offset_neq (initial - j) (k + j)); [lia|].
  rewrite Hpub. f_equal. lia.
Qed.

(** X9: a fresh sequencer, one awaited [claim_up_to(count)], [publish]
    of the range it yields: the range begins right after the initial
    sequence number and has [min(count, N)] elements, and
    [last_published_after(initial)] is then the last number of the
    range, no more and no less. *)
Theorem first_range_round_trip n initial count :
  is_pow2 n = true -> n <= max_diff -> in_range initial -> 0 < count ->
  exists s r s1,
    sequence_mpsc_ctor n initial = Some s /\
    awaited_claims [count] s = ([r], s1) /\
    range_begin r = wrap (initial + 1) /\
    range_size r = Z.min count n /\
    last_published_after (publish_range_store r s1) initial
    = Some (wrap (initial + Z.min count n)).
Proof.
  intros Hp Hle Hin Hcount. pose proof (is_pow2_pos n Hp) as Hpos.
  assert (Hmax : max_diff < modulus) by (unfold max_diff, modulus; lia).
  destruct (ctor_fresh n initial Hp Hle Hin)
    as (s & Hctor & Hwf & Hsize & Hnext & Hnone).
  set (c := Z.min count n).
  assert (Hc : 0 < c <= n) by (subst c; lia).
  set (b := wrap (initial + 1)).
  assert (Hb : in_range b) by apply wrap_range.
  set (s1 := snd (fetch_add_nextToClaim c s)).
  assert (Hclaims :
    awaited_claims [count] s
    = ([{| range_begin := b; range_end := wrap (b + c) |}], s1)).
  { rewrite awaited_claims_cons. cbv zeta. cbn [awaited_claims ret fst snd].
    rewrite Hsize, Hnext.
    replace (if count <? n then count else n) with c
      by (subst c; destruct (Z.ltb_spec count n); lia).
    reflexivity. }
  assert (Hwf1 : well_formed s1) by exact Hwf.
  assert (Hsize1 : buffer_size s1 = n) by exact Hsize.
  exists s, {| range_begin := b; range_end := wrap (b + c) |}, s1.
  split; [exact Hctor|]. split; [exact Hclaims|]. split; [reflexivity|].
  split.
  { unfold range_size. cbn [range_begin range_end].
    rewrite wrap_wrap_sub. replace (b + c - b) with c by lia.
    apply wrap_small. unfold in_range. lia. }
  set (s2 := publish_range_store
               {| range_begin := b; range_end := wrap (b + c) |} s1).
  assert (Hcn : 0 < c <= buffer_size s1) by (rewrite Hsize1; lia).
  assert (Hcmod : 0 < c < modulus) by lia.
  pose proof (publish_range_store_well_formed s1 b c Hwf1 Hb Hcmod) as Hwf2.
  fold s2 in Hwf2.
  assert (Hmatch : forall j, 0 < j <= c ->
            published_matches s2 (wrap (initial + j))).
  { intros j Hj. replace (wrap (initial + j)) with (wrap (b + (j - 1))).
    - apply publish_range_store_matches; [assumption..|lia].
    - subst b. rewrite wrap_wrap_add. f_equal. lia. }
  assert (Hstop : ~ published_matches s2 (wrap (initial + c + 1))).
  { destruct (Z.eq_dec c n) as [Hfull|Hpart].
    - (* the ring is full: the slot holds the first number of the range *)
      intros Hpub. pose proof (Hmatch 1 ltac:(lia)) as Hfirst.
      unfold published_matches in Hpub, Hfirst.
      rewrite well_formed_mask in Hpub, Hfirst by assumption.
      replace ((initial + c + 1) mod buffer_size s2)
        with ((initial + 1) mod buffer_size s2) in Hpub.
      + rewrite Hfirst in Hpub.
        apply (wrap_offset_neq (initial + 1) c); [lia|].
        rewrite Hpub. f_equal. lia.
      + assert (Hsize2 : buffer_size s2 = n).
        { unfold buffer_size, s2. now rewrite publish_range_store_mask. }
        rewrite Hsize2, Hfull.
        replace (initial + n + 1) with (initial + 1 + 1 * n) by lia.
        now rewrite Z_mod_plus_full.
    - (* a slot the range did not reach *)
      intros Hpub. unfold published_matches in Hpub.
      unfold s2 in Hpub at 2. rewrite publish_range_store_mask in Hpub.
      unfold s2 in Hpub.
      rewrite publish_range_store_published in Hpub by assumption.
      rewrite load_store_each_other in Hpub.
      + apply (Hnone (c + 1)); [unfold max_diff, modulus in *; lia|].
        unfold published_matches. rewrite Z.add_assoc. exact Hpub.
      + apply (slot_bound s1), Hwf1.
      + intros q Hq.
        apply published_order_inv in Hq as (j & Hj & ->); [|assumption|lia].
        split; [apply slot_bound, Hwf1|].
        intros Heq.
        replace (wrap (initial + c + 1)) with (wrap (b + c)) in Heq
          by (subst b; rewrite wrap_wrap_add; f_equal; lia).
        apply slots_differ in Heq; [lia|assumption|lia|lia]. }
  destruct (last_published_after_run s2 initial Hwf2 Hin)
    as (k & Hk & Hlast & Hall & Hstop').
  rewrite Hlast. assert (k = c) as ->; [|reflexivity].
  destruct (Z.lt_trichotomy k c) as [Hlt|[Heq|Hgt]]; [exfalso|assumption|exfalso].
  - apply Hstop'. rewrite <- Z.add_assoc. apply Hmatch. lia.
  - apply Hstop. rewrite <- Z.add_assoc. apply Hall. lia.
Qed.

Lemma first_range_round_trip_witness :
  is_pow2 4 = true /\ 4 <= max_diff /\ in_range 0 /\ 0 < 2 /\
  exists s r s1,
    sequence_mpsc_ctor 4 0 = Some s /\
    awaited_claims [2] s = ([r], s1) /\
    range_begin r = wrap (0 + 1) /\
    range_size r = Z.min 2 4 /\
    last_published_after (publish_range_store r s1) 0
    = Some (wrap (0 + Z.min 2 4)).
Proof.
  assert (Hle : 4 <= max_diff) by (unfold max_diff; lia).
  assert (Hr : in_range 0) by (unfold in_range, modulus; lia).
  assert (Hcount : 0 < 2) by lia.
  split; [reflexivity|]. split; [exact Hle|]. split; [exact Hr|].
  split; [exact Hcount|].
  exact (first_range_round_trip 4 0 2 eq_refl Hle Hr Hcount).
Defined.

End SequencerMore.

(** ** The scheduler: callback lists, the writer and the receiver *)

Section SchedulerMore.
Import Word Scheduler.

(** *** [CBList] *)

Lemma CBList_of_nil : CBList_of [] = CBList.empty.
Proof. reflexivity. Qed.

Lemma push_back_CBList_of h hs :
  CBList.push_back h (CBList_of hs) = CBList_of (hs ++ [h]).
Proof.
  unfold CBList.push_back, CBList_of, CBList.small.
  cbn [CBList.mSize CBList.mArray CBList.mVec].
  rewrite length_app. cbn [length].
  destruct (Z.leb_spec 8 (Z.of_nat (Nat.min (length hs) 8))) as [Hfull|Hroom].
  - assert (Hlen : (8 <= length hs)%nat) by lia.
    f_equal.
    + lia.
    + rewrite take_app_le by lia.
      replace (8 - length hs)%nat with 0%nat by lia.
      replace (8 - (length hs + 1))%nat with 0%nat by lia. reflexivity.
    + now rewrite drop_app_le by lia.
  - assert (Hlen : (length hs < 8)%nat) by lia.
    f_equal.
    + rewrite wrap_small by (unfold in_range, modulus; lia). lia.
    + rewrite (take_ge hs) by lia.
      rewrite (take_ge (hs ++ [h])) by (rewrite length_app; cbn; lia).
      replace (Z.to_nat (Z.of_nat (Nat.min (length hs) 8))) with (length hs)
        by lia.
      rewrite insert_app_r_alt by lia.
      replace (length hs - length hs)%nat with 0%nat by lia.
      replace (8 - length hs)%nat with (S (8 - (length hs + 1))) by lia.
      cbn [replicate]. rewrite <- app_assoc. reflexivity.
    + rewrite !drop_ge; [reflexivity| |lia].
      rewrite length_app. cbn. lia.
Qed.

Lemma push_all_CBList_of hs' : forall hs,
  push_all hs' (CBList_of hs) = CBList_of (hs ++ hs').
Proof.
  induction hs' as [|h hs' IH]; intros hs.
  - now rewrite app_nil_r.
  - change (push_all (h :: hs') (CBList_of hs))
      with (push_all hs' (CBList.push_back h (CBList_of hs))).
    rewrite push_back_CBList_of, IH, <- app_assoc. reflexivity.
Qed.

Lemma resume_all_CBList_of l :
  (1 <= length l)%nat ->
  CBList.resume_all (CBList_of l) = Resume <$> take 8 l /\
  CBList.nonempty (CBList_of l) = true.
Proof.
  intros Hl. split.
  - unfold CBList.resume_all, CBList.get, CBList_of, CBList.small.
    cbn [CBList.mSize CBList.mArray CBList.mVec].
    destruct (Z.eqb_spec (Z.of_nat (Nat.min (length l) 8)) 0) as [|_]; [lia|].
    destruct (Z.leb_spec (Z.of_nat (Nat.min (length l) 8)) 8) as [_|]; [|lia].
    set (n := Nat.min (length l) 8).
    replace (Z.to_nat (Z.min (Z.of_nat n - 1) 8)) with (n - 1)%nat by lia.
    replace (Z.to_nat (Z.of_nat n - 1)) with (n - 1)%nat by lia.
    assert (Hlookup :
      (take 8 l ++ replicate (8 - length l) null_handle) !! (n - 1)%nat
      = take 8 l !! (n - 1)%nat).
    { apply lookup_app_l. rewrite length_take. lia. }
    rewrite Hlookup.
    destruct (take 8 l !! (n - 1)%nat) as [x|] eqn:Hx.
    + cbn [default].
      rewrite take_app_le by (rewrite length_take; lia).
      change [Resume (id x)] with (Resume <$> [x]).
      rewrite <- fmap_app.
      f_equal.
      rewrite <- (take_drop (n - 1) (take 8 l)) at 2.
      f_equal.
      assert (Hd : drop (n - 1) (take 8 l) = [x]).
      { apply list_eq. intros i. rewrite lookup_drop.
        destruct i as [|i].
        - now rewrite Nat.add_0_r.
        - cbn. apply lookup_ge_None_2. rewrite length_take. lia. }
      now rewrite Hd.
    + apply lookup_ge_None_1 in Hx. rewrite length_take in Hx. lia.
  - unfold CBList.nonempty, CBList_of. cbn [CBList.mSize].
    destruct (Z.eqb_spec (Z.of_nat (Nat.min (length l) 8)) 0); [lia|reflexivity].
Qed.

(** X10: [get] resumes, in the order of their [push_back], the first
    eight handles pushed on a callback list, the last of them by the
    caller; a handle pushed after the eighth is stored in [mVec] and is
    not resumed. *)
Theorem CBList_resumes_first_eight h hs :
  CBList.resume_all (push_all (h :: hs) CBList.empty)
    = Resume <$> take 8 (h :: hs) /\
  CBList.nonempty (push_all (h :: hs) CBList.empty) = true /\
  CBList.mVec (push_all (h :: hs) CBList.empty) = drop 8 (h :: hs).
Proof.
  rewrite <- CBList_of_nil, push_all_CBList_of. cbn [app].
  destruct (resume_all_CBList_of (h :: hs)) as [Hresume Hnonempty];
    [cbn; lia|].
  split; [exact Hresume|]. split; [exact Hnonempty|reflexivity].
Qed.

(** *** Flush tokens of a cancelled operation *)

Lemma sole_handles_insert fs tokens f tok :
  f ∉ fs -> sole_handles fs (<[f := tok]> tokens) = sole_handles fs tokens.
Proof.
  intros Hf. unfold sole_handles. induction fs as [|g fs IH].
  - reflexivity.
  - apply not_elem_of_cons in Hf as [Hne Hf].
    cbn [omap list_omap].
    rewrite list_lookup_insert_ne by congruence.
    now rewrite <- (IH Hf).
Qed.

Lemma getCB_flushes_spec fs : forall hs tokens,
  NoDup fs ->
  (getCB_flushes fs (CBList_of hs) tokens).1
    = CBList_of (hs ++ sole_handles fs tokens) /\
  forall i,
    (getCB_flushes fs (CBList_of hs) tokens).2 !! i
    = (fun tok =>
         if bool_decide (i ∈ fs) && Nat.eqb (use_count tok) 1
         then {| mHandle := null_handle; use_count := use_count tok |}
         else tok) <$> tokens !! i.
Proof.
  induction fs as [|f fs IH]; intros hs tokens Hnodup.
  - cbn [getCB_flushes fst snd]. split.
    + unfold sole_handles. cbn. now rewrite app_nil_r.
    + intros i. rewrite bool_decide_eq_false_2 by apply not_elem_of_nil.
      cbn [andb]. now destruct (tokens !! i).
  - apply NoDup_cons in Hnodup as [Hf Hnodup].
    cbn [getCB_flushes].
    assert (Hskip : forall i tok,
      tokens !! f = None \/
      (exists tok', tokens !! f = Some tok' /\ Nat.eqb (use_count tok') 1 = false) ->
      tokens !! i = Some tok ->
      bool_decide (i ∈ f :: fs) && Nat.eqb (use_count tok) 1
      = bool_decide (i ∈ fs) && Nat.eqb (use_count tok) 1).
    { intros i tok Hcase Hi.
      destruct (decide (i = f)) as [->|Hne].
      - destruct Hcase as [Hnone|(tok' & Hsome & Hcount)]; [congruence|].
        assert (tok' = tok) as -> by congruence.
        rewrite Hcount. now rewrite !andb_false_r.
      - f_equal. apply bool_decide_ext. rewrite elem_of_cons. tauto. }
    destruct (tokens !! f) as [tok|] eqn:Htok.
    + destruct (Nat.eqb (use_count tok) 1) eqn:Hcount.
      * rewrite push_back_CBList_of.
        destruct (IH (hs ++ [mHandle tok])
                    (<[f := {| mHandle := null_handle;
                               use_count := use_count tok |}]> tokens) Hnodup)
          as [Hcb Htokens].
        split.
        -- rewrite Hcb, sole_handles_insert by assumption.
           unfold sole_handles at 2. cbn [omap list_omap].
           rewrite Htok. cbn [mbind option_bind]. rewrite Hcount.
           now rewrite <- app_assoc.
        -- intros i. rewrite Htokens.
           destruct (decide (i = f)) as [->|Hne].
           ++ rewrite list_lookup_insert_eq
                by (now apply lookup_lt_Some in Htok).
              rewrite Htok. cbn [fmap option_fmap option_map use_count].
              rewrite (bool_decide_eq_false_2 (f ∈ fs)) by assumption.
              rewrite (bool_decide_eq_true_2 (f ∈ f :: fs))
                by apply list_elem_of_here.
              now rewrite Hcount.
           ++ rewrite list_lookup_insert_ne by congruence.
              destruct (tokens !! i) as [tok'|]; [|reflexivity].
              cbn [fmap option_fmap option_map]. f_equal.
              replace (bool_decide (i ∈ f :: fs)) with (bool_decide (i ∈ fs));
                [reflexivity|].
              apply bool_decide_ext. rewrite elem_of_cons. tauto.
      * destruct (IH hs tokens Hnodup) as [Hcb Htokens].
        split.
        -- rewrite Hcb. unfold sole_handles at 2. cbn [omap list_omap].
           rewrite Htok. cbn [mbind option_bind]. now rewrite Hcount.
        -- intros i. rewrite Htokens.
           destruct (tokens !! i) as [tok'|] eqn:Hi; [|reflexivity].
           cbn [fmap option_fmap option_map].
           rewrite (Hskip i tok'); [reflexivity| |exact Hi].
           right. now exists tok.
    + destruct (IH hs tokens Hnodup) as [Hcb Htokens].
      split.
      * rewrite Hcb. unfold sole_handles at 2. cbn [omap list_omap].
        now rewrite Htok.
      * intros i. rewrite Htokens.
        destruct (tokens !! i) as [tok'|] eqn:Hi; [|reflexivity].
        cbn [fmap option_fmap option_map].
        rewrite (Hskip i tok'); [reflexivity| |exact Hi].
        now left.
Qed.

Lemma release_flushes_spec fs : forall tokens,
  NoDup fs ->
  forall i,
    release_flushes fs tokens !! i
    = (fun tok =>
         if bool_decide (i ∈ fs)
         then {| mHandle := mHandle tok;
                 use_count := Nat.pred (use_count tok) |}
         else tok) <$> tokens !! i.
Proof.
  induction fs as [|f fs IH]; intros tokens Hnodup i.
  - cbn [release_flushes].
    rewrite bool_decide_eq_false_2 by apply not_elem_of_nil.
    now destruct (tokens !! i).
  - apply NoDup_cons in Hnodup as [Hf Hnodup].
    cbn [release_flushes]. rewrite IH by assumption.
    destruct (decide (i = f)) as [->|Hne].
    + rewrite list_lookup_alter_eq.
      rewrite (bool_decide_eq_false_2 (f ∈ fs)) by assumption.
      rewrite (bool_decide_eq_true_2 (f ∈ f :: fs))
        by apply list_elem_of_here.
      now destruct (tokens !! f).
    + rewrite list_lookup_alter_ne by congruence.
      destruct (tokens !! i) as [tok|]; [|reflexivity].
      cbn [fmap option_fmap option_map]. f_equal.
      replace (bool_decide (i ∈ f :: fs)) with (bool_decide (i ∈ fs));
        [reflexivity|].
      apply bool_decide_ext. rewrite elem_of_cons. tauto.
Qed.

(** X11: cancelling a queued operation whose flush tokens are distinct:
    the handles resumed after the lock is released are the operation's
    own handle and then the handles of the tokens it alone held, in
    order, up to eight handles in all; every token it alone held is
    destroyed with a null handle, and every token it shared keeps its
    handle and has one holder less. *)
Theorem cancel_hands_over_flush_handles h fs tokens sending cancelSrc :
  NoDup fs ->
  after_unlock sending (getCB h fs CBList.empty tokens).1 cancelSrc
    = Resume <$> take 8 (h :: sole_handles fs tokens) /\
  forall f,
    release_flushes fs (getCB h fs CBList.empty tokens).2 !! f
    = token_after_cancel fs f <$> tokens !! f.
Proof.
  intros Hnodup. unfold getCB.
  rewrite <- CBList_of_nil, push_back_CBList_of. cbn [app].
  destruct (getCB_flushes_spec fs [h] tokens Hnodup) as [Hcb Htokens].
  split.
  - rewrite Hcb. cbn [app]. unfold after_unlock.
    destruct (resume_all_CBList_of (h :: sole_handles fs tokens))
      as [Hresume Hnonempty]; [cbn; lia|].
    now rewrite Hnonempty.
  - intros f. rewrite release_flushes_spec, Htokens by assumption.
    destruct (tokens !! f) as [tok|]; [|reflexivity].
    cbn [fmap option_fmap option_map]. f_equal.
    unfold token_after_cancel.
    destruct (bool_decide (f ∈ fs)); cbn [andb]; [|reflexivity].
    destruct (Nat.eqb_spec (use_count tok) 1) as [Hone|_]; [|reflexivity].
    cbn [mHandle use_count]. now rewrite Hone.
Qed.

Lemma cancel_hands_over_flush_handles_witness :
  NoDup [0%nat; 1%nat] /\
  after_unlock true
    (getCB (coroutine 10) [0%nat; 1%nat] CBList.empty two_flush_tokens).1 false
    = Resume <$> take 8 (coroutine 10
                         :: sole_handles [0%nat; 1%nat] two_flush_tokens) /\
  forall f,
    release_flushes [0%nat; 1%nat]
      (getCB (coroutine 10) [0%nat; 1%nat] CBList.empty two_flush_tokens).2
      !! f
    = token_after_cancel [0%nat; 1%nat] f <$> two_flush_tokens !! f.
Proof.
  assert (Hnodup : NoDup [0%nat; 1%nat])
    by (apply (bool_decide_unpack _); vm_compute; exact I).
  split; [exact Hnodup|].
  exact (cancel_hands_over_flush_handles (coroutine 10) [0%nat; 1%nat]
           two_flush_tokens true false Hnodup).
Defined.

(** *** Runs of the writer *)

Lemma writer_meta_at_most_once_witness :
  exists st,
    send_run two_sends_turns (send_start scheduler_two_sends) = Some st /\
    (meta_sends 0 (run_sent st) <= 1)%nat /\
    (meta_sends 0 (run_sent st) = 1%nat ->
       initiated 0 (run_sched st) = true /\
       initiated 0 scheduler_two_sends = false) /\
    (initiated 0 scheduler_two_sends = true ->
       meta_sends 0 (run_sent st) = 0%nat /\
       initiated 0 (run_sched st) = true).
Proof.
  eexists. split; [vm_compute; reflexivity|].
  apply (writer_meta_at_most_once scheduler_two_sends two_sends_turns).
  vm_compute. reflexivity.
Defined.

Lemma writer_writes_frame_witness :
  send_at SendTask_init = AtNextSendOp /\
  send_restoreBuffer SendTask_init = [] /\
  mSlots_ scheduler_two_sends !! 0%nat = Some slot_two_sends /\
  mSendOps2_ slot_two_sends
    = queued_send 0 0 10 [170] :: [queued_send 0 1 11 [187; 204]] /\
  0 < Z.of_nat (length (sb_data (SendOperation2.mSendBuff
                                   (queued_send 0 0 10 [170])))) < u32_max /\
  mLocalId slot_two_sends <> u32_max /\
  well_formed_SessionID (mSessionID slot_two_sends) /\
  length (ControlBlock.data
            (scb_mCtrlBlk (mSendControlBlock2 scheduler_two_sends))) = 16%nat /\
  exists st,
    send_run
      (written_in_full 0
         (Z.of_nat (length (sb_data (SendOperation2.mSendBuff
                                       (queued_send 0 0 10 [170])))))
         (negb (mInitiated slot_two_sends)))
      {| run_task := SendTask_init; run_sched := scheduler_two_sends;
         run_request := AwaitNextSendOp (send_ec SendTask_init);
         run_sent := [] |}
      = Some st /\
    wire (run_sent st) =
      (if mInitiated slot_two_sends then [] else meta_frame slot_two_sends)
      ++ data_header slot_two_sends
           (sb_data (SendOperation2.mSendBuff (queued_send 0 0 10 [170])))
      ++ sb_data (SendOperation2.mSendBuff (queued_send 0 0 10 [170])) /\
    initiated 0 (run_sched st) = true /\
    run_request st = AwaitNextSendOp success /\
    send_restoreBuffer (run_task st) = [].
Proof.
  assert (Hsize :
    0 < Z.of_nat (length (sb_data (SendOperation2.mSendBuff
                                     (queued_send 0 0 10 [170])))) < u32_max)
    by (vm_compute; split; reflexivity).
  assert (Hid : mLocalId slot_two_sends <> u32_max)
    by (vm_compute; congruence).
  split; [reflexivity|]. split; [reflexivity|]. split; [reflexivity|].
  split; [reflexivity|]. split; [exact Hsize|]. split; [exact Hid|].
  split; [reflexivity|]. split; [reflexivity|].
  exact (writer_writes_frame SendTask_init scheduler_two_sends 0
           slot_two_sends (queued_send 0 0 10 [170])
           [queued_send 0 1 11 [187; 204]]
           eq_refl eq_refl eq_refl eq_refl Hsize Hid eq_refl eq_refl).
Defined.

(** *** The byte counter of the writer *)

Lemma send_continue_request ec bt restoreBuffer t s t' s' request :
  send_continue ec bt restoreBuffer t s = Some (t', s', request) ->
  request_matches t' request /\ s' = s.
Proof.
  unfold send_continue. intros H. injection H as <- <- <-.
  split; [exact I|reflexivity].
Qed.

Lemma send_header_step_request ec bt restoreBuffer t s t' s' request :
  send_header_step ec bt restoreBuffer t s = Some (t', s', request) ->
  request_matches t' request /\ mBytesSent s' = mBytesSent s.
Proof.
  unfold send_header_step. intros H.
  destruct (mSlots_ s !! send_slot t) as [sl|]; [|discriminate].
  cbn [mbind option_bind] in H. injection H as <- <- <-.
  split; [exact I|reflexivity].
Qed.

Lemma send_meta_step_request ec bt restoreBuffer t s t' s' request :
  send_meta_step ec bt restoreBuffer t s = Some (t', s', request) ->
  request_matches t' request /\ mBytesSent s' = mBytesSent s.
Proof.
  unfold send_meta_step. intros H.
  destruct (mSlots_ s !! send_slot t) as [sl|] eqn:Hslot; [|discriminate].
  cbn [mbind option_bind] in H.
  destruct (negb (mInitiated sl)).
  - injection H as <- <- <-. split; [exact I|reflexivity].
  - now apply send_header_step_request in H.
Qed.

(** One resumption: the next request is the one of the new suspension
    point, and the counter grows by the [bt] of the call answered. *)
Lemma send_resume_counts t s r t' s' request :
  send_resume t s r = Some (t', s', request) ->
  request_matches t' request /\
  mBytesSent s' =
    match r with
    | ResumeSockSend _ bt => wrap (mBytesSent s + bt)
    | ResumeNextSendOp _ => mBytesSent s
    end.
Proof.
  unfold send_resume. intros H.
  destruct (send_at t) eqn:Hat; destruct r as [[iter|]|ec bt];
    try discriminate.
  - destruct (mSlots_ s !! iter) as [sl|]; [|discriminate].
    cbn [mbind option_bind] in H.
    destruct (head (mSendOps2_ sl)) as [op|]; [|discriminate].
    cbn [mbind option_bind] in H.
    destruct (_ || _); [discriminate|].
    destruct (negb _).
    + injection H as <- <- <-. split; [exact I|reflexivity].
    + now apply send_meta_step_request in H.
  - destruct (is_error ec).
    + apply send_continue_request in H as [H ->]. split; [exact H|reflexivity].
    + apply send_meta_step_request in H as [H ->]. split; [exact H|reflexivity].
  - destruct (is_error ec).
    + apply send_continue_request in H as [H ->]. split; [exact H|reflexivity].
    + apply send_header_step_request in H as [H ->].
      split; [exact H|reflexivity].
  - destruct (is_error ec).
    + apply send_continue_request in H as [H ->]. split; [exact H|reflexivity].
    + injection H as <- <- <-. split; [exact I|reflexivity].
  - apply send_continue_request in H as [H ->]. split; [exact H|reflexivity].
Qed.

Lemma bytes_accepted_app sent sent' :
  bytes_accepted (sent ++ sent')
  = bytes_accepted sent + bytes_accepted sent'.
Proof.
  unfold bytes_accepted. induction sent as [|c sent IH].
  - cbn. lia.
  - cbn [app fmap list_fmap foldr] in *. rewrite IH. lia.
Qed.

Lemma send_turn_step_counts b0 turn st st' :
  request_matches (run_task st) (run_request st) ->
  mBytesSent (run_sched st) = wrap (b0 + bytes_accepted (run_sent st)) ->
  send_turn_step turn st = Some st' ->
  request_matches (run_task st') (run_request st') /\
  mBytesSent (run_sched st') = wrap (b0 + bytes_accepted (run_sent st')).
Proof.
  intros Hreq Hinv. unfold send_turn_step.
  set (s0 := match turn_pops turn with
             | Some slot => pop_send_op slot (run_sched st)
             | None => run_sched st
             end).
  assert (Hs0 : mBytesSent s0 = mBytesSent (run_sched st)).
  { subst s0. destruct (turn_pops turn); reflexivity. }
  destruct (send_resume (run_task st) s0 (turn_response turn))
    as [[[t' s'] request']|] eqn:Hres; [|discriminate].
  cbn [mbind option_bind]. intros H. injection H as <-.
  cbn [run_task run_request run_sched run_sent].
  pose proof (send_resume_counts _ _ _ _ _ _ Hres) as [Hreq' Hcount].
  split; [exact Hreq'|].
  rewrite bytes_accepted_app, Hcount, Hs0, Hinv.
  unfold send_resume in Hres. unfold request_matches in Hreq.
  destruct (send_at (run_task st)) eqn:Hat;
    destruct (run_request st) as [ec0|buffer];
    destruct (turn_response turn) as [iter|ec bt];
    try contradiction; try discriminate.
  all: cbn [bytes_accepted fmap list_fmap foldr sent_bt].
  all: rewrite ?wrap_wrap_add; f_equal; lia.
Qed.

Lemma send_run_counts b0 turns : forall st st',
  request_matches (run_task st) (run_request st) ->
  mBytesSent (run_sched st) = wrap (b0 + bytes_accepted (run_sent st)) ->
  send_run turns st = Some st' ->
  request_matches (run_task st') (run_request st') /\
  mBytesSent (run_sched st') = wrap (b0 + bytes_accepted (run_sent st')).
Proof.
  induction turns as [|turn turns IH]; intros st st' Hreq Hinv Hrun;
    cbn [send_run] in Hrun.
  - injection Hrun as <-. now split.
  - destruct (send_turn_step turn st) as [st1|] eqn:Hstep; [|discriminate].
    destruct (send_turn_step_counts b0 turn st st1 Hreq Hinv Hstep).
    now apply (IH st1 st').
Qed.

Lemma length_wire_accepted sent :
  Forall within_buffer sent ->
  Z.of_nat (length (wire sent)) = bytes_accepted sent.
Proof.
  unfold wire, bytes_accepted. induction 1 as [|c sent Hc _ IH].
  - reflexivity.
  - cbn [fmap list_fmap concat foldr]. rewrite length_app, length_take.
    unfold within_buffer in Hc.
    rewrite Nat2Z.inj_add, IH. lia.
Qed.

(** X14: in every run of the writer, [mBytesSent] has grown by the sum
    of the byte counts the calls of [sock->send] returned; when these
    stay within the buffers handed to the calls, that is the number of
    bytes put on the stream. *)
Theorem writer_counts_bytes s turns st :
  in_range (mBytesSent s) ->
  send_run turns (send_start s) = Some st ->
  mBytesSent (run_sched st) = wrap (mBytesSent s + bytes_accepted (run_sent st)) /\
  (Forall within_buffer (run_sent st) ->
   mBytesSent (run_sched st)
   = wrap (mBytesSent s + Z.of_nat (length (wire (run_sent st))))).
Proof.
  intros Hrange Hrun.
  destruct (send_run_counts (mBytesSent s) turns (send_start s) st) as [_ H].
  - exact I.
  - cbn [send_start run_sched run_sent bytes_accepted fmap list_fmap foldr].
    rewrite Z.add_0_r. symmetry. now apply wrap_small.
  - exact Hrun.
  - split; [exact H|].
    intros Hwithin. now rewrite length_wire_accepted.
Qed.

Lemma writer_counts_bytes_witness :
  in_range (mBytesSent scheduler_two_sends) /\
  exists st,
    send_run two_sends_turns (send_start scheduler_two_sends) = Some st /\
    mBytesSent (run_sched st)
    = wrap (mBytesSent scheduler_two_sends + bytes_accepted (run_sent st)) /\
    (Forall within_buffer (run_sent st) ->
     mBytesSent (run_sched st)
     = wrap (mBytesSent scheduler_two_sends
             + Z.of_nat (length (wire (run_sent st))))).
Proof.
  assert (Hr : in_range (mBytesSent scheduler_two_sends))
    by (unfold in_range, modulus; cbn; lia).
  split; [exact Hr|].
  eexists. split; [vm_compute; reflexivity|].
  apply (writer_counts_bytes scheduler_two_sends two_sends_turns _ Hr).
  vm_compute. reflexivity.
Defined.

(** *** Whole frames on the stream *)

Lemma wire_app sent sent' : wire (sent ++ sent') = wire sent ++ wire sent'.
Proof. unfold wire. now rewrite fmap_app, concat_app. Qed.

Lemma wire_call pc slot buffer ec bt :
  wire [{| sent_at := pc; sent_slot := slot; sent_buffer := buffer;
           sent_ec := ec; sent_bt := bt |}]
  = take (Z.to_nat bt) buffer.
Proof. unfold wire. cbn. apply app_nil_r. Qed.

Lemma frame_aligned_nil : frame_aligned [].
Proof. exists []. split; [constructor|reflexivity]. Qed.

Lemma frame_aligned_app stream f :
  frame_aligned stream -> is_frame f -> frame_aligned (stream ++ f).
Proof.
  intros (frames & Hall & ->) Hf. exists (frames ++ [f]). split.
  - apply Forall_app. split; [assumption|]. now constructor.
  - rewrite concat_app. cbn. now rewrite app_nil_r.
Qed.

Lemma sized_pop_send_op slot s :
  control_blocks_sized s -> control_blocks_sized (pop_send_op slot s).
Proof.
  intros [Hsids Hctrl]. split; [|exact Hctrl].
  unfold pop_send_op, update_slot.
  cbn [mSlots_ set_mSendBuffers_ set_mSlots_].
  apply Forall_alter; [assumption|]. intros sl _ Hsl. exact Hsl.
Qed.

Lemma send_header_step_aligned ec bt t s t' s' request :
  control_blocks_sized s -> data_sized t ->
  send_header_step ec bt [] t s = Some (t', s', request) ->
  control_blocks_sized s' /\
  send_at t' = AtHeaderSend /\
  request = AwaitSockSend (send_buffer t') /\
  send_restoreBuffer t' = [] /\
  is_frame (send_buffer t' ++ send_data t').
Proof.
  intros Hsized Hdata. unfold send_header_step.
  destruct (mSlots_ s !! send_slot t) as [sl|]; [|discriminate].
  cbn [mbind option_bind]. intros H. injection H as <- <- <-.
  cbn [send_at send_buffer send_restoreBuffer send_data].
  split; [exact Hsized|]. repeat split.
  right. exists (mLocalId sl), (send_data t). split; [exact Hdata|].
  reflexivity.
Qed.

Lemma send_meta_step_aligned ec bt t s t' s' request :
  control_blocks_sized s -> data_sized t ->
  send_meta_step ec bt [] t s = Some (t', s', request) ->
  control_blocks_sized s' /\
  request = AwaitSockSend (send_buffer t') /\
  send_restoreBuffer t' = [] /\
  ((send_at t' = AtMetaSend /\ is_frame (send_buffer t') /\ data_sized t') \/
   (send_at t' = AtHeaderSend /\ is_frame (send_buffer t' ++ send_data t'))).
Proof.
  intros Hsized Hdata. unfold send_meta_step.
  destruct (mSlots_ s !! send_slot t) as [sl|] eqn:Hslot; [|discriminate].
  cbn [mbind option_bind].
  destruct (negb (mInitiated sl)).
  - intros H. injection H as <- <- <-.
    cbn [send_at send_buffer send_restoreBuffer send_data].
    destruct Hsized as [Hsids Hctrl].
    assert (Hsid : well_formed_SessionID (mSessionID sl)).
    { rewrite Forall_lookup in Hsids. exact (Hsids _ _ Hslot). }
    unfold well_formed_SessionID in Hsid.
    assert (Hlen :
      length (ControlBlock.data
                (ControlBlock.setSessionID (mSessionID sl)
                   (ControlBlock.setType ControlBlock.NewSlot
                      (scb_mCtrlBlk
                         (mSendControlBlock2
                            (update_slot (send_slot t) (set_mInitiated true) s))))))
      = 16%nat).
    { unfold ControlBlock.setSessionID, ControlBlock.setType,
        ControlBlock.memcpy. cbn [ControlBlock.data].
      rewrite length_app, length_take, length_drop.
      unfold update_slot. cbn [mSendControlBlock2 set_mSlots_]. lia. }
    split; [split|].
    + unfold update_slot. cbn [mSlots_ set_mSendControlBlock2 set_mSlots_].
      apply Forall_alter; [assumption|]. intros sl' _ Hsl'. exact Hsl'.
    + cbn [mSendControlBlock2 set_mSendControlBlock2 scb_mCtrlBlk].
      exact Hlen.
    + split; [reflexivity|]. split; [reflexivity|]. left.
      split; [reflexivity|]. split; [|exact Hdata].
      left. eexists (mLocalId sl), _. split; [exact Hlen|].
      reflexivity.
  - intros H.
    destruct (send_header_step_aligned _ _ _ _ _ _ _ Hsized Hdata H)
      as (Hs' & Hat & Hreq & Hrestore & Hframe).
    split; [exact Hs'|]. split; [exact Hreq|]. split; [exact Hrestore|].
    right. now split.
Qed.

Lemma take_drop_owed (w buffer rest : bytes) (bt : Z) :
  (w ++ take (Z.to_nat bt) buffer) ++ drop (Z.to_nat bt) buffer ++ rest
  = w ++ buffer ++ rest.
Proof.
  rewrite <- app_assoc. f_equal. rewrite app_assoc. f_equal.
  apply take_drop.
Qed.

(** Splits a goal into its conjuncts and closes the trivial ones. *)
Ltac split_conj :=
  repeat match goal with |- _ /\ _ => split end;
  try assumption; try reflexivity.

Lemma send_turn_step_aligned turn st st' :
  writer_aligned st ->
  send_turn_step turn st = Some st' ->
  Forall completes_or_aborts (run_sent st') ->
  writer_aligned st'.
Proof.
  intros [Hsized Hpc]. unfold send_turn_step.
  set (s0 := match turn_pops turn with
             | Some slot => pop_send_op slot (run_sched st)
             | None => run_sched st
             end).
  assert (Hs0 : control_blocks_sized s0).
  { subst s0. destruct (turn_pops turn); [|assumption].
    now apply sized_pop_send_op. }
  clearbody s0.
  destruct (send_resume (run_task st) s0 (turn_response turn))
    as [[[t' s'] request']|] eqn:Hres; [|discriminate].
  cbn [mbind option_bind]. intros H Hcalls. injection H as <-.
  cbn [run_sent] in Hcalls.
  unfold writer_aligned. cbn [run_task run_sched run_request run_sent].
  unfold send_resume in Hres.
  destruct (send_at (run_task st)) eqn:Hat.
  - (* awaiting NextSendOp *)
    destruct Hpc as [[ec0 Hreq] Haligned]. rewrite Hreq.
    destruct (turn_response turn) as [[iter|]|ec bt]; try discriminate.
    rewrite app_nil_r.
    destruct (mSlots_ s0 !! iter) as [sl|]; [|discriminate].
    cbn [mbind option_bind] in Hres.
    destruct (head (mSendOps2_ sl)) as [op|]; [|discriminate].
    cbn [mbind option_bind] in Hres.
    set (data := sb_data (SendOperation2.mSendBuff op)) in *.
    destruct (Z.eqb_spec (Z.of_nat (length data)) 0) as [|Hne0];
      [discriminate|].
    destruct (Z.ltb_spec (Z.of_nat (length data)) u32_max) as [Hlt|];
      [|discriminate].
    cbn [orb negb] in Hres.
    destruct (mLocalId sl =? u32_max); [discriminate|].
    assert (Hdata : 0 < Z.of_nat (length data) < u32_max) by lia.
    destruct (Z.eqb_spec (Z.of_nat (length (send_restoreBuffer (run_task st)))) 0)
      as [Hempty|Hnonempty]; cbn [negb] in Hres.
    + assert (Hnil : send_restoreBuffer (run_task st) = []).
      { destruct (send_restoreBuffer (run_task st)); [reflexivity|].
        cbn in Hempty. lia. }
      rewrite Hnil in Hres, Haligned. rewrite app_nil_r in Haligned.
      apply send_meta_step_aligned in Hres
        as (Hs' & -> & Hrestore & [(Hat' & Hframe & Hdata')|(Hat' & Hframe)]);
        [| |assumption|exact Hdata].
      * split; [exact Hs'|]. rewrite Hat'. split_conj.
      * split; [exact Hs'|]. rewrite Hat'. split_conj.
    + injection Hres as <- <- <-. split; [exact Hs0|].
      cbn [send_at send_buffer send_data]. split_conj.
  - (* the restore buffer was sent *)
    destruct Hpc as (Hreq & Haligned & Hdata). rewrite Hreq in *.
    destruct (turn_response turn) as [iter|ec bt]; try discriminate.
    apply Forall_app in Hcalls as [_ Hcall].
    apply Forall_inv in Hcall. unfold completes_or_aborts in Hcall.
    cbn [sent_ec sent_bt sent_buffer sent_at] in Hcall.
    rewrite wire_app, wire_call.
    destruct Hcall as [[Hec Hbt]|(Hec & Hbt & _)]; subst ec.
    + cbn [is_aborted is_error] in Hres.
      rewrite (take_all _ _ Hbt).
      apply send_meta_step_aligned in Hres
        as (Hs' & -> & Hrestore & [(Hat' & Hframe & Hdata')|(Hat' & Hframe)]);
        [| |exact Hs0|exact Hdata].
      * split; [exact Hs'|]. rewrite Hat'. split_conj.
      * split; [exact Hs'|]. rewrite Hat'. split_conj.
    + cbn [is_aborted is_error] in Hres. unfold send_continue in Hres.
      injection Hres as <- <- <-. split; [exact Hs0|].
      cbn [send_at send_restoreBuffer]. split; [now eexists|].
      unfold subspan. rewrite <- app_assoc, take_drop. exact Haligned.
  - (* the meta frame was sent *)
    destruct Hpc as (Hreq & Hrestore & Haligned & Hframe & Hdata).
    rewrite Hreq in *.
    destruct (turn_response turn) as [iter|ec bt]; try discriminate.
    apply Forall_app in Hcalls as [_ Hcall].
    apply Forall_inv in Hcall. unfold completes_or_aborts in Hcall.
    cbn [sent_ec sent_bt sent_buffer sent_at] in Hcall.
    rewrite wire_app, wire_call. rewrite Hrestore in Hres.
    destruct Hcall as [[Hec Hbt]|(Hec & Hbt & _)]; subst ec.
    + cbn [is_aborted is_error andb] in Hres.
      rewrite (take_all _ _ Hbt).
      apply send_header_step_aligned in Hres
        as (Hs' & Hat' & -> & Hrestore' & Hframe');
        [|exact Hs0|exact Hdata].
      split; [exact Hs'|]. rewrite Hat'. split_conj.
      now apply frame_aligned_app.
    + cbn [is_aborted is_error andb] in Hres. unfold send_continue in Hres.
      injection Hres as <- <- <-. split; [exact Hs0|].
      cbn [send_at send_restoreBuffer]. split; [now eexists|].
      destruct (Z.eqb_spec bt 0) as [->|Hpos]; cbn [negb].
      * change (Z.to_nat 0) with 0%nat. cbn [take]. rewrite !app_nil_r.
        exact Haligned.
      * cbn [app]. unfold subspan. rewrite <- app_assoc, take_drop.
        now apply frame_aligned_app.
  - (* the header was sent *)
    destruct Hpc as (Hreq & Hrestore & Haligned & Hframe).
    rewrite Hreq in *.
    destruct (turn_response turn) as [iter|ec bt]; try discriminate.
    apply Forall_app in Hcalls as [_ Hcall].
    apply Forall_inv in Hcall. unfold completes_or_aborts in Hcall.
    cbn [sent_ec sent_bt sent_buffer sent_at] in Hcall.
    rewrite wire_app, wire_call. rewrite Hrestore in Hres.
    destruct Hcall as [[Hec Hbt]|(Hec & Hbt & _)]; subst ec.
    + cbn [is_aborted is_error andb] in Hres.
      rewrite (take_all _ _ Hbt).
      injection Hres as <- <- <-. split; [exact Hs0|].
      cbn [send_at send_restoreBuffer send_data]. split_conj.
      rewrite <- app_assoc. now apply frame_aligned_app.
    + cbn [is_aborted is_error andb] in Hres. unfold send_continue in Hres.
      injection Hres as <- <- <-. split; [exact Hs0|].
      cbn [send_at send_restoreBuffer]. split; [now eexists|].
      destruct (Z.eqb_spec bt 0) as [->|Hpos]; cbn [negb].
      * change (Z.to_nat 0) with 0%nat. cbn [take]. rewrite !app_nil_r.
        exact Haligned.
      * cbn [app]. unfold subspan. rewrite take_drop_owed.
        now apply frame_aligned_app.
  - (* the payload was sent *)
    destruct Hpc as (Hreq & Hrestore & Haligned).
    rewrite Hreq in *.
    destruct (turn_response turn) as [iter|ec bt]; try discriminate.
    apply Forall_app in Hcalls as [_ Hcall].
    apply Forall_inv in Hcall. unfold completes_or_aborts in Hcall.
    cbn [sent_ec sent_bt sent_buffer sent_at] in Hcall.
    rewrite wire_app, wire_call. rewrite Hrestore in Hres.
    unfold send_continue in Hres.
    destruct Hcall as [[Hec Hbt]|(Hec & Hbt & Hpos)]; subst ec.
    + cbn [is_aborted andb] in Hres. injection Hres as <- <- <-.
      split; [exact Hs0|].
      cbn [send_at send_restoreBuffer]. split; [now eexists|].
      rewrite app_nil_r, (take_all _ _ Hbt). exact Haligned.
    + specialize (Hpos eq_refl).
      destruct (Z.eqb_spec bt 0) as [|_]; [lia|].
      cbn [is_aborted andb negb app] in Hres. injection Hres as <- <- <-.
      split; [exact Hs0|].
      cbn [send_at send_restoreBuffer]. split; [now eexists|].
      unfold subspan. rewrite <- app_assoc, take_drop. exact Haligned.
Qed.

Lemma send_turn_step_extends turn st st' :
  send_turn_step turn st = Some st' ->
  exists more, run_sent st' = run_sent st ++ more.
Proof.
  unfold send_turn_step.
  destruct (send_resume _ _ _) as [[[t' s'] request']|]; [|discriminate].
  cbn [mbind option_bind]. intros H. injection H as <-.
  cbn [run_sent]. now eexists.
Qed.

Lemma send_run_extends turns : forall st st',
  send_run turns st = Some st' ->
  exists more, run_sent st' = run_sent st ++ more.
Proof.
  induction turns as [|turn turns IH]; intros st st' Hrun;
    cbn [send_run] in Hrun.
  - injection Hrun as <-. exists []. now rewrite app_nil_r.
  - destruct (send_turn_step turn st) as [st1|] eqn:Hstep; [|discriminate].
    destruct (send_turn_step_extends _ _ _ Hstep) as [more1 H1].
    destruct (IH _ _ Hrun) as [more2 H2].
    exists (more1 ++ more2). now rewrite H2, H1, app_assoc.
Qed.

Lemma send_run_aligned turns : forall st st',
  writer_aligned st ->
  send_run turns st = Some st' ->
  Forall completes_or_aborts (run_sent st') ->
  writer_aligned st'.
Proof.
  induction turns as [|turn turns IH]; intros st st' Hinv Hrun Hcalls;
    cbn [send_run] in Hrun.
  - now injection Hrun as <-.
  - destruct (send_turn_step turn st) as [st1|] eqn:Hstep; [|discriminate].
    apply (IH st1 st'); [|assumption|assumption].
    apply (send_turn_step_aligned turn st st1 Hinv Hstep).
    destruct (send_run_extends _ _ _ Hrun) as [more Hmore].
    rewrite Hmore in Hcalls. now apply Forall_app in Hcalls as [H _].
Qed.

(** X15: in every run of the writer in which each call of [sock->send]
    completes or is aborted by the stop token, an aborted write of a
    payload having written at least one byte: the bytes on the stream,
    followed by what the writer still owes, are a sequence of whole
    frames.  When the writer awaits [NextSendOp], what it owes is the
    restore buffer. *)
Theorem writer_keeps_frames_whole s turns st :
  control_blocks_sized s ->
  send_run turns (send_start s) = Some st ->
  Forall completes_or_aborts (run_sent st) ->
  frame_aligned (wire (run_sent st) ++ owed (run_task st)).
Proof.
  intros Hsized Hrun Hcalls.
  assert (Hstart : writer_aligned (send_start s)).
  { split; [exact Hsized|]. cbn. split; [now eexists|].
    apply frame_aligned_nil. }
  destruct (send_run_aligned turns _ _ Hstart Hrun Hcalls) as [_ Hpc].
  unfold owed. destruct (send_at (run_task st)).
  - now destruct Hpc.
  - now destruct Hpc as (_ & H & _).
  - destruct Hpc as (_ & _ & Haligned & Hframe & _).
    now apply frame_aligned_app.
  - destruct Hpc as (_ & _ & Haligned & Hframe).
    now apply frame_aligned_app.
  - now destruct Hpc as (_ & _ & H).
Qed.

Lemma writer_keeps_frames_whole_witness :
  control_blocks_sized scheduler_two_sends /\
  exists st,
    send_run payload_abort_turns (send_start scheduler_two_sends) = Some st /\
    Forall completes_or_aborts (run_sent st) /\
    frame_aligned (wire (run_sent st) ++ owed (run_task st)).
Proof.
  assert (Hsized : control_blocks_sized scheduler_two_sends).
  { split; [|reflexivity].
    apply Forall_cons; split; [reflexivity|apply List.Forall_nil]. }
  split; [exact Hsized|].
  eexists. split; [vm_compute; reflexivity|].
  assert (Hcalls :
    Forall completes_or_aborts
      [ {| sent_at := AtMetaSend; sent_slot := 0;
           sent_buffer := meta_frame slot_two_sends;
           sent_ec := success; sent_bt := 24 |};
        {| sent_at := AtHeaderSend; sent_slot := 0;
           sent_buffer := data_header slot_two_sends [170];
           sent_ec := success; sent_bt := 8 |};
        {| sent_at := AtBodySend; sent_slot := 0; sent_buffer := [170];
           sent_ec := success; sent_bt := 1 |};
        {| sent_at := AtHeaderSend; sent_slot := 0;
           sent_buffer := data_header slot_two_sends [187; 204];
           sent_ec := success; sent_bt := 8 |};
        {| sent_at := AtBodySend; sent_slot := 0; sent_buffer := [187; 204];
           sent_ec := operation_aborted; sent_bt := 1 |} ]).
  { repeat (apply Forall_cons; split);
      [left; split; reflexivity ..
      |right; split; [reflexivity|]; cbn; split; lia
      |apply List.Forall_nil]. }
  split; [exact Hcalls|].
  apply (writer_keeps_frames_whole scheduler_two_sends payload_abort_turns
           _ Hsized); [vm_compute; reflexivity|exact Hcalls].
Defined.

(** *** The receiver task: frames read back *)

Lemma le_value_le_bytes n z :
  le_value (le_bytes n z) = z mod 256 ^ Z.of_nat n.
Proof.
  revert z. induction n as [|n IH]; intros z.
  - cbn. now rewrite Z.mod_1_r.
  - cbn [le_bytes le_value]. rewrite IH.
    rewrite Nat2Z.inj_succ, Z.pow_succ_r by lia.
    rewrite Z.rem_mul_r by lia. reflexivity.
Qed.

Lemma Header_of_bytes_Header_bytes a b :
  Header_of_bytes (Header_bytes (a, b)) = (a mod 2 ^ 32, b mod 2 ^ 32).
Proof.
  unfold Header_of_bytes, Header_bytes. cbn [fst snd].
  rewrite take_app_length' by (now rewrite length_le_bytes).
  rewrite drop_app_length' by (now rewrite length_le_bytes).
  rewrite take_ge by (rewrite length_le_bytes; lia).
  now rewrite !le_value_le_bytes.
Qed.

Lemma overwrite_whole (received old : bytes) :
  length received = length old -> overwrite received old = received.
Proof.
  intros Hlen. unfold overwrite. rewrite drop_ge by lia. apply app_nil_r.
Qed.

Lemma recv_header_read (h : Header) s :
  Header_of_bytes (overwrite (Header_bytes h) (getRecvHeader s))
  = (h.1 mod 2 ^ 32, h.2 mod 2 ^ 32).
Proof.
  unfold getRecvHeader.
  rewrite overwrite_whole by now rewrite !length_Header_bytes.
  destruct h as [a b]. apply Header_of_bytes_Header_bytes.
Qed.

(** The head of the queue is the only operation with its iterator. *)
Lemma update_head_op slot self f s sl op rest :
  mSlots_ s !! slot = Some sl ->
  mRecvOps2_ sl = op :: rest ->
  RecvOperation2.mSelfIter op = self ->
  Forall (fun o => RecvOperation2.mSelfIter o <> self) rest ->
  mSlots_ (update_recv_op slot self f s) !! slot
  = Some (set_mRecvOps2_ (f op :: rest) sl).
Proof.
  intros Hslot Hops Hself Hrest.
  assert (Hmap :
    (fun o => if Nat.eqb (RecvOperation2.mSelfIter o) self then f o else o)
      <$> rest = rest).
  { clear Hops. induction Hrest as [|o rest Ho _ IH]; [reflexivity|].
    cbn [fmap list_fmap] in *. rewrite IH. f_equal.
    destruct (Nat.eqb_spec (RecvOperation2.mSelfIter o) self);
      [contradiction|reflexivity]. }
  unfold update_recv_op, update_slot.
  cbn [mSlots_ set_mSlots_].
  rewrite list_lookup_alter_eq, Hslot. cbn [fmap option_fmap option_map].
  f_equal. f_equal. rewrite Hops. cbn [fmap list_fmap].
  rewrite Hself, Nat.eqb_refl. f_equal. exact Hmap.
Qed.

(** X16: a data frame from the stream is delivered to the receive at the
    head of the slot's queue.  The task is at the read of a header; the
    stream delivers the header of a data frame for [size = |payload|]
    bytes, [getRequestedRecvSlot] answers with [slot], whose head
    receive has a buffer of that size, and the stream delivers the
    payload; the scheduler is left alone meanwhile.  Then the payload is
    in the buffer of that receive, no error is set, the other receives
    are untouched, [mBytesReceived] has grown by [8 + size], and the
    task awaits [anyRecvOp] with no error. *)
Theorem recv_delivers_data_frame initRemoteSlot t s slot sl op rest
    slotId payload :
  recv_at t = AtHeaderRecv ->
  mClosed s = false ->
  mSlots_ s !! slot = Some sl ->
  mRecvOps2_ sl = op :: rest ->
  Forall (fun o => RecvOperation2.mSelfIter o <> RecvOperation2.mSelfIter op)
    rest ->
  0 < Z.of_nat (length payload) < u32_max ->
  length (rb_data (RecvOperation2.mRecvBuffer op)) = length payload ->
  exists t' s',
    recv_run initRemoteSlot
      [undisturbed
         (ResumeSockRecv success
            (Header_bytes (u32 (Z.of_nat (length payload)), slotId)));
       undisturbed (ResumeRequestedRecvSlot (Some slot));
       undisturbed (ResumeSockRecv success payload)]
      (t, s, AwaitSockRecv 8 false)
    = Some (t', s', AwaitAnyRecvOp success) /\
    mSlots_ s' !! slot
    = Some (set_mRecvOps2_
              (set_mRecvBuffer
                 {| rb_data := payload;
                    rb_error := rb_error (RecvOperation2.mRecvBuffer op) |} op
               :: rest) sl) /\
    (forall j, j <> slot -> mSlots_ s' !! j = mSlots_ s !! j) /\
    mBytesReceived s'
    = wrap (mBytesReceived s + 8 + Z.of_nat (length payload)) /\
    mHaveRecvHeader s' = false /\
    recv_restoreReadSize t' = recv_restoreReadSize t.
Proof.
  intros Hat Hclosed Hslot Hops Hrest Hsize Hbuffer.
  assert (Hu32 : u32 (Z.of_nat (length payload)) = Z.of_nat (length payload)).
  { unfold u32. apply Z.mod_small. unfold u32_max in Hsize. lia. }
  cbn [recv_run undisturbed turn_scheduler turn_received fst snd].
  (* the header *)
  unfold recv_resume at 1. rewrite Hat. cbn [is_error].
  unfold getRecvHeaderSize at 1.
  cbn [mRecvHeader add_mBytesReceived set_mBytesReceived set_mRecvHeader].
  rewrite recv_header_read. cbn [fst snd].
  rewrite Hu32.
  rewrite (Z.mod_small (Z.of_nat (length payload)))
    by (unfold u32_max in Hsize; lia).
  destruct (Z.eqb_spec (Z.of_nat (length payload)) 0) as [|_]; [lia|].
  unfold recv_header_loop. cbn [mHaveRecvHeader set_mHaveRecvHeader negb].
  unfold recv_after_loop. cbn [is_error].
  (* the slot *)
  cbn [fst snd]. unfold recv_resume at 1. cbn [recv_at set_recv_at].
  cbn [mClosed set_mHaveRecvHeader mSlots_ add_mBytesReceived
       set_mBytesReceived set_mRecvHeader].
  rewrite Hclosed, Hslot. cbn [mbind option_bind]. rewrite Hops.
  cbn [head mbind option_bind].
  unfold asSpan_size, getRecvHeaderSize.
  cbn [mRecvHeader set_mHaveRecvHeader add_mBytesReceived set_mBytesReceived
       set_mRecvHeader fst snd].
  rewrite Hbuffer, Z.eqb_refl. cbn [negb].
  (* the payload *)
  cbn [fst snd]. unfold recv_resume at 1.
  cbn [recv_at set_recv_at set_recv_op is_aborted recv_slot recv_op
       recv_buffer_size].
  unfold recv_continue.
  eexists. eexists. split; [reflexivity|].
  split; [|split; [|split; [|split]]].
  - erewrite update_head_op; [| |exact Hops|reflexivity|exact Hrest].
    + rewrite overwrite_whole by (symmetry; exact Hbuffer). reflexivity.
    + exact Hslot.
  - intros j Hj. unfold update_recv_op, update_slot.
    cbn [mSlots_ set_mSlots_ add_mBytesReceived set_mBytesReceived
         set_mHaveRecvHeader set_mRecvHeader].
    now rewrite list_lookup_alter_ne by congruence.
  - unfold update_recv_op, update_slot, add_mBytesReceived.
    cbn [mBytesReceived set_mSlots_ set_mBytesReceived set_mHaveRecvHeader
         set_mRecvHeader].
    rewrite length_Header_bytes. rewrite wrap_wrap_add. reflexivity.
  - reflexivity.
  - reflexivity.
Qed.

Lemma recv_delivers_data_frame_witness :
  recv_at RecvTask_at_header = AtHeaderRecv /\
  mClosed scheduler_two_sends = false /\
  mSlots_ scheduler_two_sends !! 0%nat = Some slot_two_sends /\
  mRecvOps2_ slot_two_sends = queued_recv 0 0 30 4 :: [] /\
  Forall (fun o => RecvOperation2.mSelfIter o
                   <> RecvOperation2.mSelfIter (queued_recv 0 0 30 4)) [] /\
  0 < Z.of_nat (length [1; 2; 3; 4]) < u32_max /\
  length (rb_data (RecvOperation2.mRecvBuffer (queued_recv 0 0 30 4)))
    = length [1; 2; 3; 4] /\
  exists t' s',
    recv_run initRemoteSlot_accept
      [undisturbed
         (ResumeSockRecv success
            (Header_bytes (u32 (Z.of_nat (length [1; 2; 3; 4])), 7)));
       undisturbed (ResumeRequestedRecvSlot (Some 0%nat));
       undisturbed (ResumeSockRecv success [1; 2; 3; 4])]
      (RecvTask_at_header, scheduler_two_sends, AwaitSockRecv 8 false)
    = Some (t', s', AwaitAnyRecvOp success) /\
    mSlots_ s' !! 0%nat
    = Some (set_mRecvOps2_
              (set_mRecvBuffer
                 {| rb_data := [1; 2; 3; 4];
                    rb_error :=
                      rb_error (RecvOperation2.mRecvBuffer
                                  (queued_recv 0 0 30 4)) |}
                 (queued_recv 0 0 30 4)
               :: []) slot_two_sends) /\
    (forall j, j <> 0%nat ->
       mSlots_ s' !! j = mSlots_ scheduler_two_sends !! j) /\
    mBytesReceived s'
    = wrap (mBytesReceived scheduler_two_sends + 8
            + Z.of_nat (length [1; 2; 3; 4])) /\
    mHaveRecvHeader s' = false /\
    recv_restoreReadSize t' = recv_restoreReadSize RecvTask_at_header.
Proof.
  assert (Hsize : 0 < Z.of_nat (length [1; 2; 3; 4]) < u32_max)
    by (vm_compute; split; reflexivity).
  split; [reflexivity|]. split; [reflexivity|]. split; [reflexivity|].
  split; [reflexivity|]. split; [apply List.Forall_nil|].
  split; [exact Hsize|]. split; [reflexivity|].
  exact (recv_delivers_data_frame initRemoteSlot_accept RecvTask_at_header
           scheduler_two_sends 0 slot_two_sends (queued_recv 0 0 30 4) [] 7
           [1; 2; 3; 4] eq_refl eq_refl eq_refl eq_refl (List.Forall_nil _)
           Hsize eq_refl).
Defined.

(** X17: a read of a payload that is cancelled: the stream returns
    [operation_aborted] after [received], fewer bytes than the buffer
    holds.  The receive at the head of the queue keeps the bytes read
    and is failed with [operation_aborted]; the task goes back to
    [anyRecvOp] with that code and remembers how many bytes of the
    payload are still to come; resumed from [anyRecvOp], whatever the
    scheduler then is, it first reads that many bytes, without a stop
    token, into its restore buffer. *)
Theorem recv_cancelled_read_is_drained initRemoteSlot t s slot sl op rest
    received :
  recv_at t = AtBodyRecv ->
  recv_slot t = slot ->
  recv_op t = RecvOperation2.mSelfIter op ->
  mSlots_ s !! slot = Some sl ->
  mRecvOps2_ sl = op :: rest ->
  Forall (fun o => RecvOperation2.mSelfIter o <> RecvOperation2.mSelfIter op)
    rest ->
  Z.of_nat (length received) < recv_buffer_size t < modulus ->
  exists t1 s1,
    recv_resume initRemoteSlot t s (ResumeSockRecv operation_aborted received)
    = Some (t1, s1, AwaitAnyRecvOp operation_aborted) /\
    mSlots_ s1 !! slot
    = Some (set_mRecvOps2_
              (failed_with operation_aborted (received_into received op)
               :: rest) sl) /\
    mBytesReceived s1 = wrap (mBytesReceived s + Z.of_nat (length received)) /\
    recv_restoreReadSize t1
    = recv_buffer_size t - Z.of_nat (length received) /\
    forall s2, exists t2,
      recv_resume initRemoteSlot t1 s2 ResumeAnyRecvOp
      = Some (t2, s2,
              AwaitSockRecv
                (recv_buffer_size t - Z.of_nat (length received)) false) /\
      recv_at t2 = AtRestoreRecv.
Proof.
  intros Hat Hslot_t Hop Hslot Hops Hrest Hsize.
  set (bt := Z.of_nat (length received)) in *.
  assert (Hwrap : wrap (recv_buffer_size t - bt) = recv_buffer_size t - bt).
  { apply wrap_small. unfold in_range. lia. }
  pose proof (update_head_op slot (RecvOperation2.mSelfIter op)
                (received_into received) (add_mBytesReceived bt s) sl op rest
                Hslot Hops eq_refl Hrest) as Hhead.
  unfold recv_resume at 1. rewrite Hat, Hslot_t, Hop. cbn [is_aborted].
  fold bt. fold (received_into received).
  rewrite Hhead. cbn [mbind option_bind mRecvOps2_ set_mRecvOps2_ head].
  change (RecvOperation2.mSelfIter (received_into received op))
    with (RecvOperation2.mSelfIter op).
  rewrite Nat.eqb_refl. cbn [negb]. unfold recv_continue.
  eexists. eexists. split; [reflexivity|].
  split; [|split; [|split]].
  - fold (failed_with operation_aborted).
    erewrite update_head_op;
      [|exact Hhead|reflexivity|reflexivity|exact Hrest].
    reflexivity.
  - reflexivity.
  - cbn [recv_restoreReadSize set_recv_at set_recv_restore]. exact Hwrap.
  - intros s2. unfold recv_resume.
    cbn [recv_at set_recv_at set_recv_restore recv_restoreReadSize].
    rewrite Hwrap.
    destruct (Z.eqb_spec (recv_buffer_size t - bt) 0) as [|_]; [lia|].
    cbn [negb]. eexists. split; reflexivity.
Qed.

Lemma recv_cancelled_read_is_drained_witness :
  recv_at RecvTask_at_body = AtBodyRecv /\
  recv_slot RecvTask_at_body = 0%nat /\
  recv_op RecvTask_at_body = RecvOperation2.mSelfIter (queued_recv 0 0 30 4) /\
  mSlots_ scheduler_two_sends !! 0%nat = Some slot_two_sends /\
  mRecvOps2_ slot_two_sends = queued_recv 0 0 30 4 :: [] /\
  Forall (fun o => RecvOperation2.mSelfIter o
                   <> RecvOperation2.mSelfIter (queued_recv 0 0 30 4)) [] /\
  Z.of_nat (length [1; 2]) < recv_buffer_size RecvTask_at_body < modulus /\
  exists t1 s1,
    recv_resume initRemoteSlot_accept RecvTask_at_body scheduler_two_sends
      (ResumeSockRecv operation_aborted [1; 2])
    = Some (t1, s1, AwaitAnyRecvOp operation_aborted) /\
    mSlots_ s1 !! 0%nat
    = Some (set_mRecvOps2_
              (failed_with operation_aborted
                 (received_into [1; 2] (queued_recv 0 0 30 4))
               :: []) slot_two_sends) /\
    mBytesReceived s1
    = wrap (mBytesReceived scheduler_two_sends + Z.of_nat (length [1; 2])) /\
    recv_restoreReadSize t1
    = recv_buffer_size RecvTask_at_body - Z.of_nat (length [1; 2]) /\
    forall s2, exists t2,
      recv_resume initRemoteSlot_accept t1 s2 ResumeAnyRecvOp
      = Some (t2, s2,
              AwaitSockRecv
                (recv_buffer_size RecvTask_at_body
                 - Z.of_nat (length [1; 2])) false) /\
      recv_at t2 = AtRestoreRecv.
Proof.
  assert (Hsize :
    Z.of_nat (length [1; 2]) < recv_buffer_size RecvTask_at_body < modulus)
    by (vm_compute; split; reflexivity).
  split; [reflexivity|]. split; [reflexivity|]. split; [reflexivity|].
  split; [reflexivity|]. split; [reflexivity|].
  split; [apply List.Forall_nil|]. split; [exact Hsize|].
  exact (recv_cancelled_read_is_drained initRemoteSlot_accept RecvTask_at_body
           scheduler_two_sends 0 slot_two_sends (queued_recv 0 0 30 4) []
           [1; 2] eq_refl eq_refl eq_refl eq_refl eq_refl (List.Forall_nil _)
           Hsize).
Defined.

(** X18: the NewSlot meta frame the peer's writer sends for its slot
    [peer] is read back as the binding of that slot: after the 8 bytes
    of the header and the 16 bytes of the control block, the receiver
    calls [initRemoteSlot] with the peer's local id and the peer's
    session id, and goes on as the result of that call says. *)
Theorem recv_reads_meta_frame initRemoteSlot t s peer :
  recv_at t = AtHeaderRecv ->
  well_formed_SessionID (mSessionID peer) ->
  0 <= mLocalId peer < 2 ^ 32 ->
  length (ControlBlock.data (mRecvControlBlock s)) = 16%nat ->
  recv_run initRemoteSlot
    [undisturbed (ResumeSockRecv success (take 8 (meta_frame peer)));
     undisturbed (ResumeSockRecv success (drop 8 (meta_frame peer)))]
    (t, s, AwaitSockRecv 8 false)
  = let (ec, s2) :=
      initRemoteSlot (mLocalId peer) (mSessionID peer)
        (after_meta_frame peer s) in
    let t1 := set_recv_at AtControlBlockRecv success 16 16 t in
    if is_error ec then recv_after_loop ec t1 s2
    else recv_header_loop ec t1 s2.
Proof.
  intros Hat Hsid Hid Hctrl. unfold well_formed_SessionID in Hsid.
  assert (Htake : take 8 (meta_frame peer) = Header_bytes (0, mLocalId peer)).
  { unfold meta_frame.
    rewrite take_app_length' by (now rewrite length_Header_bytes).
    reflexivity. }
  assert (Hdrop : drop 8 (meta_frame peer) = mVal (mSessionID peer)).
  { unfold meta_frame.
    rewrite drop_app_length' by (now rewrite length_Header_bytes).
    apply take_ge. lia. }
  rewrite Htake, Hdrop.
  cbn [recv_run undisturbed turn_scheduler turn_received fst snd].
  unfold recv_resume at 1. rewrite Hat. cbn [is_error].
  unfold getRecvHeaderSize at 1.
  cbn [mRecvHeader add_mBytesReceived set_mBytesReceived set_mRecvHeader].
  rewrite recv_header_read. cbn [fst snd].
  rewrite Zmod_0_l. cbn [Z.eqb].
  cbn [fst snd]. unfold recv_resume at 1. cbn [recv_at set_recv_at is_error].
  rewrite length_Header_bytes.
  rewrite (Z.mod_small (mLocalId peer)) by lia.
  cbn [mRecvControlBlock add_mBytesReceived set_mBytesReceived set_mRecvHeader
       set_mRecvControlBlock mRecvHeader snd].
  rewrite overwrite_whole by lia.
  assert (Hgot :
    ControlBlock.getSessionID {| ControlBlock.data := mVal (mSessionID peer) |}
    = mSessionID peer).
  { unfold ControlBlock.getSessionID, ControlBlock.memcpy.
    cbn [ControlBlock.data]. rewrite take_ge by lia.
    unfold SessionID_default. cbn [mVal].
    rewrite drop_ge by (rewrite length_replicate; lia).
    rewrite app_nil_r. now destruct (mSessionID peer). }
  rewrite Hgot. rewrite Hsid.
  unfold after_meta_frame, add_mBytesReceived.
  cbn [mBytesReceived set_mBytesReceived set_mRecvHeader set_mRecvControlBlock].
  destruct (initRemoteSlot _ _ _) as [ec s2].
  change (set_recv_at AtControlBlockRecv success (Z.of_nat 16)
            (recv_buffer_size
               (set_recv_at AtControlBlockRecv success (Z.of_nat 8) 16 t))
            (set_recv_at AtControlBlockRecv success (Z.of_nat 8) 16 t))
    with (set_recv_at AtControlBlockRecv success 16 16 t).
  cbv zeta.
  now destruct (if is_error ec then _ else _).
Qed.

Lemma recv_reads_meta_frame_witness :
  recv_at RecvTask_at_header = AtHeaderRecv /\
  well_formed_SessionID (mSessionID slot_two_sends) /\
  0 <= mLocalId slot_two_sends < 2 ^ 32 /\
  length (ControlBlock.data (mRecvControlBlock scheduler_two_sends)) = 16%nat /\
  recv_run initRemoteSlot_accept
    [undisturbed (ResumeSockRecv success (take 8 (meta_frame slot_two_sends)));
     undisturbed (ResumeSockRecv success (drop 8 (meta_frame slot_two_sends)))]
    (RecvTask_at_header, scheduler_two_sends, AwaitSockRecv 8 false)
  = let (ec, s2) :=
      initRemoteSlot_accept (mLocalId slot_two_sends)
        (mSessionID slot_two_sends)
        (after_meta_frame slot_two_sends scheduler_two_sends) in
    let t1 := set_recv_at AtControlBlockRecv success 16 16 RecvTask_at_header in
    if is_error ec then recv_after_loop ec t1 s2
    else recv_header_loop ec t1 s2.
Proof.
  assert (Hid : 0 <= mLocalId slot_two_sends < 2 ^ 32)
    by (vm_compute; split; congruence).
  split; [reflexivity|]. split; [reflexivity|]. split; [exact Hid|].
  split; [reflexivity|].
  exact (recv_reads_meta_frame initRemoteSlot_accept RecvTask_at_header
           scheduler_two_sends slot_two_sends eq_refl eq_refl Hid eq_refl).
Defined.

(** *** The receiver task: what is left of a cancelled read *)

Lemma recv_continue_size ec t s t' s' request :
  recv_continue ec t s = Some (t', s', request) ->
  recv_restoreReadSize t' = recv_restoreReadSize t.
Proof. unfold recv_continue. intros H. now injection H as <- <- <-. Qed.

Lemma recv_after_loop_size ec t s t' s' request :
  recv_after_loop ec t s = Some (t', s', request) ->
  recv_restoreReadSize t' = recv_restoreReadSize t.
Proof.
  unfold recv_after_loop. destruct (is_error ec).
  - apply recv_continue_size.
  - intros H. now injection H as <- <- <-.
Qed.

Lemma recv_header_loop_size ec t s t' s' request :
  recv_header_loop ec t s = Some (t', s', request) ->
  recv_restoreReadSize t' = recv_restoreReadSize t.
Proof.
  unfold recv_header_loop. destruct (negb (mHaveRecvHeader s)).
  - intros H. now injection H as <- <- <-.
  - apply recv_after_loop_size.
Qed.

(** A resumption that is not the return of an aborted read leaves
    [restoreReadSize] as it was. *)
Lemma recv_resume_size initRemoteSlot t s r t' s' request :
  (forall received, r <> ResumeSockRecv operation_aborted received) ->
  recv_resume initRemoteSlot t s r = Some (t', s', request) ->
  recv_restoreReadSize t' = recv_restoreReadSize t.
Proof.
  intros Hr. unfold recv_resume.
  destruct (recv_at t); destruct r as [|ec received|iter]; try discriminate.
  - destruct (negb (recv_restoreReadSize t =? 0)).
    + intros H. now injection H as <- <- <-.
    + apply recv_header_loop_size.
  - destruct (is_error ec); intros H.
    + now apply recv_continue_size in H.
    + now apply recv_header_loop_size in H.
  - destruct (is_error ec); [|destruct (_ =? 0)]; intros H.
    + now apply recv_after_loop_size in H.
    + now injection H as <- <- <-.
    + now apply recv_header_loop_size in H.
  - destruct (is_error ec); intros H.
    + now apply recv_after_loop_size in H.
    + destruct (initRemoteSlot _ _ _) as [ec' s2].
      destruct (is_error ec').
      * now apply recv_after_loop_size in H.
      * now apply recv_header_loop_size in H.
  - destruct (mClosed (set_mHaveRecvHeader false s)); intros H.
    + now apply recv_continue_size in H.
    + destruct iter as [slot|].
      * destruct (mSlots_ _ !! slot) as [sl|]; [|discriminate].
        cbn [mbind option_bind] in H.
        destruct (head (mRecvOps2_ sl)) as [op|]; [|discriminate].
        cbn [mbind option_bind] in H.
        destruct (negb _).
        -- now apply recv_continue_size in H.
        -- now injection H as <- <- <-.
      * now apply recv_continue_size in H.
  - destruct ec; try (intros H; now apply recv_continue_size in H).
    exfalso. now apply (Hr received).
Qed.

Lemma recv_run_size initRemoteSlot turns : forall c c',
  Forall not_aborted turns ->
  recv_run initRemoteSlot turns c = Some c' ->
  recv_restoreReadSize c'.1.1 = recv_restoreReadSize c.1.1.
Proof.
  induction turns as [|turn turns IH]; intros c c' Hturns Hrun;
    cbn [recv_run] in Hrun.
  - now injection Hrun as <-.
  - apply Forall_cons in Hturns as [Hturn Hturns].
    destruct (recv_resume _ _ _ _) as [[[t1 s1] request1]|] eqn:Hres;
      [|discriminate].
    rewrite (IH _ _ Hturns Hrun). cbn [fst].
    exact (recv_resume_size _ _ _ _ _ _ _ Hturn Hres).
Qed.

(** The drain of a cancelled read: when [restoreReadSize] is not zero,
    the task resumed from [anyRecvOp] first reads that many bytes. *)
Lemma recv_drains_first initRemoteSlot t s :
  recv_at t = AtAnyRecvOp -> recv_restoreReadSize t <> 0 ->
  recv_next_request (recv_resume initRemoteSlot t s ResumeAnyRecvOp)
  = Some (AwaitSockRecv (recv_restoreReadSize t) false).
Proof.
  intros Hat Hsize. unfold recv_resume. rewrite Hat.
  destruct (Z.eqb_spec (recv_restoreReadSize t) 0); [contradiction|].
  reflexivity.
Qed.

(** X19: [restoreReadSize] is written only where a read of a payload is
    aborted.  In a run of the receiver in which no read is aborted it
    keeps its value, whatever the stream delivers and whatever happens
    to the scheduler in between; if that value is not zero, the task
    resumed from [anyRecvOp] at the end of the run begins by reading
    that many bytes from the stream, as it did before. *)
Theorem recv_drain_size_kept initRemoteSlot turns t s request t' s' request' :
  Forall not_aborted turns ->
  recv_run initRemoteSlot turns (t, s, request) = Some (t', s', request') ->
  recv_restoreReadSize t' = recv_restoreReadSize t /\
  (recv_at t' = AtAnyRecvOp -> recv_restoreReadSize t <> 0 ->
   forall s'',
     recv_next_request (recv_resume initRemoteSlot t' s'' ResumeAnyRecvOp)
     = Some (AwaitSockRecv (recv_restoreReadSize t) false)).
Proof.
  intros Hturns Hrun.
  pose proof (recv_run_size _ _ _ _ Hturns Hrun) as Hsize. cbn [fst] in Hsize.
  split; [exact Hsize|].
  intros Hat Hne s''. rewrite <- Hsize.
  apply recv_drains_first; [assumption|]. now rewrite Hsize.
Qed.

Lemma recv_drain_size_kept_witness :
  Forall not_aborted drain_turns /\
  exists t' s' request',
    recv_run initRemoteSlot_accept drain_turns
      (RecvTask_draining, scheduler_two_sends, AwaitAnyRecvOp success)
    = Some (t', s', request') /\
    recv_restoreReadSize t' = recv_restoreReadSize RecvTask_draining /\
    (recv_at t' = AtAnyRecvOp ->
     recv_restoreReadSize RecvTask_draining <> 0 ->
     forall s'',
       recv_next_request
         (recv_resume initRemoteSlot_accept t' s'' ResumeAnyRecvOp)
       = Some (AwaitSockRecv (recv_restoreReadSize RecvTask_draining) false)).
Proof.
  assert (Hturns : Forall not_aborted drain_turns).
  { repeat (apply Forall_cons; split); try apply List.Forall_nil;
      intros received H; discriminate H. }
  split; [exact Hturns|].
  eexists. eexists. eexists. split; [vm_compute; reflexivity|].
  eapply (recv_drain_size_kept initRemoteSlot_accept drain_turns
            RecvTask_draining scheduler_two_sends (AwaitAnyRecvOp success)).
  - exact Hturns.
  - vm_compute. reflexivity.
Defined.

End SchedulerMore.
